(** * Anchor: heading permalinks (src/index.ts)

    A shallow embedding of [src/index.ts]: the [Anchor] class with its
    option defaulting, the slug generator [urlify], the already-anchored
    predicate [hasAnchorJSLink], the scan [add] with its collision loop,
    [remove] and [removeAll], and the module functions
    [_addBaselineStyles], [_getElements] and [anchor].

    JavaScript strings are sequences of UTF-16 code units, modelled as
    [list N].  JavaScript numbers are modelled by [number]: a rational, or
    one of NaN, +Infinity, -Infinity.  The DOM is a store of nodes addressed
    by [NodeId]; the browser services the program calls but does not define
    (the CSS selector engine and its parser, the style sheet of a style
    element, HTML entity decoding, Unicode lower-casing) are the fields of
    the [Browser] class. *)

From Stdlib Require Import QArith Qround.
From stdpp Require Import base decidable option list strings pretty.

Open Scope nat_scope.
Open Scope list_scope.

(** ** Strings *)

Abbreviation jsstring := (list N).

(** The code units of an ASCII literal. *)
Fixpoint str (s : string) : jsstring :=
  match s with
  | EmptyString => []
  | String c s' => Ascii.N_of_ascii c :: str s'
  end.

Definition HYPHEN : N := 45%N.
Definition APOSTROPHE : N := 39%N.
Definition QUOTE : N := 34%N.
Definition BACKSLASH : N := 92%N.

(** [String(undefined)], as produced by [+] on a string and [undefined]. *)
Definition toStr (v : option jsstring) : jsstring :=
  match v with
  | Some s => s
  | None => str "undefined"
  end.

(** A string is truthy when it is defined and not empty. *)
Definition truthyStr (v : option jsstring) : bool :=
  match v with
  | Some (_ :: _) => true
  | _ => false
  end.

(** [a || b] on strings. *)
Definition orStr (v : option jsstring) (dflt : jsstring) : jsstring :=
  match v with
  | Some (c :: s) => c :: s
  | _ => dflt
  end.

Fixpoint dropWhile {A} (p : A → bool) (l : list A) : list A :=
  match l with
  | [] => []
  | x :: l' => if p x then dropWhile p l' else l
  end.

(** WhiteSpace and LineTerminator code units of ECMAScript, as removed by
    [String.prototype.trim]. *)
Definition isWhiteSpace (c : N) : bool :=
  bool_decide (c ∈ [9; 10; 11; 12; 13; 32; 160; 5760; 8232; 8233; 8239;
                    8287; 12288; 65279]%N)
  || ((8192 <=? c)%N && (c <=? 8202)%N).

Definition isLineTerminator (c : N) : bool :=
  bool_decide (c ∈ [10; 13; 8232; 8233]%N).

Definition trim (s : jsstring) : jsstring :=
  reverse (dropWhile isWhiteSpace (reverse (dropWhile isWhiteSpace s))).

(** [String.prototype.indexOf]: the position of the first occurrence of
    [pat], or -1. *)
Fixpoint indexOfFrom (pat s : jsstring) (pos : Z) : Z :=
  if decide (pat `prefix_of` s) then pos
  else match s with
       | [] => (-1)%Z
       | _ :: s' => indexOfFrom pat s' (pos + 1)%Z
       end.

Definition indexOf (s pat : jsstring) : Z := indexOfFrom pat s 0%Z.

(** [Array.prototype.indexOf] on an array of strings (strict equality). *)
Fixpoint arrayIndexOfFrom (x : jsstring) (l : list jsstring) (pos : Z) : Z :=
  match l with
  | [] => (-1)%Z
  | y :: l' => if decide (y = x) then pos else arrayIndexOfFrom x l' (pos + 1)%Z
  end.

Definition arrayIndexOf (l : list jsstring) (x : jsstring) : Z :=
  arrayIndexOfFrom x l 0%Z.

(** ** Numbers *)

Inductive number :=
  | Finite (q : Q)
  | NaN
  | PosInfinity
  | NegInfinity.

(** ToBoolean on a number: +0, -0 and NaN are falsy. *)
Definition truthyNum (x : number) : bool :=
  match x with
  | Finite q => negb (Qeq_bool q 0)
  | NaN => false
  | PosInfinity | NegInfinity => true
  end.

Definition truthyOptNum (x : option number) : bool :=
  match x with
  | Some n => truthyNum n
  | None => false
  end.

Definition Math_floor (x : number) : number :=
  match x with
  | Finite q => Finite (inject_Z (Qfloor q))
  | other => other
  end.

(** ToIntegerOrInfinity followed by the clamp to [0, len] that
    [String.prototype.substring] applies to each of its arguments; an
    [undefined] end means [len]. *)
Definition clampIndex (len : nat) (x : number) : nat :=
  match x with
  | Finite q =>
      let i := if Qle_bool 0 q then Qfloor q else Qceiling q in
      Z.to_nat (Z.min (Z.max i 0) (Z.of_nat len))
  | NaN => 0
  | PosInfinity => len
  | NegInfinity => 0
  end.

Definition substring (s : jsstring) (start : number) (end_ : option number)
  : jsstring :=
  let len := length s in
  let finalStart := clampIndex len start in
  let finalEnd := match end_ with
                  | Some e => clampIndex len e
                  | None => len
                  end in
  let from := Nat.min finalStart finalEnd in
  let to := Nat.max finalStart finalEnd in
  take (to - from) (drop from s).

(** Number-to-string of a loop counter (a non-negative integer). *)
Definition numToString (n : nat) : jsstring := str (pretty n).

(** ** Options *)

Inductive Visible := hover | always | touch.

Module Placement.
Inductive t := right | left.
End Placement.

#[global] Instance Visible_eq_dec : EqDecision Visible.
Proof. solve_decision. Defined.

#[global] Instance Placement_eq_dec : EqDecision Placement.t.
Proof. solve_decision. Defined.

(** [Partial<AnchorOpts>]: every field may be [undefined]. *)
Record AnchorOpts := {
  icon : option jsstring;
  visible : option Visible;
  placement : option Placement.t;
  ariaLabel : option jsstring;
  class : option jsstring;
  base : option jsstring;
  truncate : option number;
  titleText : option jsstring
}.

(** The literal [{}]. *)
Definition emptyOpts : AnchorOpts :=
  {| icon := None; visible := None; placement := None; ariaLabel := None;
     class := None; base := None; truncate := None; titleText := None |}.

Definition DEFAULT_ICON : jsstring := [59851%N].  (* U+E9CB *)

(** The constructor's default parameter [{ icon: U+E9CB, visible: 'always' }]. *)
Definition constructorDefault : AnchorOpts :=
  {| icon := Some DEFAULT_ICON; visible := Some always; placement := None;
     ariaLabel := None; class := None; base := None; truncate := None;
     titleText := None |}.

Definition _applyRemainingDefaultOptions (opts : AnchorOpts) : AnchorOpts :=
  {| icon := Some (orStr (icon opts) DEFAULT_ICON);
     visible := Some (default hover (visible opts));
     placement := Some (default Placement.right (placement opts));
     ariaLabel := Some (orStr (ariaLabel opts) (str "Anchor"));
     class := Some (orStr (class opts) []);
     base := Some (orStr (base opts) []);
     truncate := Some (match truncate opts with
                       | Some t => if truthyNum t then Math_floor t
                                   else Finite 64
                       | None => Finite 64
                       end);
     titleText := Some (orStr (titleText opts) []) |}.

(** ** The slug pipeline of [urlify]

    One function per method call of the chain in [urlify]. *)

(** [.replace(/'/gi, '')] *)
Definition removeApostrophes (s : jsstring) : jsstring :=
  filter (λ c, c ≠ APOSTROPHE) s.

(** The character class of [nonsafeChars]. *)
Definition nonsafeChars : jsstring :=
  str "& +$,:;=?@" ++ [QUOTE] ++ str "#{}|^~[`%!'<>]./()*"
  ++ [BACKSLASH; 10; 9; 8; 11; 160]%N.

(** [.replace(nonsafeChars, '-')] *)
Definition replaceNonsafe (s : jsstring) : jsstring :=
  (λ c, if bool_decide (c ∈ nonsafeChars) then HYPHEN else c) <$> s.

(** [.replace(/-{2,}/g, '-')]: every maximal run of two or more hyphens
    becomes one hyphen. *)
Fixpoint collapseHyphens (s : jsstring) : jsstring :=
  match s with
  | [] => []
  | c :: s' =>
      if bool_decide (c = HYPHEN) && bool_decide (head s' = Some HYPHEN)
      then collapseHyphens s'
      else c :: collapseHyphens s'
  end.

(** Does the run of hyphens at the front of [s] end at a line end?  ([$]
    with the [m] flag: the end of input, or just before a LineTerminator.) *)
Definition runEndsLine (s : jsstring) : bool :=
  match dropWhile (λ c, bool_decide (c = HYPHEN)) s with
  | [] => true
  | c :: _ => isLineTerminator c
  end.

(** [.replace(/^-+|-+$/gm, '')]: a maximal run of hyphens is deleted when it
    begins at a line start or ends at a line end.  [lineStart] tells whether
    the current position is a line start ([^] with the [m] flag). *)
Fixpoint stripHyphensFrom (lineStart : bool) (s : jsstring) : jsstring :=
  match s with
  | [] => []
  | c :: s' =>
      if bool_decide (c = HYPHEN) then
        if lineStart || runEndsLine s' then stripHyphensFrom lineStart s'
        else c :: stripHyphensFrom false s'
      else c :: stripHyphensFrom (isLineTerminator c) s'
  end.

Definition stripHyphens (s : jsstring) : jsstring := stripHyphensFrom true s.

(** ** The DOM store *)

Abbreviation NodeId := nat (only parsing).

Inductive NodeKind :=
  | ElementNode (tagName : jsstring)
  | TextNode (data : jsstring).

(** A node: its attributes (by name), the inline style properties assigned
    to it in order, its children, and (for a [style] element) the rules of
    its sheet. *)
Record Node := {
  kind : NodeKind;
  attributes : list (string * jsstring);
  style : list (string * jsstring);
  childNodes : list NodeId;
  cssRules : list jsstring
}.

Record Window := {
  ontouchstart : bool;       (* 'ontouchstart' in window *)
  documentTouch : bool;      (* window.DocumentTouch &&
                                document instanceof window.DocumentTouch *)
  pathname : jsstring;       (* window.location.pathname *)
  search : jsstring          (* window.location.search *)
}.

(** [nodes] is the store: a [NodeId] is an index into it, and an index out
    of range stands for [null].  [head] is [document.head]. *)
Record Document := {
  nodes : list Node;
  head : NodeId;
  window : Window
}.

(** The services of the browser that the program calls: the selector engine
    ([scope] is [None] for [document.querySelectorAll], [Some n] for
    [n.querySelectorAll]) with its parser ([validSelector s] tells whether
    the string [s] is a selector; the engine throws a SyntaxError on any
    other string), whether the browser has given the node [n] a style sheet
    ([n.sheet] is an object and not [null]: a style element in the document
    gets one unless the page may not have inline styles), the decoding done
    by assigning to [textarea.innerHTML] and reading [textarea.value], and
    [String.prototype.toLowerCase]. *)
Class Browser := {
  querySelectorAll : Document → option NodeId → jsstring → list NodeId;
  validSelector : jsstring → bool;
  hasSheet : Document → NodeId → bool;
  decodeEntities : jsstring → jsstring;
  toLowerCase : jsstring → jsstring
}.

(** ** The manager and the monad of effects *)

Record Anchor := {
  opts : AnchorOpts;
  els : list NodeId
}.

Record World := {
  this : Anchor;
  document : Document
}.

Inductive Error :=
  | TypeError (msg : string)
  | DOMException (name : string)
  | FuelExhausted.

Inductive Completion (A : Type) :=
  | Return (a : A)
  | Throw (e : Error).
Arguments Return {A} a.
Arguments Throw {A} e.

(** A computation reads and writes the world and either returns or throws;
    the world at the throw is kept. *)
Definition M (A : Type) : Type := World → Completion A * World.

#[global] Instance M_ret : MRet M := λ A a w, (Return a, w).

#[global] Instance M_bind : MBind M := λ A B f m w,
  match m w with
  | (Return a, w') => f a w'
  | (Throw e, w') => (Throw e, w')
  end.

Definition throw {A} (e : Error) : M A := λ w, (Throw e, w).
Definition getThis : M Anchor := λ w, (Return (this w), w).
Definition getDocument : M Document := λ w, (Return (document w), w).
Definition setOpts (o : AnchorOpts) : M unit := λ w,
  (Return tt, {| this := {| opts := o; els := els (this w) |};
                 document := document w |}).
Definition setEls (l : list NodeId) : M unit := λ w,
  (Return tt, {| this := {| opts := opts (this w); els := l |};
                 document := document w |}).
Definition setNodes (ns : list Node) : M unit := λ w,
  (Return tt, {| this := this w;
                 document := {| nodes := ns; head := head (document w);
                                window := window (document w) |} |}).
Definition when (b : bool) (m : M unit) : M unit := if b then m else mret tt.

(** Dereference: property access on [null] throws a TypeError. *)
Definition getNode (n : NodeId) : M Node :=
  d ← getDocument;
  match nodes d !! n with
  | Some nd => mret nd
  | None => throw (TypeError "Cannot read properties of null")
  end.

Definition updateNode (n : NodeId) (f : Node → Node) : M unit :=
  nd ← getNode n;
  d ← getDocument;
  setNodes (<[n := f nd]> (nodes d)).

(** *** Attribute lists *)

Fixpoint attrGet (name : string) (l : list (string * jsstring))
  : option jsstring :=
  match l with
  | [] => None
  | (k, v) :: l' => if decide (k = name) then Some v else attrGet name l'
  end.

Fixpoint attrSet (name : string) (v : jsstring) (l : list (string * jsstring))
  : list (string * jsstring) :=
  match l with
  | [] => [(name, v)]
  | (k, v') :: l' =>
      if decide (k = name) then (k, v) :: l' else (k, v') :: attrSet name v l'
  end.

Definition isElement (nd : Node) : bool :=
  match kind nd with
  | ElementNode _ => true
  | TextNode _ => false
  end.

(** An element method called on a node that has none. *)
Definition getElement (n : NodeId) : M Node :=
  nd ← getNode n;
  if isElement nd then mret nd
  else throw (TypeError "not a function").

Definition hasAttribute (el : NodeId) (name : string) : M bool :=
  nd ← getElement el;
  mret (bool_decide (is_Some (attrGet name (attributes nd)))).

Definition getAttribute (el : NodeId) (name : string) : M (option jsstring) :=
  nd ← getElement el;
  mret (attrGet name (attributes nd)).

Definition withAttribute (name : string) (v : jsstring) (nd : Node) : Node :=
  {| kind := kind nd; attributes := attrSet name v (attributes nd);
     style := style nd; childNodes := childNodes nd;
     cssRules := cssRules nd |}.

Definition setAttribute (el : NodeId) (name : string) (v : jsstring) : M unit :=
  _ ← getElement el;
  updateNode el (withAttribute name v).

Definition withStyle (prop : string) (v : jsstring) (nd : Node) : Node :=
  {| kind := kind nd; attributes := attributes nd;
     style := style nd ++ [(prop, v)]; childNodes := childNodes nd;
     cssRules := cssRules nd |}.

(** [n.style.prop = v] *)
Definition setStyle (n : NodeId) (prop : string) (v : jsstring) : M unit :=
  updateNode n (withStyle prop v).

Definition withRule (rule : jsstring) (nd : Node) : Node :=
  {| kind := kind nd; attributes := attributes nd; style := style nd;
     childNodes := childNodes nd; cssRules := cssRules nd ++ [rule] |}.

(** [n.sheet?.insertRule(rule, n.sheet?.cssRules.length)]: nothing is done
    when [n] has no sheet; both readings of [n.sheet] are of the same
    document. *)
Definition insertRule `{Browser} (n : NodeId) (rule : jsstring) : M unit :=
  d ← getDocument;
  if hasSheet d n then updateNode n (withRule rule) else mret tt.

Definition withChildren (l : list NodeId) (nd : Node) : Node :=
  {| kind := kind nd; attributes := attributes nd; style := style nd;
     childNodes := l; cssRules := cssRules nd |}.

Definition newNode (k : NodeKind) : Node :=
  {| kind := k; attributes := []; style := []; childNodes := [];
     cssRules := [] |}.

(** A new node takes the next index of the store. *)
Definition createNode (k : NodeKind) : M NodeId :=
  d ← getDocument;
  setNodes (nodes d ++ [newNode k]);;
  mret (length (nodes d)).

Definition createElement (tag : jsstring) : M NodeId :=
  createNode (ElementNode tag).

Definition createTextNode (data : jsstring) : M NodeId :=
  createNode (TextNode data).

Definition firstChild (n : NodeId) : M (option NodeId) :=
  nd ← getNode n; mret (List.head (childNodes nd)).

Definition lastChild (n : NodeId) : M (option NodeId) :=
  nd ← getNode n; mret (last (childNodes nd)).

(** [(n as HTMLElement).className]: the class attribute of an element (the
    empty string when it has none), [undefined] on a text node, and a
    TypeError when [n] is [null]. *)
Definition className (n : option NodeId) : M (option jsstring) :=
  match n with
  | None => throw (TypeError "Cannot read properties of null")
  | Some c =>
      nd ← getNode c;
      mret (match kind nd with
            | ElementNode _ => Some (default [] (attrGet "class" (attributes nd)))
            | TextNode _ => None
            end)
  end.

(** [parent.appendChild(child)], for a [child] that has no parent yet. *)
Definition appendChild (parent child : NodeId) : M unit :=
  updateNode parent (λ nd, withChildren (childNodes nd ++ [child]) nd).

Fixpoint insertBeforeIn (new ref : NodeId) (l : list NodeId)
  : option (list NodeId) :=
  match l with
  | [] => None
  | c :: l' =>
      if decide (c = ref) then Some (new :: l)
      else (c ::.) <$> insertBeforeIn new ref l'
  end.

(** [parent.insertBefore(new, ref)], for a [new] that has no parent yet:
    before the child [ref], at the end when [ref] is [null], and a
    NotFoundError when [ref] is not a child of [parent]. *)
Definition insertBefore (parent new : NodeId) (ref : option NodeId) : M unit :=
  match ref with
  | None => appendChild parent new
  | Some r =>
      nd ← getNode parent;
      match insertBeforeIn new r (childNodes nd) with
      | Some l => updateNode parent (withChildren l)
      | None => throw (DOMException "NotFoundError")
      end
  end.

(** [n.textContent]: the text of the descendants of [n], in tree order.  The
    depth of a tree is below the number of its nodes, which bounds [fuel]. *)
Fixpoint textContentFrom (fuel : nat) (ns : list Node) (n : NodeId) : jsstring :=
  match fuel with
  | O => []
  | S fuel' =>
      match ns !! n with
      | None => []
      | Some nd =>
          match kind nd with
          | TextNode data => data
          | ElementNode _ =>
              mjoin (textContentFrom fuel' ns <$> childNodes nd)
          end
      end
  end.

Definition textContent (n : NodeId) : M jsstring :=
  _ ← getNode n;
  d ← getDocument;
  mret (textContentFrom (length (nodes d)) (nodes d) n).

(** [scope.querySelector(sel)], for the selectors that the program writes
    itself ([base], [style.anchorjs], [[rel="stylesheet"],style] and
    [.anchorjs-link]), all of which the parser accepts. *)
Definition querySelector `{Browser} (scope : option NodeId) (sel : jsstring)
  : M (option NodeId) :=
  match scope with
  | Some n => _ ← getNode n; mret tt
  | None => mret tt
  end;;
  d ← getDocument;
  mret (List.head (querySelectorAll d scope sel)).

(** [el.id] for an element returned by the selector engine: its id
    attribute, or the empty string. *)
Definition elementId (d : Document) (n : NodeId) : jsstring :=
  default [] (nd ← nodes d !! n; attrGet "id" (attributes nd)).

(** ** Module-level functions *)

(** The rules of the baseline style sheet. *)
Definition linkRule : jsstring :=
  str (".anchorjs-link{" +:+ "opacity:0;" +:+ "text-decoration:none;"
       +:+ "-webkit-font-smoothing:antialiased;"
       +:+ "-moz-osx-font-smoothing:grayscale" +:+ "}").

Definition hoverRule : jsstring :=
  str (":hover>.anchorjs-link," +:+ ".anchorjs-link:focus{" +:+ "opacity:1"
       +:+ "}").

Definition anchorjsLinkFontData : string :=
  "data:n/a;base64,AAEAAAALAIAAAwAwT1MvMg8yG2cAAAE4AAAAYGNtYXDp"
  +:+ "3gC3AAABpAAAAExnYXNwAAAAEAAAA9wAAAAIZ2x5ZlQCcfwAAAH4AAABCGhl"
  +:+ "YWQHFvHyAAAAvAAAADZoaGVhBnACFwAAAPQAAAAkaG10eASAADEAAAGYAAAA"
  +:+ "DGxvY2EACACEAAAB8AAAAAhtYXhwAAYAVwAAARgAAAAgbmFtZQGOH9cAAAMA"
  +:+ "AAAAunBvc3QAAwAAAAADvAAAACAAAQAAAAEAAHzE2p9fDzz1AAkEAAAAAADR"
  +:+ "ecUWAAAAANQA6R8AAAAAAoACwAAAAAgAAgAAAAAAAAABAAADwP/AAAACgAAA"
  +:+ "/9MCrQABAAAAAAAAAAAAAAAAAAAAAwABAAAAAwBVAAIAAAAAAAIAAAAAAAAA"
  +:+ "AAAAAAAAAAAAAAMCQAGQAAUAAAKZAswAAACPApkCzAAAAesAMwEJAAAAAAAA"
  +:+ "AAAAAAAAAAAAARAAAAAAAAAAAAAAAAAAAAAAQAAg//0DwP/AAEADwABAAAAA"
  +:+ "AQAAAAAAAAAAAAAAIAAAAAAAAAIAAAACgAAxAAAAAwAAAAMAAAAcAAEAAwAA"
  +:+ "ABwAAwABAAAAHAAEADAAAAAIAAgAAgAAACDpy//9//8AAAAg6cv//f///+EW"
  +:+ "NwADAAEAAAAAAAAAAAAAAAAACACEAAEAAAAAAAAAAAAAAAAxAAACAAQARAKA"
  +:+ "AsAAKwBUAAABIiYnJjQ3NzY2MzIWFxYUBwcGIicmNDc3NjQnJiYjIgYHBwYU"
  +:+ "FxYUBwYGIwciJicmNDc3NjIXFhQHBwYUFxYWMzI2Nzc2NCcmNDc2MhcWFAcH"
  +:+ "BgYjARQGDAUtLXoWOR8fORYtLTgKGwoKCjgaGg0gEhIgDXoaGgkJBQwHdR85"
  +:+ "Fi0tOAobCgoKOBoaDSASEiANehoaCQkKGwotLXoWOR8BMwUFLYEuehYXFxYu"
  +:+ "gC44CQkKGwo4GkoaDQ0NDXoaShoKGwoFBe8XFi6ALjgJCQobCjgaShoNDQ0N"
  +:+ "ehpKGgobCgoKLYEuehYXAAAADACWAAEAAAAAAAEACAAAAAEAAAAAAAIAAwAI"
  +:+ "AAEAAAAAAAMACAAAAAEAAAAAAAQACAAAAAEAAAAAAAUAAQALAAEAAAAAAAYA"
  +:+ "CAAAAAMAAQQJAAEAEAAMAAMAAQQJAAIABgAcAAMAAQQJAAMAEAAMAAMAAQQJ"
  +:+ "AAQAEAAMAAMAAQQJAAUAAgAiAAMAAQQJAAYAEAAMYW5jaG9yanM0MDBAAGEA"
  +:+ "bgBjAGgAbwByAGoAcwA0ADAAMABAAAAAAwAAAAAAAAAAAAAAAAAAAAAAAAAA"
  +:+ "AAAAAAAAAAAAAAABAAH//wAP".

Definition anchorjsLinkFontFace : jsstring :=
  str ("@font-face{" +:+ "font-family:anchorjs-icons;" +:+ "src:url("
       +:+ anchorjsLinkFontData +:+ ") format(")
  ++ [QUOTE] ++ str "truetype" ++ [QUOTE] ++ str (")" +:+ "}").

Definition pseudoElContent : jsstring :=
  str ("[data-anchorjs-icon]::after{" +:+ "content:attr(data-anchorjs-icon)"
       +:+ "}").

Definition STYLESHEET_OR_STYLE : jsstring :=
  str "[rel=" ++ [QUOTE] ++ str "stylesheet" ++ [QUOTE] ++ str "],style".

(** [_addBaselineStyles].  The test [firstStyleEl === undefined] never
    holds, [querySelector] giving an element or [null]: the style element is
    always placed with [insertBefore], which appends on [null]. *)
Definition _addBaselineStyles `{Browser} : M unit :=
  d ← getDocument;
  existing ← querySelector (Some (head d)) (str "style.anchorjs");
  if bool_decide (is_Some existing) then mret tt
  else
    style ← createElement (str "style");
    setAttribute style "class" (str "anchorjs");;
    text ← createTextNode [];
    appendChild style text;;
    firstStyleEl ← querySelector (Some (head d)) STYLESHEET_OR_STYLE;
    insertBefore (head d) style firstStyleEl;;
    insertRule style linkRule;;
    insertRule style hoverRule;;
    insertRule style pseudoElContent;;
    insertRule style anchorjsLinkFontFace.

(** The argument of [add]: a selector string, an array of nodes, a NodeList,
    or any other (truthy) value. *)
Inductive Selector :=
  | SelString (s : jsstring)
  | SelArray (l : list NodeId)
  | SelNodeList (l : list NodeId)
  | SelOther.

(** The error of [document.querySelectorAll] on a string that is no
    selector. *)
Definition SYNTAX_ERROR : Error := DOMException "SyntaxError".

Definition _getElements `{Browser} (input : Selector) : M (list NodeId) :=
  match input with
  | SelString s =>
      d ← getDocument;
      if validSelector s then mret (querySelectorAll d None s)
      else throw SYNTAX_ERROR
  | SelArray l | SelNodeList l => mret l
  | SelOther => throw (TypeError "The selector provided to AnchorJS was invalid.")
  end.

(** ** The methods of [Anchor] *)

(** [new Anchor(opts)]; [None] is a call without argument, which takes the
    default parameter. *)
Definition new_Anchor (o : option AnchorOpts) : Anchor :=
  {| opts := _applyRemainingDefaultOptions (default constructorDefault o);
     els := [] |}.

Definition isTouchDevice : M bool :=
  d ← getDocument;
  mret (ontouchstart (window d) || documentTouch (window d)).

Definition ANCHOR_MARK : jsstring := str " anchorjs-link ".

Definition hasAnchorJSLink (el : NodeId) : M bool :=
  fc ← firstChild el;
  firstClass ← className fc;
  lc ← lastChild el;
  lastClass ← className lc;
  let hasLeftAnchor :=
    bool_decide (is_Some fc)
    && (-1 <? indexOf (str " " ++ toStr firstClass ++ str " ") ANCHOR_MARK)%Z in
  let hasRightAnchor :=
    bool_decide (is_Some lc)
    && (-1 <? indexOf (str " " ++ toStr lastClass ++ str " ") ANCHOR_MARK)%Z in
  mret (hasLeftAnchor || hasRightAnchor || false).

(** The slug before the final lower-casing: trimmed, apostrophes removed,
    unsafe characters hyphenated, hyphen runs collapsed, cut by
    [substring(0, truncate)] and stripped of dangling hyphens. *)
Definition tidy (text : jsstring) (truncate : option number) : jsstring :=
  stripHyphens
    (substring
       (collapseHyphens (replaceNonsafe (removeApostrophes (trim text))))
       (Finite 0) truncate).

(** [urlify].  The scratch [textarea] is never attached and is not kept in
    the store. *)
Definition urlify `{Browser} (text : jsstring) : M jsstring :=
  let text := decodeEntities text in
  a ← getThis;
  when (negb (truthyOptNum (truncate (opts a))))
       (setOpts (_applyRemainingDefaultOptions (opts a)));;
  a ← getThis;
  mret (toLowerCase (tidy text (truncate (opts a)))).

(** The [do ... while (index !== -1)] loop of [add].  [index] is [None] for
    [undefined]; each turn of the loop spends one unit of [fuel], and [None]
    is returned when the fuel runs out before the loop exits. *)
Fixpoint collisionLoop (fuel : nat) (idList : list jsstring)
    (tidyText newTidyText : jsstring) (count : nat) (index : option Z)
  : option jsstring :=
  match fuel with
  | O => None
  | S fuel' =>
      let newTidyText :=
        match index with
        | Some _ => tidyText ++ str "-" ++ numToString count
        | None => newTidyText
        end in
      let index := arrayIndexOf idList newTidyText in
      let count := count + 1 in
      if decide (index ≠ (-1)%Z)
      then collisionLoop fuel' idList tidyText newTidyText count (Some index)
      else Some newTidyText
  end.

(** The branch of [add] that generates an identifier: [index] is
    [undefined] on entry to the loop (it is declared without a value and
    reset after each use), and the loop is given more fuel than the registry
    has entries. *)
Definition generateId `{Browser} (el : NodeId) (idList : list jsstring)
  : M (jsstring * list jsstring) :=
  text ← textContent el;
  tidyText ← urlify text;
  match collisionLoop (S (length idList)) idList tidyText tidyText 0 None with
  | None => throw FuelExhausted
  | Some newTidyText =>
      setAttribute el "id" newTidyText;;
      mret (newTidyText, idList ++ [newTidyText])
  end.

(** The three ways of [add] to an [elementID]. *)
Definition determineId `{Browser} (el : NodeId) (idList : list jsstring)
  : M (option jsstring * list jsstring) :=
  hasId ← hasAttribute el "id";
  if (hasId : bool) then
    elementID ← getAttribute el "id";
    mret (elementID, idList)
  else
    hasData ← hasAttribute el "data-anchor-id";
    if (hasData : bool) then
      elementID ← getAttribute el "data-anchor-id";
      mret (elementID, idList)
    else
      r ← generateId el idList;
      mret (Some (fst r), snd r).

(** String concatenation with a value that may be [null]. *)
Definition toStrNull (v : option jsstring) : jsstring :=
  default (str "null") v.

(** The construction of the anchor node in [add], up to its insertion.  (The
    [console.log] calls of [add] write to the console only.) *)
Definition buildAnchor `{Browser} (elementID : option jsstring) : M NodeId :=
  anchor ← createElement (str "a");
  a ← getThis;
  let o := opts a in
  setAttribute anchor "class" (str "anchorjs-link " ++ toStr (class o));;
  setAttribute anchor "aria-label" (toStr (ariaLabel o));;
  setAttribute anchor "data-anchorjs-icon" (toStr (icon o));;
  when (truthyStr (titleText o))
       (setAttribute anchor "title" (toStr (titleText o)));;
  baseEl ← querySelector None (str "base");
  d ← getDocument;
  let hrefBase := if bool_decide (is_Some baseEl)
                  then pathname (window d) ++ search (window d)
                  else [] in
  let hrefBase := orStr (base o) hrefBase in
  setAttribute anchor "href" (hrefBase ++ str "#" ++ toStrNull elementID);;
  when (bool_decide (visible o = Some always))
       (setStyle anchor "opacity" (str "1"));;
  isTouch ← isTouchDevice;
  when (bool_decide (visible o = Some touch) && isTouch)
       (setStyle anchor "opacity" (str "1"));;
  when (bool_decide (icon o = Some DEFAULT_ICON))
       (setStyle anchor "font" (str "1em/1 anchorjs-icons");;
        when (bool_decide (placement o = Some Placement.left))
             (setStyle anchor "lineHeight" (str "inherit")));;
  mret anchor.

(** The placement of the anchor node in [add]. *)
Definition placeAnchor (el anchor : NodeId) : M unit :=
  a ← getThis;
  if bool_decide (placement (opts a) = Some Placement.left) then
    setStyle anchor "position" (str "absolute");;
    setStyle anchor "marginLeft" (str "-1.25em");;
    setStyle anchor "paddingRight" (str ".25em");;
    setStyle anchor "paddingLeft" (str ".25em");;
    fc ← firstChild el;
    insertBefore el anchor fc
  else
    setStyle anchor "marginLeft" (str ".1875em");;
    setStyle anchor "paddingRight" (str ".1875em");;
    setStyle anchor "paddingLeft" (str ".1875em");;
    appendChild el anchor.

(** One turn of the [for] loop of [add] on [elements[i]], threading the
    registry [idList] and [indexesToDrop]. *)
Definition addElement `{Browser} (el : NodeId) (i : nat)
    (st : list jsstring * list nat) : M (list jsstring * list nat) :=
  let '(idList, indexesToDrop) := st in
  anchored ← hasAnchorJSLink el;
  if (anchored : bool) then mret (idList, indexesToDrop ++ [i])
  else
    r ← determineId el idList;
    anchor ← buildAnchor (fst r);
    placeAnchor el anchor;;
    mret (snd r, indexesToDrop).

Fixpoint addLoop `{Browser} (elements : list NodeId) (i : nat)
    (st : list jsstring * list nat) : M (list jsstring * list nat) :=
  match elements with
  | [] => mret st
  | el :: rest => st' ← addElement el i st; addLoop rest (S i) st'
  end.

(** [for (i ...) elements.splice(indexesToDrop[i] - i, 1)] *)
Fixpoint spliceLoop (indexesToDrop : list nat) (i : nat) (elements : list NodeId)
  : list NodeId :=
  match indexesToDrop with
  | [] => elements
  | ix :: rest => spliceLoop rest (S i) (delete (ix - i) elements)
  end.

Definition DEFAULT_SELECTOR : jsstring := str "h2, h3, h4, h5, h6".

(** [!selector]: [undefined] and the empty string are falsy. *)
Definition selectorOrDefault (selector : option Selector) : Selector :=
  match selector with
  | None | Some (SelString []) => SelString DEFAULT_SELECTOR
  | Some s => s
  end.

(** The registry [idList] that [add] builds from [document.querySelectorAll('[id]')]. *)
Definition existingIds `{Browser} (d : Document) : list jsstring :=
  elementId d <$> querySelectorAll d None (str "[id]").

Definition add `{Browser} (selector : option Selector) : M unit :=
  a ← getThis;
  setOpts (_applyRemainingDefaultOptions (opts a));;
  elements ← _getElements (selectorOrDefault selector);
  if bool_decide (length elements = 0) then mret tt
  else
    _addBaselineStyles;;
    d ← getDocument;
    let idList := existingIds d in
    st ← addLoop elements 0 (idList, []);
    let elements := spliceLoop (snd st) 0 elements in
    a ← getThis;
    setEls (els a ++ elements).

(** [anchor(opts)]: a new manager on [opts] (the literal [{}] when absent),
    scanned once. *)
Definition anchor `{Browser} (o : option AnchorOpts) (d : Document)
  : Completion unit * World :=
  add None {| this := new_Anchor (Some (default emptyOpts o)); document := d |}.

(** ** A small browser and documents for the examples

    [asciiBrowser] decodes text that holds no character reference, folds
    the case of the ASCII letters, and answers the selectors that the
    program issues, as well as single type selectors, over the tree below
    the first [html] element of the store; it takes no other string for a
    selector, and gives a sheet to the style elements of that tree. *)

Definition asciiLower (c : N) : N :=
  if ((65 <=? c) && (c <=? 90))%N then (c + 32)%N else c.

Fixpoint descendantsFrom (fuel : nat) (ns : list Node) (n : NodeId)
  : list NodeId :=
  match fuel with
  | O => []
  | S fuel' =>
      match ns !! n with
      | None => []
      | Some nd =>
          mjoin ((λ c, c :: descendantsFrom fuel' ns c) <$> childNodes nd)
      end
  end.

Definition tagOf (nd : Node) : option jsstring :=
  match kind nd with
  | ElementNode t => Some t
  | TextNode _ => None
  end.

Definition hasClass (cls : string) (nd : Node) : bool :=
  (-1 <? indexOf (str " " ++ default [] (attrGet "class" (attributes nd))
                  ++ str " ")
                 (str " " ++ str cls ++ str " "))%Z.

Definition matchesSelector (sel : jsstring) (nd : Node) : bool :=
  isElement nd &&
  if decide (sel = str "[id]") then
    bool_decide (is_Some (attrGet "id" (attributes nd)))
  else if decide (sel = DEFAULT_SELECTOR) then
    bool_decide (tagOf nd ∈ (Some ∘ str) <$> ["h2"; "h3"; "h4"; "h5"; "h6"]%string)
  else if decide (sel = str "style.anchorjs") then
    bool_decide (tagOf nd = Some (str "style")) && hasClass "anchorjs" nd
  else if decide (sel = str ".anchorjs-link") then
    hasClass "anchorjs-link" nd
  else if decide (sel = STYLESHEET_OR_STYLE) then
    bool_decide (attrGet "rel" (attributes nd) = Some (str "stylesheet"))
    || bool_decide (tagOf nd = Some (str "style"))
  else bool_decide (tagOf nd = Some sel).

Definition documentRoot (ns : list Node) : option NodeId :=
  fst <$> list_find (λ nd, tagOf nd = Some (str "html")) ns.

Definition asciiQuerySelectorAll (d : Document) (scope : option NodeId)
    (sel : jsstring) : list NodeId :=
  let ns := nodes d in
  let candidates :=
    match scope with
    | Some n => descendantsFrom (length ns) ns n
    | None => match documentRoot ns with
              | Some r => r :: descendantsFrom (length ns) ns r
              | None => []
              end
    end in
  filter (λ n, default false (matchesSelector sel <$> ns !! n) = true)
         candidates.

Definition isAsciiLetter (c : N) : bool :=
  ((65 <=? c) && (c <=? 90) || (97 <=? c) && (c <=? 122))%N.

Definition isAsciiDigit (c : N) : bool := ((48 <=? c) && (c <=? 57))%N.

Definition asciiValidSelector (sel : jsstring) : bool :=
  bool_decide (sel ∈ [str "[id]"; DEFAULT_SELECTOR; str "style.anchorjs";
                      str ".anchorjs-link"; STYLESHEET_OR_STYLE])
  || match sel with
     | c :: s =>
         isAsciiLetter c && forallb (λ c, isAsciiLetter c || isAsciiDigit c) s
     | [] => false
     end.

Definition asciiHasSheet (d : Document) (n : NodeId) : bool :=
  let ns := nodes d in
  default false ((λ nd, bool_decide (tagOf nd = Some (str "style")))
                   <$> ns !! n)
  && match documentRoot ns with
     | Some r => bool_decide (n ∈ descendantsFrom (length ns) ns r)
     | None => false
     end.

Definition asciiBrowser : Browser :=
  {| querySelectorAll := asciiQuerySelectorAll;
     validSelector := asciiValidSelector;
     hasSheet := asciiHasSheet;
     decodeEntities := λ s, s;
     toLowerCase := fmap asciiLower |}.

Definition element (tag : string) (attrs : list (string * jsstring))
    (children : list NodeId) : Node :=
  {| kind := ElementNode (str tag); attributes := attrs; style := [];
     childNodes := children; cssRules := [] |}.

Definition text (data : string) : Node := newNode (TextNode (str data)).

Definition desktop : Window :=
  {| ontouchstart := false; documentTouch := false;
     pathname := str "/docs/"; search := [] |}.

(** [<html><head></head><body><div id="intro"></div><h2>Intro</h2></body></html>] *)
Definition introPage : Document :=
  {| nodes := [ element "html" [] [1; 2];
                element "head" [] [];
                element "body" [] [3; 4];
                element "div" [("id", str "intro")] [];
                element "h2" [] [5];
                text "Intro" ];
     head := 1; window := desktop |}.

(** The same page with a second taken identifier, [intro-0]. *)
Definition introPage0 : Document :=
  {| nodes := [ element "html" [] [1; 2];
                element "head" [] [];
                element "body" [] [3; 4; 6];
                element "div" [("id", str "intro")] [];
                element "h2" [] [5];
                text "Intro";
                element "div" [("id", str "intro-0")] [] ];
     head := 1; window := desktop |}.

(** [<html><head></head><body><h2></h2></body></html>]: a heading without
    children. *)
Definition emptyHeadingPage : Document :=
  {| nodes := [ element "html" [] [1; 2];
                element "head" [] [];
                element "body" [] [3];
                element "h2" [] [] ];
     head := 1; window := desktop |}.

(** [<html><head></head><body><h2 id="foo">One</h2><p id="foo"></p>
    <h3 data-anchor-id="bar">Two</h3></body></html>] *)
Definition explicitIdPage : Document :=
  {| nodes := [ element "html" [] [1; 2];
                element "head" [] [];
                element "body" [] [3; 5; 6];
                element "h2" [("id", str "foo")] [4];
                text "One";
                element "p" [("id", str "foo")] [];
                element "h3" [("data-anchor-id", str "bar")] [7];
                text "Two" ];
     head := 1; window := desktop |}.

(** [<html><head></head><body><h2 id="foo"></h2></body></html>]: a heading
    with an identifier and without children. *)
Definition emptyIdHeadingPage : Document :=
  {| nodes := [ element "html" [] [1; 2];
                element "head" [] [];
                element "body" [] [3];
                element "h2" [("id", str "foo")] [] ];
     head := 1; window := desktop |}.

(** [<html><head></head><body><p>text</p></body></html>]: no heading. *)
Definition noHeadingPage : Document :=
  {| nodes := [ element "html" [] [1; 2];
                element "head" [] [];
                element "body" [] [3];
                element "p" [] [4];
                text "text" ];
     head := 1; window := desktop |}.

Definition world (a : Anchor) (d : Document) : World :=
  {| this := a; document := d |}.

(** ** Closed forms used by the proofs *)

Definition withNodes (ns : list Node) (w : World) : World :=
  {| this := this w;
     document := {| nodes := ns; head := head (document w);
                    window := window (document w) |} |}.

Definition withOpts (o : AnchorOpts) (w : World) : World :=
  {| this := {| opts := o; els := els (this w) |}; document := document w |}.

(** The result of [hasAnchorJSLink] as a function of the store. *)
Definition hasMark (cls : option jsstring) : bool :=
  (-1 <? indexOf (str " " ++ toStr cls ++ str " ") ANCHOR_MARK)%Z.

Definition classOf (nd : Node) : option jsstring :=
  match kind nd with
  | ElementNode _ => Some (default [] (attrGet "class" (attributes nd)))
  | TextNode _ => None
  end.

Definition NULL_ERROR : Error := TypeError "Cannot read properties of null".

Definition anchoredIn (ns : list Node) (el : NodeId) : Completion bool :=
  match ns !! el with
  | None => Throw NULL_ERROR
  | Some nd =>
      match List.head (childNodes nd), last (childNodes nd) with
      | Some fc, Some lc =>
          match ns !! fc, ns !! lc with
          | Some fnd, Some lnd =>
              Return (hasMark (classOf fnd) || hasMark (classOf lnd) || false)
          | _, _ => Throw NULL_ERROR
          end
      | _, _ => Throw NULL_ERROR
      end
  end.

Definition applyIf {A} (b : bool) (f : A → A) (x : A) : A :=
  if b then f x else x.

(** The anchor node of [buildAnchor] when it looks for a [base] element:
    created, with its class, label, icon and title. *)
Definition labelledAnchor (o : AnchorOpts) : Node :=
  applyIf (truthyStr (titleText o))
     (withAttribute "title" (toStr (titleText o)))
  (withAttribute "data-anchorjs-icon" (toStr (icon o))
  (withAttribute "aria-label" (toStr (ariaLabel o))
  (withAttribute "class" (str "anchorjs-link " ++ toStr (class o))
  (newNode (ElementNode (str "a")))))).

(** The prefix of the [href] of an anchor. *)
Definition hrefBaseOf (o : AnchorOpts) (hasBase : bool) (win : Window)
  : jsstring :=
  orStr (base o) (if hasBase then pathname win ++ search win else []).

(** The anchor node that [buildAnchor] leaves in the store, for the options
    [o], given whether the document has a [base] element and whether the
    device is a touch device. *)
Definition anchorNode (o : AnchorOpts) (hasBase isTouch : bool) (win : Window)
    (elementID : option jsstring) : Node :=
  applyIf (bool_decide (icon o = Some DEFAULT_ICON))
    (λ nd, applyIf (bool_decide (placement o = Some Placement.left))
             (withStyle "lineHeight" (str "inherit"))
             (withStyle "font" (str "1em/1 anchorjs-icons") nd))
  (applyIf (bool_decide (visible o = Some touch) && isTouch)
     (withStyle "opacity" (str "1"))
  (applyIf (bool_decide (visible o = Some always))
     (withStyle "opacity" (str "1"))
  (withAttribute "href"
     (hrefBaseOf o hasBase win ++ str "#" ++ toStrNull elementID)
  (labelledAnchor o)))).

(** Whether [buildAnchor], run in the world [w], finds a [base] element. *)
Definition findsBase `{Browser} (w : World) : bool :=
  bool_decide (is_Some (List.head (querySelectorAll
    (document (withNodes (nodes (document w) ++ [labelledAnchor (opts (this w))]) w))
    None (str "base")))).

(** The spacing that [placeAnchor] adds to the anchor node. *)
Definition placedNode (o : AnchorOpts) (nd : Node) : Node :=
  if bool_decide (placement o = Some Placement.left) then
    withStyle "paddingLeft" (str ".25em")
      (withStyle "paddingRight" (str ".25em")
         (withStyle "marginLeft" (str "-1.25em")
            (withStyle "position" (str "absolute") nd)))
  else
    withStyle "paddingLeft" (str ".1875em")
      (withStyle "paddingRight" (str ".1875em")
         (withStyle "marginLeft" (str ".1875em") nd)).

(** The children of an element after [placeAnchor] put [anchor] there. *)
Definition placedChildren (o : AnchorOpts) (anchor : NodeId)
    (children : list NodeId) : list NodeId :=
  if bool_decide (placement o = Some Placement.left) then anchor :: children
  else children ++ [anchor].

(** The world after [buildAnchor] and [placeAnchor] on the element [el],
    whose node is [nd], for the identifier [elementID]. *)
Definition anchoredWorld `{Browser} (w : World) (el : NodeId) (nd : Node)
    (elementID : option jsstring) : World :=
  let o := opts (this w) in
  let d := document w in
  let isTouch := ontouchstart (window d) || documentTouch (window d) in
  let anchor := length (nodes d) in
  withNodes
    (<[el := withChildren (placedChildren o anchor (childNodes nd)) nd]>
       (nodes d ++
        [placedNode o (anchorNode o (findsBase w) isTouch (window d)
                                  elementID)]))
    w.

(** The world that [urlify] leaves: the options are defaulted again when
    [truncate] is falsy. *)
Definition afterUrlify (w : World) : World :=
  if truthyOptNum (truncate (opts (this w))) then w
  else withOpts (_applyRemainingDefaultOptions (opts (this w))) w.

(** The slug that [add] generates for the element [el] in the world [w]:
    [urlify] of its text content. *)
Definition slugOf `{Browser} (w : World) (el : NodeId) : jsstring :=
  let ns := nodes (document w) in
  toLowerCase (tidy (decodeEntities (textContentFrom (length ns) ns el))
                    (truncate (opts (this (afterUrlify w))))).

(** The world after the generated identifier [id] was set on [el], whose
    node was [nd]. *)
Definition identifiedWorld (w : World) (el : NodeId) (nd : Node)
    (id : jsstring) : World :=
  withNodes (<[el := withAttribute "id" id nd]> (nodes (document w)))
            (afterUrlify w).

(** The candidate identifiers of the collision loop: the slug itself, then
    the slug with the suffixes [-1], [-2], ... *)
Definition candidate (tidyText : jsstring) (n : nat) : jsstring :=
  tidyText ++ str "-" ++ numToString n.

(** ** The statements of the specification that the code is compared with *)

(** Following the specification: "append -N where N starts at 0 and
    increments until the candidate is not in the registry". *)
Fixpoint specFirstFree (fuel : nat) (idList : list jsstring)
    (slug : jsstring) (n : nat) : option jsstring :=
  match fuel with
  | O => None
  | S fuel' =>
      if decide (candidate slug n ∈ idList)
      then specFirstFree fuel' idList slug (S n)
      else Some (candidate slug n)
  end.

Definition specAssignedId (idList : list jsstring) (slug : jsstring)
  : option jsstring :=
  if decide (slug ∈ idList)
  then specFirstFree (S (length idList)) idList slug 0
  else Some slug.

(** Following the specification: "non-positive or missing values fall back
    to a default of 64; fractional values are floored". *)
Definition specMaxLength (truncate : option number) : nat :=
  match truncate with
  | Some (Finite q) => if Qle_bool q 0 then 64 else Z.to_nat (Qfloor q)
  | _ => 64
  end.

(** The text before truncation: decoded, trimmed, apostrophes removed,
    unsafe characters hyphenated and hyphen runs collapsed. *)
Definition hyphenated `{Browser} (text : jsstring) : jsstring :=
  collapseHyphens
    (replaceNonsafe (removeApostrophes (trim (decodeEntities text)))).

(** The cut that the code applies to the hyphenated text, for a manager
    constructed with the value [truncate]: [Some n] keeps [n] code units and
    [None] keeps them all. *)
Definition effectiveMaxLength (truncate : option number) : option nat :=
  match truncate with
  | None | Some NaN => Some 64
  | Some PosInfinity => None
  | Some NegInfinity => Some 0
  | Some (Finite q) =>
      if Qeq_bool q 0 then Some 64
      else if Qle_bool q 0 then Some 0
      else if Qle_bool 1 q then Some (Z.to_nat (Qfloor q))
      else Some 64
  end.

(** The cut that [urlify] applies when it finds the value [truncate] in
    the options, however it got there: a falsy value makes [urlify] default
    the options, and any other is what [substring(0, truncate)] makes of
    it. *)
Definition usedMaxLength (truncate : option number) : option nat :=
  match truncate with
  | None | Some NaN => Some 64
  | Some PosInfinity => None
  | Some NegInfinity => Some 0
  | Some (Finite q) =>
      if Qeq_bool q 0 then Some 64
      else if Qle_bool q 0 then Some 0
      else Some (Z.to_nat (Qfloor q))
  end.

Definition cut (limit : option nat) (s : jsstring) : jsstring :=
  match limit with
  | Some n => take n s
  | None => s
  end.

(** Options that set only [truncate]. *)
Definition truncateOpts (t : number) : AnchorOpts :=
  {| icon := None; visible := None; placement := None; ariaLabel := None;
     class := None; base := None; truncate := Some t; titleText := None |}.

(** The worlds of the examples. *)
Definition introWorld : World := world (new_Anchor None) introPage.
Definition introWorld0 : World := world (new_Anchor None) introPage0.
Definition emptyHeadingWorld : World := world (new_Anchor None) emptyHeadingPage.
Definition explicitIdWorld : World := world (new_Anchor None) explicitIdPage.
Definition noHeadingWorld : World := world (new_Anchor None) noHeadingPage.
Definition emptyIdHeadingWorld : World :=
  world (new_Anchor None) emptyIdHeadingPage.

(** A manager whose [truncate] was set to 1/2 after its construction. *)
Definition halfTruncateWorld : World :=
  world {| opts := truncateOpts (Finite (1 # 2)); els := [] |} noHeadingPage.

(** ** Predicates on computations *)

(** [preserves I m]: the invariant [I] of the world survives [m], whether
    [m] returns or throws. *)
Definition preserves {A} (I : World → Prop) (m : M A) : Prop :=
  ∀ w, I w → I (snd (m w)).

(** [keepsThis m]: [m] never writes to the manager. *)
Definition keepsThis {A} (m : M A) : Prop := ∀ w, this (snd (m w)) = this w.

(** The frame of a computation that may create nodes and write to them: the
    store only grows; of its first [L] nodes, those other than [el] stay as
    they are and all keep their class. *)
Definition framedFrom (L : nat) (el : NodeId) (ns ns' : list Node) : Prop :=
  length ns ≤ length ns'
  ∧ (∀ n, n < L → n ≠ el → ns' !! n = ns !! n)
  ∧ (∀ n nd, n < L → ns !! n = Some nd →
       ∃ nd', ns' !! n = Some nd' ∧ classOf nd' = classOf nd).

(** What one turn of the scan on [el] may change in the store [ns]. *)
Definition framed (el : NodeId) (ns ns' : list Node) : Prop :=
  framedFrom (length ns) el ns ns'.

(** [frames L el m Q]: from a store of at least [L] nodes, [m] stays within
    that frame, whether it returns or throws, and its result satisfies [Q]. *)
Definition frames {A} (L : nat) (el : NodeId) (m : M A) (Q : A → Prop) : Prop :=
  ∀ w, L ≤ length (nodes (document w)) →
    framedFrom L el (nodes (document w)) (nodes (document (snd (m w))))
    ∧ ∀ a, fst (m w) = Return a → Q a.

(** ** [remove] and [removeAll] *)

(** A list without the first occurrence of [x]. *)
Fixpoint removeFirst (x : NodeId) (l : list NodeId) : list NodeId :=
  match l with
  | [] => []
  | y :: l' => if decide (y = x) then l' else y :: removeFirst x l'
  end.

(** [parent.removeChild(child)]: a NotFoundError when [child] is not a child
    of [parent]. *)
Definition removeChild (parent child : NodeId) : M unit :=
  nd ← getNode parent;
  if bool_decide (child ∈ childNodes nd)
  then updateNode parent (withChildren (removeFirst child (childNodes nd)))
  else throw (DOMException "NotFoundError").

(** [el.querySelector(sel)] on an element of a batch (a node that is not an
    element has no such method). *)
Definition elementQuerySelector `{Browser} (el : NodeId) (sel : jsstring)
  : M (option NodeId) :=
  _ ← getElement el;
  d ← getDocument;
  mret (List.head (querySelectorAll d (Some el) sel)).

(** [this.els.indexOf(el)], with [None] for -1. *)
Definition elsIndexOf (l : list NodeId) (el : NodeId) : option nat :=
  fst <$> list_find (λ y, y = el) l.

(** One turn of the [for] loop of [remove] on [elements[i]]. *)
Definition removeElement `{Browser} (el : NodeId) : M unit :=
  domAnchor ← elementQuerySelector el (str ".anchorjs-link");
  match domAnchor with
  | Some a =>
      t ← getThis;
      match elsIndexOf (els t) el with
      | Some index => setEls (delete index (els t))
      | None => mret tt
      end;;
      removeChild el a
  | None => mret tt
  end.

Fixpoint removeLoop `{Browser} (elements : list NodeId) : M unit :=
  match elements with
  | [] => mret tt
  | el :: rest => removeElement el;; removeLoop rest
  end.

Definition remove `{Browser} (selector : Selector) : M unit :=
  elements ← _getElements selector;
  removeLoop elements.

(** [removeAll]: [_getElements] copies [this.els] before the loop splices
    it. *)
Definition removeAll `{Browser} : M unit :=
  a ← getThis;
  remove (SelArray (els a)).

(** ** Predicates of the further properties *)

(** No two adjacent hyphens. *)
Fixpoint noDoubleHyphen (s : jsstring) : Prop :=
  match s with
  | [] => True
  | c :: s' => (c = HYPHEN → List.head s' ≠ Some HYPHEN) ∧ noDoubleHyphen s'
  end.


(** Nothing is taken away between the stores [ns] and [ns']: every node
    of [ns] is still there, with its kind, every attribute value it had,
    its inline style and rules, and its children in their order. *)
Definition grows (ns ns' : list Node) : Prop :=
  ∀ n nd, ns !! n = Some nd →
    ∃ nd', ns' !! n = Some nd' ∧ kind nd' = kind nd
           ∧ (∀ name v, attrGet name (attributes nd) = Some v →
                        attrGet name (attributes nd') = Some v)
           ∧ style nd' = style nd ∧ cssRules nd' = cssRules nd
           ∧ childNodes nd `sublist_of` childNodes nd'.

(** [keepsEls m]: [m] never writes to the list of managed elements. *)
Definition keepsEls {A} (m : M A) : Prop :=
  ∀ w, els (this (snd (m w))) = els (this w).

(** Is [e] a live element that [hasAnchorJSLink] finds unanchored? *)
Definition unanchoredIn (ns : list Node) (e : NodeId) : bool :=
  match anchoredIn ns e with
  | Return false => true
  | _ => false
  end.

(** The style element of [_addBaselineStyles] when it is created. *)
Definition newBaselineStyle (text : NodeId) : Node :=
  withChildren [text]
    (withAttribute "class" (str "anchorjs")
       (newNode (ElementNode (str "style")))).

(** The world in which [_addBaselineStyles] looks for the first style
    sheet: its style element and the text node of it are created. *)
Definition baselineWorld (w : World) : World :=
  let ns := nodes (document w) in
  withNodes (ns ++ [newBaselineStyle (S (length ns)); newNode (TextNode [])]) w.

(** The rules of [_addBaselineStyles], in the order of its calls. *)
Definition BASELINE_RULES : list jsstring :=
  [linkRule; hoverRule; pseudoElContent; anchorjsLinkFontFace].

(** The node [nd] at [n] after [insertRule] was called on it for each of
    [rules] in turn, the rest of the store being [ns]: a rule is added when
    the browser has given the node a sheet in the document of that call. *)
Fixpoint sheetRules `{Browser} (w : World) (ns : list Node) (n : NodeId)
    (nd : Node) (rules : list jsstring) : Node :=
  match rules with
  | [] => nd
  | rule :: rest =>
      sheetRules w ns n
        (applyIf (hasSheet (document (withNodes (<[n := nd]> ns) w)) n)
                 (withRule rule) nd)
        rest
  end.

(** The style element that [_addBaselineStyles] leaves in the store, the
    head [hd] having got the children [l]. *)
Definition baselineStyle `{Browser} (w : World) (l : list NodeId) (hd : Node)
  : Node :=
  let L := length (nodes (document w)) in
  sheetRules w
    (<[head (document w) := withChildren l hd]>
       (nodes (document (baselineWorld w))))
    L (newBaselineStyle (S L)) BASELINE_RULES.

Definition withCssRules (rules : list jsstring) (nd : Node) : Node :=
  {| kind := kind nd; attributes := attributes nd; style := style nd;
     childNodes := childNodes nd; cssRules := rules |}.

(** The document [d] with [rules] for the rules of the sheet of [n]. *)
Definition withSheetRules (d : Document) (n : NodeId) (rules : list jsstring)
  : Document :=
  {| nodes := alter (withCssRules rules) n (nodes d); head := head d;
     window := window d |}.

(** The inline opacity that [add] gives to an anchor. *)
Definition OPAQUE : string * jsstring := ("opacity"%string, str "1").

(** The value that [_applyRemainingDefaultOptions] stores in [truncate]. *)
Definition truncateDefault (t : option number) : number :=
  match t with
  | Some t => if truthyNum t then Math_floor t else Finite 64
  | None => Finite 64
  end.

(** [<html><head><div><style></style></div></head><body><h2>Intro</h2>
    </body></html>]: a style sheet below the head that is not a child of
    it. *)
Definition nestedStylePage : Document :=
  {| nodes := [ element "html" [] [1; 2];
                element "head" [] [3];
                element "body" [] [5];
                element "div" [] [4];
                element "style" [] [];
                element "h2" [] [6];
                text "Intro" ];
     head := 1; window := desktop |}.

(** [<html><head></head><body><h2>Intro</h2><h2></h2></body></html>]: a
    heading that can be anchored, followed by one without children. *)
Definition halfScannedPage : Document :=
  {| nodes := [ element "html" [] [1; 2];
                element "head" [] [];
                element "body" [] [3; 5];
                element "h2" [] [4];
                text "Intro";
                element "h2" [] [] ];
     head := 1; window := desktop |}.

Definition withEls (l : list NodeId) (w : World) : World :=
  {| this := {| opts := opts (this w); els := l |}; document := document w |}.


(** [<html><head></head><body><h2><span><a class="anchorjs-link"></a></span>
    Intro</h2></body></html>]: an anchor below a heading that is not a child
    of it. *)
Definition nestedAnchorPage : Document :=
  {| nodes := [ element "html" [] [1; 2];
                element "head" [] [];
                element "body" [] [3];
                element "h2" [] [4; 6];
                element "span" [] [5];
                element "a" [("class", str "anchorjs-link")] [];
                text "Intro" ];
     head := 1; window := desktop |}.

Definition nestedStyleWorld : World := world (new_Anchor None) nestedStylePage.
Definition halfScannedWorld : World := world (new_Anchor None) halfScannedPage.

(** A manager that tracks the heading of [nestedAnchorPage]. *)
Definition nestedAnchorWorld : World :=
  world {| opts := opts (new_Anchor None); els := [3] |} nestedAnchorPage.

(** The errors of the operations on nodes and of the type test of
    [_getElements]: a TypeError, or the NotFoundError of [insertBefore] and
    [removeChild]. *)
Definition domError (e : Error) : Prop :=
  match e with
  | TypeError _ => True
  | DOMException name => name = "NotFoundError"%string
  | FuelExhausted => False
  end.

(** [throwsOnly P m]: every error that [m] throws satisfies [P]. *)
Definition throwsOnly {A} (P : Error → Prop) (m : M A) : Prop :=
  ∀ w e, fst (m w) = Throw e → P e.

(** * Verification *)

(** ** Running computations *)

Lemma bind_run {A B} (m : M A) (f : A → M B) (w : World) :
  (m ≫= f) w = match m w with
               | (Return a, w') => f a w'
               | (Throw e, w') => (Throw e, w')
               end.
Proof. reflexivity. Qed.

Lemma bind_Return {A B} (m : M A) (f : A → M B) w a w' :
  m w = (Return a, w') → (m ≫= f) w = f a w'.
Proof. intros Hm. by rewrite bind_run, Hm. Qed.

Lemma bind_Throw {A B} (m : M A) (f : A → M B) w e w' :
  m w = (Throw e, w') → (m ≫= f) w = (Throw e, w').
Proof. intros Hm. by rewrite bind_run, Hm. Qed.

Lemma bind_Return_inv {A B} (m : M A) (f : A → M B) w b w' :
  (m ≫= f) w = (Return b, w') →
  ∃ a w1, m w = (Return a, w1) ∧ f a w1 = (Return b, w').
Proof.
  rewrite bind_run. destruct (m w) as [[a|e] w1]; [eauto | discriminate].
Qed.

(** ** Invariants of the world *)

Lemma preserves_bind {A B} I (m : M A) (f : A → M B) :
  preserves I m → (∀ a, preserves I (f a)) → preserves I (m ≫= f).
Proof.
  intros Hm Hf w Hw. rewrite bind_run. specialize (Hm w Hw).
  destruct (m w) as [[a|e] w1]; [by apply Hf | done].
Qed.

Lemma preserves_pure {A} I (m : M A) :
  (∀ w, snd (m w) = w) → preserves I m.
Proof. intros Hm w Hw. by rewrite Hm. Qed.

Lemma getNode_world n w : snd (getNode n w) = w.
Proof.
  unfold getNode. rewrite bind_run. cbn. by destruct (nodes (document w) !! n).
Qed.

Lemma getElement_world n w : snd (getElement n w) = w.
Proof.
  unfold getElement. rewrite bind_run.
  pose proof (getNode_world n w) as Hn.
  destruct (getNode n w) as [[nd|e] w1]; cbn in Hn; subst; [|done].
  by destruct (isElement nd).
Qed.

(** ** Equations of the DOM primitives *)

Section primitives.
Context (w : World).
Local Abbreviation ns := (nodes (document w)).

Lemma getNode_Some n nd : ns !! n = Some nd → getNode n w = (Return nd, w).
Proof. intros Hn. unfold getNode. rewrite bind_run. cbn. by rewrite Hn. Qed.

Lemma getNode_None n : ns !! n = None → getNode n w = (Throw NULL_ERROR, w).
Proof. intros Hn. unfold getNode. rewrite bind_run. cbn. by rewrite Hn. Qed.

Lemma getElement_Some n nd :
  ns !! n = Some nd → isElement nd = true → getElement n w = (Return nd, w).
Proof.
  intros Hn He. unfold getElement.
  rewrite (bind_Return _ _ _ _ _ (getNode_Some n nd Hn)). by rewrite He.
Qed.

Lemma updateNode_Some n nd f :
  ns !! n = Some nd →
  updateNode n f w = (Return tt, withNodes (<[n := f nd]> ns) w).
Proof.
  intros Hn. unfold updateNode.
  by rewrite (bind_Return _ _ _ _ _ (getNode_Some n nd Hn)).
Qed.

Lemma setAttribute_Some n nd name v :
  ns !! n = Some nd → isElement nd = true →
  setAttribute n name v w
  = (Return tt, withNodes (<[n := withAttribute name v nd]> ns) w).
Proof.
  intros Hn He. unfold setAttribute.
  rewrite (bind_Return _ _ _ _ _ (getElement_Some n nd Hn He)).
  by apply updateNode_Some.
Qed.

Lemma hasAttribute_Some n nd name :
  ns !! n = Some nd → isElement nd = true →
  hasAttribute n name w
  = (Return (bool_decide (is_Some (attrGet name (attributes nd)))), w).
Proof.
  intros Hn He. unfold hasAttribute.
  by rewrite (bind_Return _ _ _ _ _ (getElement_Some n nd Hn He)).
Qed.

Lemma getAttribute_Some n nd name :
  ns !! n = Some nd → isElement nd = true →
  getAttribute n name w = (Return (attrGet name (attributes nd)), w).
Proof.
  intros Hn He. unfold getAttribute.
  by rewrite (bind_Return _ _ _ _ _ (getElement_Some n nd Hn He)).
Qed.

Lemma createNode_eq k :
  createNode k w = (Return (length ns), withNodes (ns ++ [newNode k]) w).
Proof. reflexivity. Qed.

Lemma firstChild_Some n nd :
  ns !! n = Some nd → firstChild n w = (Return (List.head (childNodes nd)), w).
Proof.
  intros Hn. unfold firstChild.
  by rewrite (bind_Return _ _ _ _ _ (getNode_Some n nd Hn)).
Qed.

Lemma lastChild_Some n nd :
  ns !! n = Some nd → lastChild n w = (Return (last (childNodes nd)), w).
Proof.
  intros Hn. unfold lastChild.
  by rewrite (bind_Return _ _ _ _ _ (getNode_Some n nd Hn)).
Qed.

Lemma className_Some c nd :
  ns !! c = Some nd → className (Some c) w = (Return (classOf nd), w).
Proof.
  intros Hn. unfold className.
  by rewrite (bind_Return _ _ _ _ _ (getNode_Some c nd Hn)).
Qed.

Lemma textContent_Some n nd :
  ns !! n = Some nd →
  textContent n w = (Return (textContentFrom (length ns) ns n), w).
Proof.
  intros Hn. unfold textContent.
  by rewrite (bind_Return _ _ _ _ _ (getNode_Some n nd Hn)).
Qed.

(** [hasAnchorJSLink] reads the store and leaves the world as it is. *)
Lemma hasAnchorJSLink_eq el : hasAnchorJSLink el w = (anchoredIn ns el, w).
Proof.
  unfold hasAnchorJSLink, anchoredIn.
  destruct (ns !! el) as [nd|] eqn:Hel.
  2:{ apply bind_Throw. unfold firstChild. apply bind_Throw.
      by apply getNode_None. }
  rewrite (bind_Return _ _ _ _ _ (firstChild_Some el nd Hel)).
  destruct (List.head (childNodes nd)) as [fc|] eqn:Hfc.
  2:{ by destruct (last (childNodes nd)). }
  destruct (ns !! fc) as [fnd|] eqn:Hfnd.
  2:{ rewrite (bind_Throw _ _ _ NULL_ERROR w).
      - by destruct (last (childNodes nd)); [destruct (ns !! _)|].
      - unfold className. apply bind_Throw. by apply getNode_None. }
  rewrite (bind_Return _ _ _ _ _ (className_Some fc fnd Hfnd)).
  rewrite (bind_Return _ _ _ _ _ (lastChild_Some el nd Hel)).
  destruct (last (childNodes nd)) as [lc|] eqn:Hlc; [|done].
  destruct (ns !! lc) as [lnd|] eqn:Hlnd.
  2:{ apply bind_Throw. unfold className. apply bind_Throw.
      by apply getNode_None. }
  by rewrite (bind_Return _ _ _ _ _ (className_Some lc lnd Hlnd)).
Qed.
End primitives.

Section browser.
Context `{Browser}.

Lemma urlify_eq text w :
  urlify text w =
  let w' := if truthyOptNum (truncate (opts (this w))) then w
            else withOpts (_applyRemainingDefaultOptions (opts (this w))) w in
  (Return (toLowerCase (tidy (decodeEntities text)
                             (truncate (opts (this w'))))), w').
Proof.
  unfold urlify. rewrite bind_run. cbn.
  by destruct (truthyOptNum (truncate (opts (this w)))).
Qed.

Lemma querySelector_document sel w :
  querySelector None sel w
  = (Return (List.head (querySelectorAll (document w) None sel)), w).
Proof. reflexivity. Qed.

Lemma _getElements_eq input w :
  _getElements input w
  = (match input with
     | SelString s =>
         if validSelector s then Return (querySelectorAll (document w) None s)
         else Throw SYNTAX_ERROR
     | SelArray l | SelNodeList l => Return l
     | SelOther =>
         Throw (TypeError "The selector provided to AnchorJS was invalid.")
     end, w).
Proof.
  destruct input as [s| | |]; try done.
  unfold _getElements. rewrite bind_run. cbn [getDocument].
  by destruct (validSelector s).
Qed.
End browser.

(** ** What the operations do to the manager *)

Lemma keepsThis_bind {A B} (m : M A) (f : A → M B) :
  keepsThis m → (∀ a, keepsThis (f a)) → keepsThis (m ≫= f).
Proof.
  intros Hm Hf w. rewrite bind_run. specialize (Hm w).
  destruct (m w) as [[a|e] w1]; cbn in *; [|done].
  by rewrite Hf.
Qed.

Lemma keepsThis_pure {A} (m : M A) : (∀ w, snd (m w) = w) → keepsThis m.
Proof. intros Hm w. by rewrite Hm. Qed.

Lemma keepsThis_when b (m : M unit) : keepsThis m → keepsThis (when b m).
Proof. by destruct b. Qed.

Lemma keepsThis_getNode n : keepsThis (getNode n).
Proof. apply keepsThis_pure, getNode_world. Qed.

Lemma keepsThis_getElement n : keepsThis (getElement n).
Proof. apply keepsThis_pure, getElement_world. Qed.

Lemma keepsThis_updateNode n f : keepsThis (updateNode n f).
Proof.
  apply keepsThis_bind; [apply keepsThis_getNode | done].
Qed.

Create HintDb keeps discriminated.

#[local] Hint Resolve keepsThis_getNode keepsThis_getElement
  keepsThis_updateNode keepsThis_when : keeps.

Ltac keeps_this :=
  repeat first
    [ progress eauto with keeps
    | apply keepsThis_bind; [|intros ?]
    | apply keepsThis_when
    | match goal with
      | |- keepsThis (if ?b then _ else _) => destruct b
      | |- keepsThis (match ?x with _ => _ end) => destruct x
      end
    | (intros ?; reflexivity) ].

Lemma keepsThis_setAttribute el name v : keepsThis (setAttribute el name v).
Proof. unfold setAttribute. keeps_this. Qed.

Lemma keepsThis_setStyle n prop v : keepsThis (setStyle n prop v).
Proof. unfold setStyle. keeps_this. Qed.

Lemma keepsThis_insertRule `{Browser} n rule : keepsThis (insertRule n rule).
Proof. unfold insertRule. keeps_this. Qed.

Lemma keepsThis_appendChild parent child : keepsThis (appendChild parent child).
Proof. unfold appendChild. keeps_this. Qed.

Lemma keepsThis_insertBefore parent new ref :
  keepsThis (insertBefore parent new ref).
Proof. unfold insertBefore, appendChild. keeps_this. Qed.

Lemma keepsThis_createNode k : keepsThis (createNode k).
Proof. by intros w. Qed.

Lemma keepsThis_hasAttribute el name : keepsThis (hasAttribute el name).
Proof. unfold hasAttribute. keeps_this. Qed.

Lemma keepsThis_getAttribute el name : keepsThis (getAttribute el name).
Proof. unfold getAttribute. keeps_this. Qed.

Lemma keepsThis_firstChild n : keepsThis (firstChild n).
Proof. unfold firstChild. keeps_this. Qed.

Lemma keepsThis_textContent n : keepsThis (textContent n).
Proof. unfold textContent. keeps_this. Qed.

Lemma keepsThis_hasAnchorJSLink el : keepsThis (hasAnchorJSLink el).
Proof. intros w. by rewrite hasAnchorJSLink_eq. Qed.

#[local] Hint Resolve keepsThis_setAttribute keepsThis_setStyle
  keepsThis_insertRule keepsThis_appendChild keepsThis_insertBefore
  keepsThis_createNode keepsThis_hasAttribute keepsThis_getAttribute
  keepsThis_firstChild keepsThis_textContent keepsThis_hasAnchorJSLink : keeps.

Lemma keepsThis_placeAnchor el anchor : keepsThis (placeAnchor el anchor).
Proof. unfold placeAnchor. keeps_this. Qed.

Section manager.
Context `{Browser}.

Lemma keepsThis_querySelector scope sel : keepsThis (querySelector scope sel).
Proof. unfold querySelector. keeps_this. Qed.

Lemma keepsThis_buildAnchor elementID : keepsThis (buildAnchor elementID).
Proof.
  unfold buildAnchor, createElement, isTouchDevice.
  pose proof keepsThis_querySelector. keeps_this.
Qed.

Lemma keepsThis_addBaselineStyles : keepsThis _addBaselineStyles.
Proof.
  unfold _addBaselineStyles, createElement, createTextNode.
  pose proof keepsThis_querySelector. keeps_this.
Qed.

Lemma keepsThis_getElements input : keepsThis (_getElements input).
Proof. intros w. by rewrite _getElements_eq. Qed.

(** An invariant of the options that survives defaulting survives every
    operation of the manager. *)
Section options_invariant.
Variable P : AnchorOpts → Prop.
Hypothesis P_default : ∀ o, P o → P (_applyRemainingDefaultOptions o).

Let I (w : World) : Prop := P (opts (this w)).

Lemma preserves_keepsThis {A} (m : M A) : keepsThis m → preserves I m.
Proof. intros Hm w Hw. unfold I. by rewrite Hm. Qed.

Lemma preserves_urlify text : preserves I (urlify text).
Proof.
  intros w Hw. rewrite urlify_eq. cbn.
  destruct (truthyOptNum _); [done | by apply P_default].
Qed.

Lemma preserves_generateId el idList : preserves I (generateId el idList).
Proof.
  unfold generateId.
  apply preserves_bind; [apply preserves_keepsThis; eauto with keeps|].
  intros text. apply preserves_bind; [apply preserves_urlify|].
  intros tidyText. apply preserves_keepsThis. keeps_this.
Qed.

Lemma preserves_determineId el idList : preserves I (determineId el idList).
Proof.
  unfold determineId.
  apply preserves_bind; [apply preserves_keepsThis; eauto with keeps|].
  intros [].
  { apply preserves_keepsThis. keeps_this. }
  apply preserves_bind; [apply preserves_keepsThis; eauto with keeps|].
  intros [].
  { apply preserves_keepsThis. keeps_this. }
  apply preserves_bind; [apply preserves_generateId|].
  intros r. by apply preserves_pure.
Qed.

Lemma preserves_addElement el i st : preserves I (addElement el i st).
Proof.
  unfold addElement. destruct st as [idList indexesToDrop].
  apply preserves_bind; [apply preserves_keepsThis; eauto with keeps|].
  intros [].
  { by apply preserves_pure. }
  apply preserves_bind; [apply preserves_determineId|].
  intros r. apply preserves_keepsThis.
  pose proof keepsThis_buildAnchor. pose proof keepsThis_placeAnchor.
  keeps_this.
Qed.

Lemma preserves_addLoop elements i st : preserves I (addLoop elements i st).
Proof.
  revert i st. induction elements as [|el rest IH]; intros i st.
  { by apply preserves_pure. }
  cbn. apply preserves_bind; [apply preserves_addElement | by intros st'].
Qed.

Lemma preserves_add selector : preserves I (add selector).
Proof.
  intros w Hw. unfold add. rewrite bind_run. cbn [getThis].
  rewrite bind_run. cbn [setOpts].
  apply (preserves_bind I (_getElements (selectorOrDefault selector))).
  - apply preserves_keepsThis, keepsThis_getElements.
  - intros elements. case_bool_decide; [by apply preserves_pure|].
    apply preserves_bind;
      [apply preserves_keepsThis, keepsThis_addBaselineStyles|].
    intros _. apply preserves_bind; [by apply preserves_pure|].
    intros d. apply preserves_bind; [apply preserves_addLoop|].
    by intros st w1 Hw1.
  - by apply P_default.
Qed.
End options_invariant.
End manager.

(** ** Option defaults *)

(** C9: the default visibility depends on how the manager is created:
    [new Anchor()] takes the constructor's default parameter and is
    ['always'] visible; an explicit options object without [visible], and
    the function [anchor()] (which passes the literal [{}]) both before and
    after its scan, get ['hover'] from the defaulting routine. *)
Theorem default_visibility_by_construction :
  visible (opts (new_Anchor None)) = Some always
  ∧ (∀ o, visible o = None → visible (opts (new_Anchor (Some o))) = Some hover)
  ∧ (∀ (B : Browser) (d : Document),
       visible (opts (this (snd (anchor None d)))) = Some hover).
Proof.
  split; [reflexivity|]. split.
  - intros o Ho. cbn. by rewrite Ho.
  - intros B d. unfold anchor.
    apply (preserves_add (λ o, visible o = Some hover)); [|reflexivity].
    intros o Ho. cbn. by rewrite Ho.
Qed.


(** ** The already-anchored predicate *)

(** C5: on an element without children [hasAnchorJSLink] throws a TypeError
    (it reads [className] of the [null] first child before its guard); in
    every case it leaves the world as it is. *)
Theorem hasAnchorJSLink_without_children (w : World) (el : NodeId) (nd : Node) :
  nodes (document w) !! el = Some nd → childNodes nd = [] →
  hasAnchorJSLink el w = (Throw NULL_ERROR, w)
  ∧ ∀ el', snd (hasAnchorJSLink el' w) = w.
Proof.
  intros Hel Hnd. split; [|intros el'; by rewrite hasAnchorJSLink_eq].
  rewrite hasAnchorJSLink_eq. unfold anchoredIn. by rewrite Hel, Hnd.
Qed.

(** C6: the scan of a page whose heading has no text, and so no children,
    does not assign the empty slug: it throws the TypeError of
    [hasAnchorJSLink], and the heading gets no identifier. *)
Theorem scan_of_empty_heading_throws :
  let r := add (H := asciiBrowser) None (emptyHeadingWorld) in
  fst r = Throw NULL_ERROR
  ∧ (nd ← nodes (document (snd r)) !! 3; attrGet "id" (attributes nd)) = None.
Proof. by vm_compute. Qed.

(** ** Scans that match nothing *)

(** C8: when the input of [add] resolves to no element, [add] returns at
    once: the options are defaulted, and the document (identifiers, anchor
    nodes, style block) and the managed elements are as before. *)
Theorem add_without_elements (B : Browser) (selector : option Selector) (w : World) :
  fst (_getElements (selectorOrDefault selector) w) = Return [] →
  add selector w
  = (Return tt, withOpts (_applyRemainingDefaultOptions (opts (this w))) w)
  ∧ document (snd (add selector w)) = document w
  ∧ els (this (snd (add selector w))) = els (this w).
Proof.
  intros Hsel.
  assert (add selector w
    = (Return tt, withOpts (_applyRemainingDefaultOptions (opts (this w))) w))
    as ->; [|done].
  unfold add. rewrite bind_run. cbn [getThis]. rewrite bind_run. cbn [setOpts].
  rewrite bind_run, _getElements_eq. rewrite _getElements_eq in Hsel.
  cbn in Hsel |- *. by rewrite Hsel.
Qed.

(** ** Truncation of the slug *)

Lemma clampIndex_integer (len : nat) (z : Z) :
  clampIndex len (Finite (inject_Z z))
  = Z.to_nat (Z.min (Z.max z 0) (Z.of_nat len)).
Proof.
  unfold clampIndex.
  destruct (Qle_bool 0 (inject_Z z)); [by rewrite Qfloor_Z | by rewrite Qceiling_Z].
Qed.

Lemma substring_from_0 (s : jsstring) (e : number) :
  substring s (Finite 0) (Some e) = take (clampIndex (length s) e) s.
Proof.
  unfold substring.
  change (Finite 0) with (Finite (inject_Z 0)). rewrite clampIndex_integer.
  replace (Z.to_nat (Z.min (Z.max 0 0) (Z.of_nat (length s)))) with 0 by lia.
  cbn [Nat.min Nat.max drop]. by rewrite Nat.sub_0_r.
Qed.

Lemma take_clamp (s : jsstring) (z : Z) :
  take (Z.to_nat (Z.min (Z.max z 0) (Z.of_nat (length s)))) s
  = take (Z.to_nat z) s.
Proof.
  destruct (decide (Z.of_nat (length s) ≤ z)%Z) as [Hz|Hz].
  - rewrite !firstn_all2 by lia. done.
  - f_equal. lia.
Qed.

Lemma stripHyphensFrom_length (b : bool) (s : jsstring) :
  length (stripHyphensFrom b s) ≤ length s.
Proof.
  revert b. induction s as [|c s IH]; intros b; cbn; [lia|].
  case_bool_decide.
  - destruct (b || runEndsLine s); cbn; [specialize (IH b) | specialize (IH false)]; lia.
  - cbn. specialize (IH (isLineTerminator c)). lia.
Qed.

Lemma cut_length (limit : option nat) (s : jsstring) (n : nat) :
  limit = Some n → length (stripHyphens (cut limit s)) ≤ n.
Proof.
  intros ->. cbn. unfold stripHyphens.
  etrans; [apply stripHyphensFrom_length|]. rewrite length_take. lia.
Qed.

Lemma Qfloor_pos_iff (q : Q) : (1 ≤ Qfloor q)%Z ↔ (1 <= q)%Q.
Proof.
  split; intros Hq.
  - eapply Qle_trans; [|apply Qfloor_le].
    change 1%Q with (inject_Z 1). by rewrite <- Zle_Qle.
  - change 1%Z with (Qfloor (inject_Z 1)). by apply Qfloor_resp_le.
Qed.

Lemma Qfloor_neg (q : Q) : (q < 0)%Q → (Qfloor q < 0)%Z.
Proof.
  intros Hq. apply Z.nle_gt. intros Hz.
  apply (Qlt_not_le _ _ Hq). eapply Qle_trans; [|apply Qfloor_le].
  change 0%Q with (inject_Z 0). by rewrite <- Zle_Qle.
Qed.

Lemma Qfloor_unit (q : Q) : (0 <= q)%Q → ¬ (1 <= q)%Q → Qfloor q = 0%Z.
Proof.
  intros H0 H1. apply Z.le_antisymm.
  - apply Z.nlt_ge. intros Hz. apply H1, Qfloor_pos_iff. lia.
  - change 0%Z with (Qfloor (inject_Z 0)). by apply Qfloor_resp_le.
Qed.

Lemma truthyNum_integer (z : Z) :
  truthyNum (Finite (inject_Z z)) = negb (bool_decide (z = 0%Z)).
Proof.
  unfold truthyNum, Qeq_bool. cbn. rewrite Z.mul_1_r. f_equal.
  change (0 * 1)%Z with 0%Z.
  case_bool_decide; destruct (Z.eqb_spec z 0); done.
Qed.

(** The value of [truncate] that the constructor stores. *)
Lemma truncate_default (o : AnchorOpts) :
  truncate (_applyRemainingDefaultOptions o)
  = Some (match truncate o with
          | Some t => if truthyNum t then Math_floor t else Finite 64
          | None => Finite 64
          end).
Proof. reflexivity. Qed.

(** The cut made with the stored value, re-defaulted by [urlify] when it is
    falsy. *)
Lemma effective_cut (t : option number) (h : jsstring) :
  let stored := match t with
                | Some t => if truthyNum t then Math_floor t else Finite 64
                | None => Finite 64
                end in
  let used := if truthyNum stored then stored
              else if truthyNum stored then Math_floor stored else Finite 64 in
  substring h (Finite 0) (Some used) = cut (effectiveMaxLength t) h.
Proof.
  cbn zeta. rewrite substring_from_0.
  assert (take (clampIndex (length h) (Finite 64)) h = take 64 h) as H64.
  { change (Finite 64) with (Finite (inject_Z 64)).
    by rewrite clampIndex_integer, take_clamp. }
  destruct t as [[q| | |]|]; try exact H64.
  2:{ cbn. apply firstn_all. }
  2:{ done. }
  unfold effectiveMaxLength.
  change (truthyNum (Finite q)) with (negb (Qeq_bool q 0)).
  destruct (Qeq_bool q 0) eqn:Hq0; [exact H64|].
  cbn [negb Math_floor]. rewrite truthyNum_integer.
  assert (¬ (q == 0)%Q) as Hne.
  { intros Hq. apply Qeq_bool_iff in Hq. congruence. }
  destruct (Qle_bool q 0) eqn:Hle.
  - apply Qle_bool_iff in Hle.
    assert (q < 0)%Q as Hlt.
    { apply Qle_lteq in Hle as [?|?]; [done | by destruct Hne]. }
    apply Qfloor_neg in Hlt.
    case_bool_decide; [lia|]. cbn [negb cut].
    rewrite clampIndex_integer, take_clamp.
    by replace (Z.to_nat (Qfloor q)) with 0 by lia.
  - assert (0 <= q)%Q as Hpos.
    { apply Qlt_le_weak, Qnot_le_lt. intros Hq. apply Qle_bool_iff in Hq.
      congruence. }
    destruct (Qle_bool 1 q) eqn:H1.
    + apply Qle_bool_iff, Qfloor_pos_iff in H1.
      case_bool_decide; [lia|]. cbn [negb cut].
      by rewrite clampIndex_integer, take_clamp.
    + rewrite (Qfloor_unit q Hpos).
      2:{ intros Hq. apply Qle_bool_iff in Hq. congruence. }
      exact H64.
Qed.

(** The slug that a manager constructed on [o] computes. *)
Lemma urlify_constructed (B : Browser) (o : option AnchorOpts) (d : Document)
    (text : jsstring) :
  fst (urlify text (world (new_Anchor o) d))
  = Return (toLowerCase (stripHyphens
      (cut (effectiveMaxLength (truncate (default constructorDefault o)))
           (hyphenated text)))).
Proof.
  rewrite urlify_eq. unfold hyphenated, tidy, new_Anchor, world.
  generalize (default constructorDefault o). clear o. intros o.
  cbn [this opts fst]. rewrite <- (effective_cut (truncate o)).
  rewrite truncate_default. cbn [truthyOptNum].
  destruct (truthyNum _) eqn:Hstored; cbn [this opts withOpts]; [done|].
  rewrite truncate_default, truncate_default. by rewrite Hstored.
Qed.

Lemma Qinteger_eq_bool (z : Z) :
  Qeq_bool (inject_Z z) 0 = bool_decide (z = 0%Z).
Proof.
  unfold Qeq_bool. cbn. rewrite Z.mul_1_r. change (0 * 1)%Z with 0%Z.
  case_bool_decide; destruct (Z.eqb_spec z 0); done.
Qed.

Lemma Qinteger_le_bool (z : Z) :
  Qle_bool (inject_Z z) 0 = bool_decide (z ≤ 0)%Z.
Proof.
  unfold Qle_bool. cbn. rewrite Z.mul_1_r. change (0 * 1)%Z with 0%Z.
  case_bool_decide; destruct (Z.leb_spec z 0); try done; lia.
Qed.

(** On an integer, the two cuts are the same. *)
Lemma maxLength_integer (z : Z) :
  usedMaxLength (Some (Finite (inject_Z z)))
  = effectiveMaxLength (Some (Finite (inject_Z z))).
Proof.
  unfold usedMaxLength, effectiveMaxLength.
  rewrite Qinteger_eq_bool, Qinteger_le_bool.
  case_bool_decide; [done|]. case_bool_decide; [done|].
  rewrite Qfloor_Z.
  destruct (Qle_bool 1 (inject_Z z)) eqn:H1; [done|].
  assert (¬ (1 <= inject_Z z)%Q) as Hlt.
  { intros Hle%Qle_bool_iff. congruence. }
  destruct Hlt. change 1%Q with (inject_Z 1). rewrite <- Zle_Qle. lia.
Qed.

(** The cut for the value that a defaulting stores is the cut that a
    manager constructed with the value applies. *)
Lemma maxLength_default (t : option number) :
  usedMaxLength (Some (truncateDefault t)) = effectiveMaxLength t
  ∧ effectiveMaxLength (Some (truncateDefault t)) = effectiveMaxLength t.
Proof.
  assert (usedMaxLength (Some (truncateDefault t))
          = effectiveMaxLength (Some (truncateDefault t))) as Hsame.
  { destruct t as [[q| | |]|]; try done.
    unfold truncateDefault. destruct (truthyNum (Finite q)).
    - apply maxLength_integer.
    - apply (maxLength_integer 64). }
  assert (effectiveMaxLength (Some (truncateDefault t)) = effectiveMaxLength t)
    as Heff.
  { destruct t as [[q| | |]|]; try done.
    unfold truncateDefault, truthyNum, Math_floor.
    unfold effectiveMaxLength at 2.
    destruct (Qeq_bool q 0) eqn:Hq0; cbn [negb]; [done|].
    rewrite <- maxLength_integer. unfold usedMaxLength.
    rewrite Qinteger_eq_bool, Qinteger_le_bool, Qfloor_Z.
    assert (¬ (q == 0)%Q) as Hne.
    { intros Hq. apply Qeq_bool_iff in Hq. congruence. }
    destruct (Qle_bool q 0) eqn:Hle.
    - apply Qle_bool_iff in Hle.
      assert (q < 0)%Q as Hlt.
      { apply Qle_lteq in Hle as [?|?]; [done | by destruct Hne]. }
      apply Qfloor_neg in Hlt.
      by rewrite bool_decide_false, bool_decide_true by lia.
    - assert (0 <= q)%Q as Hpos.
      { apply Qlt_le_weak, Qnot_le_lt. intros Hq. apply Qle_bool_iff in Hq.
        congruence. }
      destruct (Qle_bool 1 q) eqn:H1.
      + apply Qle_bool_iff, Qfloor_pos_iff in H1.
        by rewrite !bool_decide_false by lia.
      + rewrite (Qfloor_unit q Hpos); [done|].
        intros Hq. apply Qle_bool_iff in Hq. congruence. }
  split; [by rewrite Hsame | done].
Qed.

Lemma Qceiling_neg (q : Q) : (q <= 0)%Q → (Qceiling q ≤ 0)%Z.
Proof.
  intros Hq. unfold Qceiling.
  assert (0 ≤ Qfloor (- q))%Z; [|lia].
  change 0%Z with (Qfloor (inject_Z 0)). apply Qfloor_resp_le.
  change (inject_Z 0) with (- 0)%Q. by apply Qopp_le_compat.
Qed.

(** The cut made with the value that [urlify] finds, defaulted when it is
    falsy. *)
Lemma used_cut (t : option number) (h : jsstring) :
  substring h (Finite 0) (if truthyOptNum t then t else Some (Finite 64))
  = cut (usedMaxLength t) h.
Proof.
  assert (substring h (Finite 0) (Some (Finite 64)) = take 64 h) as H64.
  { rewrite substring_from_0. change (Finite 64) with (Finite (inject_Z 64)).
    by rewrite clampIndex_integer, take_clamp. }
  destruct t as [[q| | |]|]; try exact H64.
  2:{ cbn [truthyOptNum truthyNum]. rewrite substring_from_0. cbn.
      apply firstn_all. }
  2:{ cbn [truthyOptNum truthyNum]. by rewrite substring_from_0. }
  cbn [truthyOptNum truthyNum usedMaxLength].
  destruct (Qeq_bool q 0) eqn:Hq0; [exact H64|]. cbn [negb].
  rewrite substring_from_0.
  assert (¬ (q == 0)%Q) as Hne.
  { intros Hq. apply Qeq_bool_iff in Hq. congruence. }
  unfold clampIndex. destruct (Qle_bool q 0) eqn:Hle.
  - apply Qle_bool_iff in Hle.
    assert (Qle_bool 0 q = false) as ->.
    { apply not_true_is_false. intros Hq%Qle_bool_iff.
      apply Hne. by apply Qle_antisym. }
    apply Qceiling_neg in Hle. cbn [cut].
    by replace (Z.to_nat (Z.min (Z.max (Qceiling q) 0)
                            (Z.of_nat (length h)))) with 0 by lia.
  - assert (Qle_bool 0 q = true) as ->.
    { apply Qle_bool_iff, Qlt_le_weak, Qnot_le_lt. intros Hq%Qle_bool_iff.
      congruence. }
    cbn [cut]. apply take_clamp.
Qed.

(** The slug that [urlify] computes in any world. *)
Lemma urlify_used (B : Browser) (text : jsstring) (w : World) :
  fst (urlify text w)
  = Return (toLowerCase (stripHyphens
      (cut (usedMaxLength (truncate (opts (this w)))) (hyphenated text)))).
Proof.
  rewrite urlify_eq. unfold hyphenated, tidy. cbn [fst].
  rewrite <- used_cut. do 4 f_equal.
  destruct (truthyOptNum (truncate (opts (this w)))) eqn:Ht; [done|].
  cbn [withOpts this opts]. rewrite truncate_default. f_equal.
  destruct (truncate (opts (this w))) as [t|]; [|done].
  cbn [truthyOptNum] in Ht. by rewrite Ht.
Qed.

Lemma kept_length (limit : option nat) (s : jsstring) :
  match limit with
  | Some n => length (stripHyphens (cut limit s)) ≤ n
  | None => length (stripHyphens (cut limit s)) ≤ length s
  end.
Proof.
  destruct limit as [n|]; [by eapply cut_length | apply stripHyphensFrom_length].
Qed.

(** C4, as amended: whatever value [urlify] finds in [truncate] (set at
    construction or later), it cuts the hyphenated text to 64 code units
    when the value is missing, zero or NaN, to the integer part of the
    value when it is positive, to nothing when it is negative, and not at
    all when it is +Infinity; what remains after stripping dangling
    hyphens is no longer than that cut.  Once
    [_applyRemainingDefaultOptions] has run on the value (as in the
    constructor and at the start of every [add]) the cut is the same but
    for a value strictly between 0 and 1, which that call floors to zero
    and [urlify] then replaces by 64, where [urlify] called on the value
    itself cuts to nothing; a further defaulting does not change the
    cut. *)
Theorem urlify_truncates (B : Browser) (text : jsstring) (w : World) :
  let t := truncate (opts (this w)) in
  let kept limit := stripHyphens (cut limit (hyphenated text)) in
  let bounded limit :=
    match limit with
    | Some n => length (kept limit) ≤ n
    | None => length (kept limit) ≤ length (hyphenated text)
    end in
  fst (urlify text w) = Return (toLowerCase (kept (usedMaxLength t)))
  ∧ bounded (usedMaxLength t)
  ∧ fst (urlify text
           (withOpts (_applyRemainingDefaultOptions (opts (this w))) w))
    = Return (toLowerCase (kept (effectiveMaxLength t)))
  ∧ bounded (effectiveMaxLength t)
  ∧ effectiveMaxLength (truncate (_applyRemainingDefaultOptions (opts (this w))))
    = effectiveMaxLength t
  ∧ ∀ o d,
      fst (urlify text (world (new_Anchor o) d))
      = Return (toLowerCase
          (stripHyphens
             (cut (effectiveMaxLength (truncate (default constructorDefault o)))
                  (hyphenated text)))).
Proof.
  cbn zeta. split; [apply urlify_used|]. split; [apply kept_length|].
  split.
  { rewrite urlify_used. cbn [withOpts this opts].
    change (truncate (_applyRemainingDefaultOptions (opts (this w))))
      with (Some (truncateDefault (truncate (opts (this w))))).
    by rewrite (proj1 (maxLength_default (truncate (opts (this w))))). }
  split; [apply kept_length|].
  split.
  { change (truncate (_applyRemainingDefaultOptions (opts (this w))))
      with (Some (truncateDefault (truncate (opts (this w))))).
    apply (proj2 (maxLength_default (truncate (opts (this w))))). }
  intros o d. apply urlify_constructed.
Qed.

(** C4, as stated, fails: with [truncate: -3] the specification's fall-back
    to 64 would keep [hello], and the code returns the empty slug. *)
Lemma negative_truncate_is_no_fallback :
  specMaxLength (Some (Finite (-3))) = 64
  ∧ fst (urlify (H := asciiBrowser) (str "hello")
           (world (new_Anchor (Some (truncateOpts (Finite (-3)))))
                  noHeadingPage))
    = Return []
  ∧ fst (urlify (H := asciiBrowser) (str "hello")
           (world (new_Anchor (Some (truncateOpts (Finite (-3)))))
                  noHeadingPage))
    ≠ Return (@toLowerCase asciiBrowser
        (stripHyphens (take (specMaxLength (Some (Finite (-3))))
                            (hyphenated (H := asciiBrowser) (str "hello"))))).
Proof. by vm_compute. Qed.

(** ** The collision loop *)

Lemma arrayIndexOfFrom_spec (x : jsstring) (l : list jsstring) (pos : Z) :
  (0 ≤ pos)%Z →
  (x ∈ l → (pos ≤ arrayIndexOfFrom x l pos)%Z)
  ∧ (x ∉ l → arrayIndexOfFrom x l pos = (-1)%Z).
Proof.
  revert pos. induction l as [|y l IH]; intros pos Hpos; cbn.
  { split; [by intros ?%elem_of_nil | done]. }
  destruct (decide (y = x)) as [->|Hne].
  - split; [lia | intros []; left].
  - assert (0 ≤ pos + 1)%Z as Hpos' by lia.
    destruct (IH _ Hpos') as [IH1 IH2]. split.
    + intros [?|Hx]%elem_of_cons; [done|]. specialize (IH1 Hx). lia.
    + intros Hx. apply IH2. intros ?. apply Hx. by right.
Qed.

(** [idList.indexOf(x) !== -1] is membership. *)
Lemma arrayIndexOf_found (l : list jsstring) (x : jsstring) :
  arrayIndexOf l x ≠ (-1)%Z ↔ x ∈ l.
Proof.
  unfold arrayIndexOf.
  destruct (arrayIndexOfFrom_spec x l 0 (Z.le_refl 0)) as [H1 H2].
  destruct (decide (x ∈ l)) as [Hx|Hx]; split; try done.
  - intros _. specialize (H1 Hx). lia.
  - intros Hne. by destruct Hne; apply H2.
Qed.

Lemma str_inj : Inj (=) (=) str.
Proof.
  intros s. induction s as [|c s IH]; intros [|c' s'] Heq; cbn in Heq;
    try done.
  injection Heq as Hc Hs. f_equal; [|by apply IH].
  rewrite <- (Ascii.ascii_N_embedding c), <- (Ascii.ascii_N_embedding c').
  by rewrite Hc.
Qed.

Lemma candidate_inj (tidyText : jsstring) : Inj (=) (=) (candidate tidyText).
Proof.
  intros n m Heq. unfold candidate, numToString in Heq.
  do 2 apply app_inv_head in Heq.
  by apply (inj pretty), str_inj.
Qed.

Lemma candidate_ne (tidyText : jsstring) (n : nat) :
  candidate tidyText n ≠ tidyText.
Proof.
  intros Heq. apply (f_equal length) in Heq.
  unfold candidate in Heq. rewrite !length_app in Heq. cbn in Heq. lia.
Qed.

(** After its first turn the loop tries the candidates in order. *)
Lemma collisionLoop_steady (fuel : nat) (idList : list jsstring)
    (tidyText cur : jsstring) (count : nat) (ix : Z) :
  match collisionLoop fuel idList tidyText cur count (Some ix) with
  | Some r =>
      ∃ n, count ≤ n < count + fuel ∧ r = candidate tidyText n ∧ (r ∉ idList)
           ∧ ∀ k, count ≤ k < n → candidate tidyText k ∈ idList
  | None => ∀ k, count ≤ k < count + fuel → candidate tidyText k ∈ idList
  end.
Proof.
  revert cur count ix. induction fuel as [|fuel IH]; intros cur count ix.
  { cbn. intros k ?. lia. }
  cbn [collisionLoop]. fold (candidate tidyText count).
  destruct (decide (arrayIndexOf idList (candidate tidyText count) ≠ (-1)%Z))
    as [Hin|Hout].
  - apply arrayIndexOf_found in Hin.
    specialize (IH (candidate tidyText count) (count + 1)
                   (arrayIndexOf idList (candidate tidyText count))).
    destruct (collisionLoop fuel _ _ _ _ _) as [r|].
    + destruct IH as (n & Hn & -> & Hr & Hbelow).
      exists n. repeat split; [lia | lia | done |].
      intros k Hk. destruct (decide (k = count)) as [->|]; [done|].
      apply Hbelow. lia.
    + intros k Hk. destruct (decide (k = count)) as [->|]; [done|].
      apply IH. lia.
  - exists count. repeat split; [lia | lia | | intros k ?; lia].
    intros Hin. by apply Hout, arrayIndexOf_found.
Qed.

(** A registry cannot hold the slug and all of its first [length idList]
    suffixed candidates. *)
Lemma candidates_not_all_taken (idList : list jsstring) (tidyText : jsstring) :
  tidyText ∈ idList →
  ¬ ∀ k, 1 ≤ k < 1 + length idList → candidate tidyText k ∈ idList.
Proof.
  intros Htidy Hall.
  set (tried := tidyText :: (candidate tidyText <$> seq 1 (length idList))).
  assert (NoDup tried) as Hnodup.
  { apply NoDup_cons. split.
    - intros (k & Hk & _)%list_elem_of_fmap. by destruct (candidate_ne tidyText k).
    - pose proof (candidate_inj tidyText).
      apply (NoDup_fmap_2 _), NoDup_seq. }
  assert (tried ⊆ idList) as Hsub.
  { intros x [->|(k & -> & Hk%elem_of_seq)%list_elem_of_fmap]%elem_of_cons;
      [done|]. apply Hall. lia. }
  pose proof (submseteq_length _ _ (NoDup_submseteq _ _ Hnodup Hsub)) as Hlen.
  unfold tried in Hlen. cbn in Hlen. rewrite length_fmap, length_seq in Hlen.
  lia.
Qed.

(** The loop of [add] exits within its fuel, with the slug itself when it is
    free and else with the first free candidate, counted from 1. *)
Lemma collisionLoop_result (idList : list jsstring) (tidyText : jsstring) :
  ∃ r, collisionLoop (S (length idList)) idList tidyText tidyText 0 None
       = Some r
       ∧ (r ∉ idList)
       ∧ (((tidyText ∉ idList) ∧ r = tidyText)
          ∨ (tidyText ∈ idList
             ∧ ∃ n, 1 ≤ n ∧ r = candidate tidyText n
                    ∧ ∀ k, 1 ≤ k < n → candidate tidyText k ∈ idList)).
Proof.
  cbn [collisionLoop].
  destruct (decide (arrayIndexOf idList tidyText ≠ (-1)%Z)) as [Hin|Hout].
  - apply arrayIndexOf_found in Hin.
    pose proof (collisionLoop_steady (length idList) idList tidyText tidyText
                  (0 + 1) (arrayIndexOf idList tidyText)) as Hloop.
    destruct (collisionLoop _ _ _ _ _ _) as [r|].
    + destruct Hloop as (n & Hn & -> & Hr & Hbelow).
      eexists. split; [done|]. split; [done|]. right. split; [done|].
      exists n. split; [lia|]. split; [done|]. intros k Hk. apply Hbelow. lia.
    + destruct (candidates_not_all_taken idList tidyText Hin).
      intros k Hk. apply Hloop. lia.
  - exists tidyText. split; [done|].
    assert (tidyText ∉ idList) by (intros ?; by apply Hout, arrayIndexOf_found).
    split; [done|]. by left.
Qed.

(** ** The anchor node, step by step *)

Lemma isElement_labelledAnchor o : isElement (labelledAnchor o) = true.
Proof. unfold labelledAnchor, applyIf. by destruct (truthyStr _). Qed.

Section fresh_node.
Context (w : World).
Local Abbreviation ns := (nodes (document w)).
Local Abbreviation fresh := (length (nodes (document w))).
Local Abbreviation W := (λ nd : Node, withNodes (ns ++ [nd]) w).

Lemma updateNode_fresh nd f ns' :
  updateNode fresh f (withNodes (ns ++ [nd]) (withNodes ns' w))
  = (Return tt, W (f nd)).
Proof.
  rewrite (updateNode_Some _ fresh nd f) by (by apply list_lookup_middle).
  cbn. unfold withNodes. cbn. do 3 f_equal.
  rewrite insert_app_r_alt by done. by rewrite Nat.sub_diag.
Qed.

Lemma setAttribute_fresh nd name v :
  isElement nd = true →
  setAttribute fresh name v (W nd) = (Return tt, W (withAttribute name v nd)).
Proof.
  intros He. unfold setAttribute.
  erewrite bind_Return.
  2:{ apply getElement_Some with (nd := nd); [by apply list_lookup_middle | done]. }
  apply (updateNode_fresh nd _ ns).
Qed.

Lemma setStyle_fresh nd prop v :
  setStyle fresh prop v (W nd) = (Return tt, W (withStyle prop v nd)).
Proof. apply (updateNode_fresh nd _ ns). Qed.

Lemma when_setAttribute_fresh b nd name v :
  isElement nd = true →
  when b (setAttribute fresh name v) (W nd)
  = (Return tt, W (applyIf b (withAttribute name v) nd)).
Proof. intros He. destruct b; [by apply setAttribute_fresh | done]. Qed.

Lemma when_setStyle_fresh b nd prop v :
  when b (setStyle fresh prop v) (W nd)
  = (Return tt, W (applyIf b (withStyle prop v) nd)).
Proof. destruct b; [by apply setStyle_fresh | done]. Qed.
End fresh_node.

Section anchors.
Context `{Browser}.

(** [buildAnchor] always returns: it appends the anchor node to the store
    and touches nothing else. *)
Lemma buildAnchor_eq (elementID : option jsstring) (w : World) :
  let d := document w in
  buildAnchor elementID w
  = (Return (length (nodes d)),
     withNodes (nodes d ++
                [anchorNode (opts (this w)) (findsBase w)
                   (ontouchstart (window d) || documentTouch (window d))
                   (window d) elementID]) w).
Proof.
  cbn zeta. unfold buildAnchor, createElement.
  rewrite bind_run, createNode_eq. rewrite bind_run. cbn [getThis].
  change (this (withNodes _ w)) with (this w).
  set (o := opts (this w)).
  erewrite bind_Return by (by apply setAttribute_fresh).
  erewrite bind_Return by (by apply setAttribute_fresh).
  erewrite bind_Return by (by apply setAttribute_fresh).
  erewrite bind_Return by (by apply when_setAttribute_fresh).
  fold (labelledAnchor o).
  rewrite bind_run, querySelector_document. rewrite bind_run. cbn [getDocument].
  fold (findsBase w).
  erewrite bind_Return.
  2:{ apply setAttribute_fresh, isElement_labelledAnchor. }
  erewrite bind_Return by apply when_setStyle_fresh.
  rewrite bind_run. unfold isTouchDevice at 1. rewrite bind_run.
  cbn [getDocument mret M_ret].
  erewrite bind_Return by apply when_setStyle_fresh.
  erewrite bind_Return; [reflexivity|].
  unfold anchorNode, hrefBaseOf.
  destruct (bool_decide (icon o = Some DEFAULT_ICON)); [|done].
  cbn [when applyIf].
  erewrite bind_Return by apply setStyle_fresh.
  apply when_setStyle_fresh.
Qed.
End anchors.

(** ** The world after a turn of the scan *)

Lemma attrGet_attrSet (name name' : string) (v : jsstring)
    (l : list (string * jsstring)) :
  attrGet name (attrSet name' v l)
  = if decide (name' = name) then Some v else attrGet name l.
Proof.
  induction l as [|[k v'] l IH]; cbn.
  - by destruct (decide (name' = name)).
  - destruct (decide (k = name')) as [->|Hk]; cbn.
    + by destruct (decide (name' = name)).
    + destruct (decide (k = name)) as [->|]; [|done].
      by rewrite decide_False by done.
Qed.

Lemma attributes_placedNode o nd : attributes (placedNode o nd) = attributes nd.
Proof. unfold placedNode. by case_bool_decide. Qed.

Lemma kind_placedNode o nd : kind (placedNode o nd) = kind nd.
Proof. unfold placedNode. by case_bool_decide. Qed.

Lemma attributes_anchorNode o hasBase isTouch win elementID :
  attributes (anchorNode o hasBase isTouch win elementID)
  = attrSet "href" (hrefBaseOf o hasBase win ++ str "#" ++ toStrNull elementID)
            (attributes (labelledAnchor o)).
Proof. unfold anchorNode, applyIf. by repeat case_match. Qed.

Lemma kind_anchorNode o hasBase isTouch win elementID :
  kind (anchorNode o hasBase isTouch win elementID) = ElementNode (str "a").
Proof. unfold anchorNode, labelledAnchor, applyIf. by repeat case_match. Qed.

Lemma class_labelledAnchor o :
  attrGet "class" (attributes (labelledAnchor o))
  = Some (str "anchorjs-link " ++ toStr (class o)).
Proof. unfold labelledAnchor, applyIf. by destruct (truthyStr _). Qed.

(** The anchor node carries the marker class and the [href] to its
    element. *)
Lemma classOf_anchor o hasBase isTouch win elementID :
  classOf (placedNode o (anchorNode o hasBase isTouch win elementID))
  = Some (str "anchorjs-link " ++ toStr (class o)).
Proof.
  unfold classOf.
  rewrite kind_placedNode, kind_anchorNode, attributes_placedNode,
    attributes_anchorNode, attrGet_attrSet.
  rewrite decide_False by done. by rewrite class_labelledAnchor.
Qed.

Lemma href_anchor o hasBase isTouch win elementID :
  attrGet "href"
    (attributes (placedNode o (anchorNode o hasBase isTouch win elementID)))
  = Some (hrefBaseOf o hasBase win ++ str "#" ++ toStrNull elementID).
Proof.
  rewrite attributes_placedNode, attributes_anchorNode, attrGet_attrSet.
  by rewrite decide_True by done.
Qed.

Lemma hasMark_anchor (cls : jsstring) :
  hasMark (Some (str "anchorjs-link " ++ cls)) = true.
Proof.
  unfold hasMark, indexOf. cbn [toStr].
  change (str " " ++ (str "anchorjs-link " ++ cls) ++ str " ")
    with (ANCHOR_MARK ++ cls ++ str " ").
  destruct (ANCHOR_MARK ++ cls ++ str " ") as [|c s] eqn:Hs; [done|].
  cbn [indexOfFrom]. rewrite <- Hs.
  rewrite decide_True; [done|]. by exists (cls ++ str " ").
Qed.

Section anchored_world.
Context `{Browser}.
Context (w : World) (el : NodeId) (nd : Node) (elementID : option jsstring).
Hypothesis Hel : nodes (document w) !! el = Some nd.

Local Abbreviation w' := (anchoredWorld w el nd elementID).
Local Abbreviation anchor := (length (nodes (document w))).

Lemma anchoredWorld_length :
  length (nodes (document w')) = S (length (nodes (document w))).
Proof. cbn. rewrite length_insert, length_app. cbn. lia. Qed.

Lemma anchoredWorld_element :
  nodes (document w') !! el
  = Some (withChildren
            (placedChildren (opts (this w)) anchor (childNodes nd)) nd).
Proof.
  cbn. apply list_lookup_insert_eq. rewrite length_app.
  apply lookup_lt_Some in Hel. lia.
Qed.

Lemma anchoredWorld_anchor :
  ∃ a, nodes (document w') !! anchor = Some a
       ∧ childNodes a = []
       ∧ classOf a = Some (str "anchorjs-link " ++ toStr (class (opts (this w))))
       ∧ ∃ hasBase,
           attrGet "href" (attributes a)
           = Some (hrefBaseOf (opts (this w)) hasBase (window (document w))
                   ++ str "#" ++ toStrNull elementID).
Proof.
  eexists. split.
  { cbn. rewrite list_lookup_insert_ne.
    - by apply list_lookup_middle.
    - apply lookup_lt_Some in Hel. lia. }
  split.
  { unfold placedNode, anchorNode, labelledAnchor, applyIf.
    by repeat case_match. }
  split; [apply classOf_anchor|]. eexists. apply href_anchor.
Qed.

Lemma anchoredWorld_other (n : NodeId) :
  n ≠ el → n < length (nodes (document w)) →
  nodes (document w') !! n = nodes (document w) !! n.
Proof.
  intros Hne Hn. cbn. rewrite list_lookup_insert_ne by done.
  by apply lookup_app_l.
Qed.

Lemma anchoredWorld_framed :
  framed el (nodes (document w)) (nodes (document w')).
Proof.
  split; [rewrite anchoredWorld_length; lia|].
  split; [intros n Hn Hne; by apply anchoredWorld_other|].
  intros n nd0 _ Hn. destruct (decide (n = el)) as [->|Hne].
  - rewrite anchoredWorld_element. eexists. split; [done|].
    by simplify_eq.
  - exists nd0. split; [|done].
    rewrite anchoredWorld_other; [done | done | by eapply lookup_lt_Some].
Qed.
End anchored_world.

Lemma placeAnchor_eq (w : World) (el : NodeId) (ndx nd : Node) :
  nodes (document w) !! el = Some ndx →
  let o := opts (this w) in
  let anchor := length (nodes (document w)) in
  placeAnchor el anchor (withNodes (nodes (document w) ++ [nd]) w)
  = (Return tt,
     withNodes (<[el := withChildren
                          (placedChildren o anchor (childNodes ndx)) ndx]>
                  (nodes (document w) ++ [placedNode o nd])) w).
Proof.
  intros Hel. cbn zeta. unfold placeAnchor, placedChildren, placedNode.
  rewrite bind_run. cbn [getThis].
  change (this (withNodes _ w)) with (this w).
  assert (∀ nd', nodes (document (withNodes (nodes (document w) ++ [nd']) w))
                 !! el = Some ndx) as Hel'.
  { intros nd'. cbn. by apply lookup_app_l_Some. }
  case_bool_decide.
  - do 4 (erewrite bind_Return by apply setStyle_fresh).
    erewrite bind_Return by (by apply firstChild_Some).
    unfold insertBefore, appendChild.
    destruct (childNodes ndx) as [|c cs] eqn:Hcs; cbn [List.head].
    + erewrite updateNode_Some by done. by rewrite Hcs.
    + erewrite bind_Return by (by apply getNode_Some).
      rewrite Hcs. cbn [insertBeforeIn]. rewrite decide_True by done.
      by erewrite updateNode_Some by done.
  - do 3 (erewrite bind_Return by apply setStyle_fresh).
    unfold appendChild. by erewrite updateNode_Some by done.
Qed.

Section elements.
Context `{Browser}.

(** Building and placing the anchor of a live element always succeeds. *)
Lemma finishAnchor_eq (w : World) (el : NodeId) (nd : Node)
    (elementID : option jsstring) :
  nodes (document w) !! el = Some nd →
  (anchor ← buildAnchor elementID; placeAnchor el anchor) w
  = (Return tt, anchoredWorld w el nd elementID).
Proof.
  intros Hel. rewrite bind_run, buildAnchor_eq. cbn zeta.
  by rewrite (placeAnchor_eq w el nd _ Hel).
Qed.

(** An element is unanchored only when it is live and has children. *)
Lemma anchoredIn_Return (ns : list Node) (el : NodeId) (b : bool) :
  anchoredIn ns el = Return b →
  ∃ nd fc lc fnd lnd,
    ns !! el = Some nd
    ∧ List.head (childNodes nd) = Some fc ∧ last (childNodes nd) = Some lc
    ∧ ns !! fc = Some fnd ∧ ns !! lc = Some lnd
    ∧ b = hasMark (classOf fnd) || hasMark (classOf lnd).
Proof.
  unfold anchoredIn. intros Hb.
  repeat case_match; simplify_eq. rewrite orb_false_r.
  do 5 eexists. repeat split; done.
Qed.

Lemma afterUrlify_document (w : World) :
  document (afterUrlify w) = document w.
Proof. unfold afterUrlify. by destruct (truthyOptNum _). Qed.

Lemma urlify_textContent (w : World) (el : NodeId) (nd : Node) :
  nodes (document w) !! el = Some nd →
  (text ← textContent el; urlify text) w = (Return (slugOf w el), afterUrlify w).
Proof.
  intros Hel. erewrite bind_Return by (by eapply textContent_Some).
  by rewrite urlify_eq.
Qed.

(** The generated identifier: the loop exits, the identifier is new to
    the registry, and it is set on the element and registered. *)
Lemma generateId_eq (w : World) (el : NodeId) (nd : Node)
    (idList : list jsstring) :
  nodes (document w) !! el = Some nd → isElement nd = true →
  ∃ id, collisionLoop (S (length idList)) idList (slugOf w el) (slugOf w el)
                      0 None = Some id
        ∧ generateId el idList w
          = (Return (id, idList ++ [id]), identifiedWorld w el nd id).
Proof.
  intros Hel He.
  destruct (collisionLoop_result idList (slugOf w el)) as (id & Hid & _).
  exists id. split; [done|]. unfold generateId.
  erewrite bind_Return by (by eapply textContent_Some).
  rewrite bind_run, urlify_eq. cbn zeta. fold (afterUrlify w).
  change (toLowerCase _) with (slugOf w el). cbv beta iota. rewrite Hid.
  erewrite bind_Return; [reflexivity|].
  unfold identifiedWorld. rewrite <- (afterUrlify_document w).
  apply setAttribute_Some; [|done]. by rewrite afterUrlify_document.
Qed.

Lemma determineId_id (w : World) (el : NodeId) (nd : Node)
    (idList : list jsstring) (v : jsstring) :
  nodes (document w) !! el = Some nd → isElement nd = true →
  attrGet "id" (attributes nd) = Some v →
  determineId el idList w = (Return (Some v, idList), w).
Proof.
  intros Hel He Hid. unfold determineId.
  erewrite bind_Return by (by eapply hasAttribute_Some).
  rewrite Hid, bool_decide_true by done.
  erewrite bind_Return by (by eapply getAttribute_Some). by rewrite Hid.
Qed.

Lemma determineId_data (w : World) (el : NodeId) (nd : Node)
    (idList : list jsstring) (v : jsstring) :
  nodes (document w) !! el = Some nd → isElement nd = true →
  attrGet "id" (attributes nd) = None →
  attrGet "data-anchor-id" (attributes nd) = Some v →
  determineId el idList w = (Return (Some v, idList), w).
Proof.
  intros Hel He Hid Hdata. unfold determineId.
  erewrite bind_Return by (by eapply hasAttribute_Some).
  rewrite Hid, bool_decide_false by (by intros []).
  erewrite bind_Return by (by eapply hasAttribute_Some).
  rewrite Hdata, bool_decide_true by done.
  erewrite bind_Return by (by eapply getAttribute_Some). by rewrite Hdata.
Qed.

Lemma determineId_generated (w : World) (el : NodeId) (nd : Node)
    (idList : list jsstring) :
  nodes (document w) !! el = Some nd → isElement nd = true →
  attrGet "id" (attributes nd) = None →
  attrGet "data-anchor-id" (attributes nd) = None →
  ∃ id, collisionLoop (S (length idList)) idList (slugOf w el) (slugOf w el)
                      0 None = Some id
        ∧ determineId el idList w
          = (Return (Some id, idList ++ [id]), identifiedWorld w el nd id).
Proof.
  intros Hel He Hid Hdata.
  destruct (generateId_eq w el nd idList Hel He) as (id & Hloop & Hgen).
  exists id. split; [done|]. unfold determineId.
  erewrite bind_Return by (by eapply hasAttribute_Some).
  rewrite Hid, bool_decide_false by (by intros []).
  erewrite bind_Return by (by eapply hasAttribute_Some).
  rewrite Hdata, bool_decide_false by (by intros []).
  by erewrite bind_Return by done.
Qed.

(** One turn of the scan on an anchored element only records its index. *)
Lemma addElement_anchored (w : World) (el : NodeId) (i : nat)
    (idList : list jsstring) (indexesToDrop : list nat) :
  anchoredIn (nodes (document w)) el = Return true →
  addElement el i (idList, indexesToDrop) w
  = (Return (idList, indexesToDrop ++ [i]), w).
Proof.
  intros Ha. unfold addElement.
  rewrite bind_run, hasAnchorJSLink_eq, Ha. done.
Qed.

Lemma addElement_throws (w : World) (el : NodeId) (i : nat)
    (st : list jsstring * list nat) (e : Error) :
  anchoredIn (nodes (document w)) el = Throw e →
  addElement el i st w = (Throw e, w).
Proof.
  intros Ha. unfold addElement. destruct st.
  rewrite bind_run, hasAnchorJSLink_eq, Ha. done.
Qed.

(** One turn of the scan on an unanchored element with an identifier of
    its own, or with an override. *)
Lemma addElement_reused (w : World) (el : NodeId) (nd : Node) (i : nat)
    (idList : list jsstring) (indexesToDrop : list nat) (v : jsstring) :
  nodes (document w) !! el = Some nd → isElement nd = true →
  anchoredIn (nodes (document w)) el = Return false →
  attrGet "id" (attributes nd) = Some v
  ∨ (attrGet "id" (attributes nd) = None
     ∧ attrGet "data-anchor-id" (attributes nd) = Some v) →
  addElement el i (idList, indexesToDrop) w
  = (Return (idList, indexesToDrop), anchoredWorld w el nd (Some v)).
Proof.
  intros Hel He Ha Hv. unfold addElement.
  rewrite bind_run, hasAnchorJSLink_eq, Ha.
  erewrite bind_Return.
  2:{ destruct Hv as [Hid|[Hid Hdata]];
        [by eapply determineId_id | by eapply determineId_data]. }
  cbn [fst snd].
  pose proof (finishAnchor_eq w el nd (Some v) Hel) as Hfin.
  rewrite bind_run in Hfin. rewrite bind_run.
  destruct (buildAnchor (Some v) w) as [[anchor|e] w1]; [|done].
  by rewrite bind_run, Hfin.
Qed.

(** One turn of the scan on an unanchored element without identifier. *)
Lemma addElement_generated (w : World) (el : NodeId) (nd : Node) (i : nat)
    (idList : list jsstring) (indexesToDrop : list nat) :
  nodes (document w) !! el = Some nd → isElement nd = true →
  anchoredIn (nodes (document w)) el = Return false →
  attrGet "id" (attributes nd) = None →
  attrGet "data-anchor-id" (attributes nd) = None →
  ∃ id, collisionLoop (S (length idList)) idList (slugOf w el) (slugOf w el)
                      0 None = Some id
        ∧ addElement el i (idList, indexesToDrop) w
          = (Return (idList ++ [id], indexesToDrop),
             anchoredWorld (identifiedWorld w el nd id) el
               (withAttribute "id" id nd) (Some id)).
Proof.
  intros Hel He Ha Hid Hdata.
  destruct (determineId_generated w el nd idList Hel He Hid Hdata)
    as (id & Hloop & Hdet).
  exists id. split; [done|]. unfold addElement.
  rewrite bind_run, hasAnchorJSLink_eq, Ha.
  erewrite bind_Return by done. cbn [fst snd].
  assert (nodes (document (identifiedWorld w el nd id)) !! el
          = Some (withAttribute "id" id nd)) as Hel'.
  { cbn. apply list_lookup_insert_eq. by eapply lookup_lt_Some. }
  pose proof (finishAnchor_eq _ el _ (Some id) Hel') as Hfin.
  rewrite bind_run in Hfin. rewrite bind_run.
  destruct (buildAnchor (Some id) _) as [[anchor|e] w1]; [|done].
  by rewrite bind_run, Hfin.
Qed.
(** The same turn when the slug is taken: the identifier is the first
    free candidate, counted from 1. *)
Lemma addElement_suffixed (w : World) (el : NodeId) (nd : Node) (i : nat)
    (idList : list jsstring) (indexesToDrop : list nat) :
  nodes (document w) !! el = Some nd → isElement nd = true →
  anchoredIn (nodes (document w)) el = Return false →
  attrGet "id" (attributes nd) = None →
  attrGet "data-anchor-id" (attributes nd) = None →
  slugOf w el ∈ idList →
  ∃ n, 1 ≤ n
    ∧ (∀ k, 1 ≤ k < n → candidate (slugOf w el) k ∈ idList)
    ∧ (candidate (slugOf w el) n ∉ idList)
    ∧ addElement el i (idList, indexesToDrop) w
      = (Return (idList ++ [candidate (slugOf w el) n], indexesToDrop),
         anchoredWorld
           (identifiedWorld w el nd (candidate (slugOf w el) n)) el
           (withAttribute "id" (candidate (slugOf w el) n) nd)
           (Some (candidate (slugOf w el) n))).
Proof.
  intros Hel He Ha Hid Hdata Hin.
  destruct (addElement_generated w el nd i idList indexesToDrop
              Hel He Ha Hid Hdata) as (id & Hloop & Hadd).
  destruct (collisionLoop_result idList (slugOf w el))
    as (r & Hr & Hfree & [[Hout _]|(_ & n & Hn & -> & Hbelow)]); [done|].
  rewrite Hr in Hloop. injection Hloop as <-. by exists n.
Qed.

(** The identifier that a turn of the scan set is read back from the
    element. *)
Lemma identified_id (w w' : World) (el : NodeId) (nd : Node) (id : jsstring) :
  nodes (document w) !! el = Some nd → isElement nd = true →
  document w' = document (anchoredWorld (identifiedWorld w el nd id) el
                            (withAttribute "id" id nd) (Some id)) →
  getAttribute el "id" w' = (Return (Some id), w').
Proof.
  intros Hel He Hdoc.
  assert (nodes (document (identifiedWorld w el nd id)) !! el
          = Some (withAttribute "id" id nd)) as Hel'.
  { cbn. apply list_lookup_insert_eq. by eapply lookup_lt_Some. }
  pose proof (anchoredWorld_element _ el _ (Some id) Hel') as Hel''.
  rewrite <- Hdoc in Hel''.
  rewrite (getAttribute_Some w' el _ "id" Hel'') by done.
  cbn. by rewrite attrGet_attrSet, decide_True by done.
Qed.
End elements.

(** ** Reading the hypotheses of the theorems *)

Lemma getElement_Return (n : NodeId) (w w' : World) (nd : Node) :
  getElement n w = (Return nd, w') →
  nodes (document w) !! n = Some nd ∧ isElement nd = true.
Proof.
  unfold getElement. rewrite bind_run.
  destruct (nodes (document w) !! n) as [nd0|] eqn:Hn.
  - rewrite (getNode_Some w n nd0 Hn).
    destruct (isElement nd0) eqn:He; [|done]. by intros [= <- _].
  - by rewrite (getNode_None w n Hn).
Qed.

Lemma hasAttribute_Return (el : NodeId) (name : string) (w w' : World) (b : bool) :
  hasAttribute el name w = (Return b, w') →
  ∃ nd, nodes (document w) !! el = Some nd ∧ isElement nd = true
        ∧ b = bool_decide (is_Some (attrGet name (attributes nd))).
Proof.
  unfold hasAttribute. intros (nd & w1 & Hnd & Hb)%bind_Return_inv.
  apply getElement_Return in Hnd as [Hnd He]. exists nd.
  injection Hb as <- _. done.
Qed.

Lemma getAttribute_Return (el : NodeId) (name : string) (w w' : World)
    (x : option jsstring) :
  getAttribute el name w = (Return x, w') →
  ∃ nd, nodes (document w) !! el = Some nd ∧ isElement nd = true
        ∧ x = attrGet name (attributes nd).
Proof.
  unfold getAttribute. intros (nd & w1 & Hnd & Hx)%bind_Return_inv.
  apply getElement_Return in Hnd as [Hnd He]. exists nd.
  injection Hx as <- _. done.
Qed.

Lemma hasAnchorJSLink_Return (el : NodeId) (w w' : World) (b : bool) :
  hasAnchorJSLink el w = (Return b, w') →
  anchoredIn (nodes (document w)) el = Return b.
Proof. rewrite hasAnchorJSLink_eq. by intros [= -> _]. Qed.

Lemma not_is_Some_None {A} (x : option A) :
  false = bool_decide (is_Some x) → x = None.
Proof.
  intros Hx. destruct x; [|done]. by rewrite bool_decide_true in Hx.
Qed.

Section element_theorems.
Context `{Browser}.

(** C1, as amended: an unanchored element without [id] and without
    [data-anchor-id], whose slug is in the registry, gets the slug with
    the suffix [-n] for the least [n], counted from 1, whose candidate is
    absent from the registry; that identifier is appended to the registry
    in the same turn and is the [id] attribute of the element. *)
Theorem generated_id_takes_first_free_suffix (w : World) (el : NodeId)
    (i : nat) (idList : list jsstring) (indexesToDrop : list nat)
    (slug : jsstring) :
  hasAnchorJSLink el w = (Return false, w) →
  hasAttribute el "id" w = (Return false, w) →
  hasAttribute el "data-anchor-id" w = (Return false, w) →
  fst ((text ← textContent el; urlify text) w) = Return slug →
  slug ∈ idList →
  ∃ n w', 1 ≤ n
    ∧ (∀ k, 1 ≤ k < n → candidate slug k ∈ idList)
    ∧ (candidate slug n ∉ idList)
    ∧ addElement el i (idList, indexesToDrop) w
      = (Return (idList ++ [candidate slug n], indexesToDrop), w')
    ∧ getAttribute el "id" w' = (Return (Some (candidate slug n)), w').
Proof.
  intros Ha%hasAnchorJSLink_Return (nd & Hel & He & Hid)%hasAttribute_Return
    (nd' & Hel' & _ & Hdata)%hasAttribute_Return Hslug Hin.
  simplify_eq. apply not_is_Some_None in Hid, Hdata.
  rewrite (urlify_textContent w el nd Hel) in Hslug. injection Hslug as <-.
  destruct (addElement_suffixed w el nd i idList indexesToDrop
              Hel He Ha Hid Hdata Hin) as (n & Hn & Hbelow & Hfree & Hadd).
  exists n. eexists. split; [done|]. split; [done|]. split; [done|].
  split; [exact Hadd|].
  by apply (identified_id w _ el nd _ Hel He).
Qed.

Lemma firstChild_None (w : World) (el : NodeId) :
  firstChild el w = (Return None, w) →
  ∃ nd, nodes (document w) !! el = Some nd ∧ childNodes nd = [].
Proof.
  destruct (nodes (document w) !! el) as [nd|] eqn:Hel.
  - rewrite (firstChild_Some w el nd Hel). intros [= Hkids].
    exists nd. split; [done|]. by destruct (childNodes nd).
  - unfold firstChild. by rewrite bind_run, (getNode_None w el Hel).
Qed.

(** C7: the claim fails for an element without children: the turn of the
    scan on an element that carries an [id], or a [data-anchor-id] and no
    [id], throws the TypeError of [hasAnchorJSLink] when the element has no
    child, and leaves the world as it is: no anchor is made for the
    identifier.  When
    [hasAnchorJSLink] returns false (the element has a child and no
    anchor), the claim holds: an element with an [id] keeps it; an element
    with a [data-anchor-id] and no [id] stays without [id]; in both cases
    the value is the fragment of the [href] of the new anchor (after the
    configured base, or the path and query of the location when the
    document has a [base] element), which is the first or the last child
    of the element; the registry is returned as it was (the value is not
    looked up in it) and the manager is not written to, as [urlify] would
    do. *)
Theorem explicit_id_is_reused (w : World) (el : NodeId) (i : nat)
    (idList : list jsstring) (indexesToDrop : list nat) (v : jsstring) :
  getAttribute el "id" w = (Return (Some v), w)
  ∨ (getAttribute el "id" w = (Return None, w)
     ∧ getAttribute el "data-anchor-id" w = (Return (Some v), w)) →
  (firstChild el w = (Return None, w) →
   addElement el i (idList, indexesToDrop) w = (Throw NULL_ERROR, w))
  ∧ (hasAnchorJSLink el w = (Return false, w) →
     ∃ w' anchor hasBase,
       addElement el i (idList, indexesToDrop) w
       = (Return (idList, indexesToDrop), w')
       ∧ this w' = this w
       ∧ fst (getAttribute el "id" w') = fst (getAttribute el "id" w)
       ∧ (firstChild el w' = (Return (Some anchor), w')
          ∨ lastChild el w' = (Return (Some anchor), w'))
       ∧ getAttribute anchor "href" w'
         = (Return (Some (hrefBaseOf (opts (this w)) hasBase
                            (window (document w)) ++ str "#" ++ v)), w')).
Proof.
  intros Hv. split.
  { intros (nd & Hel & Hkids)%firstChild_None.
    apply addElement_throws. unfold anchoredIn. by rewrite Hel, Hkids. }
  intros Ha%hasAnchorJSLink_Return.
  assert (∃ nd, nodes (document w) !! el = Some nd ∧ isElement nd = true
                ∧ (attrGet "id" (attributes nd) = Some v
                   ∨ (attrGet "id" (attributes nd) = None
                      ∧ attrGet "data-anchor-id" (attributes nd) = Some v)))
    as (nd & Hel & He & Hattr).
  { destruct Hv as [(nd & ? & ? & ?)%getAttribute_Return
                   |[(nd & ? & ? & ?)%getAttribute_Return
                     (nd' & ? & ? & ?)%getAttribute_Return]];
      simplify_eq; exists nd; eauto. }
  pose proof (addElement_reused w el nd i idList indexesToDrop v
                Hel He Ha Hattr) as Hadd.
  destruct (anchoredWorld_anchor w el nd (Some v) Hel)
    as (a & Ha' & Hkids & Hclass & hasBase & Hhref).
  pose proof (anchoredWorld_element w el nd (Some v) Hel) as Hel'.
  eexists _, (length (nodes (document w))), _.
  split; [exact Hadd|]. split; [done|]. split.
  { rewrite (getAttribute_Some _ el _ "id" Hel') by done.
    by rewrite (getAttribute_Some _ el _ "id" Hel) by done. }
  split.
  - rewrite (firstChild_Some _ el _ Hel'), (lastChild_Some _ el _ Hel').
    cbn [childNodes withChildren]. unfold placedChildren.
    case_bool_decide; [by left | right]. by rewrite last_snoc.
  - rewrite (getAttribute_Some _ _ _ "href" Ha'); [by rewrite Hhref|].
    unfold classOf in Hclass. unfold isElement. by destruct (kind a).
Qed.
End element_theorems.

(** ** Frames of computations that create nodes *)

Lemma framedFrom_refl (L : nat) (el : NodeId) (ns : list Node) :
  framedFrom L el ns ns.
Proof. split; [done|]. split; [done|]. intros n nd _ Hn. by exists nd. Qed.

Lemma framedFrom_trans (L : nat) (el : NodeId) (ns1 ns2 ns3 : list Node) :
  framedFrom L el ns1 ns2 → framedFrom L el ns2 ns3 → framedFrom L el ns1 ns3.
Proof.
  intros (Hlen1 & Hother1 & Hclass1) (Hlen2 & Hother2 & Hclass2).
  split; [lia|]. split.
  - intros n Hn Hne. by rewrite Hother2, Hother1.
  - intros n nd Hn Hnd. destruct (Hclass1 n nd Hn Hnd) as (nd' & Hnd' & Hc').
    destruct (Hclass2 n nd' Hn Hnd') as (nd'' & Hnd'' & Hc'').
    exists nd''. split; [done | congruence].
Qed.

Lemma framedFrom_mono (L L' : nat) (el : NodeId) (ns ns' : list Node) :
  L' ≤ L → framedFrom L el ns ns' → framedFrom L' el ns ns'.
Proof.
  intros HL (Hlen & Hother & Hclass). split; [done|]. split.
  - intros n Hn Hne. apply Hother; [lia | done].
  - intros n nd Hn Hnd. apply Hclass; [lia | done].
Qed.

Lemma frames_bind {A B} L el (m : M A) (f : A → M B) Q Q' :
  frames L el m Q → (∀ a, Q a → frames L el (f a) Q') →
  frames L el (m ≫= f) Q'.
Proof.
  intros Hm Hf w Hw. rewrite bind_run.
  destruct (Hm w Hw) as [Hframe Hq].
  destruct (m w) as [[a|e] w1]; cbn [fst snd] in *; [|done].
  assert (L ≤ length (nodes (document w1))) as Hw1.
  { destruct Hframe as (Hlen & _). lia. }
  destruct (Hf a (Hq a eq_refl) w1 Hw1) as [Hframe' Hq'].
  split; [by eapply framedFrom_trans | done].
Qed.

Lemma frames_pure {A} L el (m : M A) :
  (∀ w, snd (m w) = w) → frames L el m (λ _, True).
Proof. intros Hm w Hw. rewrite Hm. split; [apply framedFrom_refl | done]. Qed.

Lemma frames_createNode L el k : frames L el (createNode k) (λ a, L ≤ a).
Proof.
  intros w Hw. rewrite createNode_eq. cbn. split.
  2:{ intros a Ha. injection Ha as <-. done. }
  split; [rewrite length_app; lia|]. split.
  - intros n Hn Hne. apply lookup_app_l. lia.
  - intros n nd Hn Hnd. exists nd. split; [|done].
    rewrite lookup_app_l; [done | lia].
Qed.

(** A write to a node keeps the frame when the node is new, or when it is
    [el] and keeps its class. *)
Lemma frames_updateNode L el n f :
  L ≤ n ∨ (n = el ∧ ∀ nd, classOf (f nd) = classOf nd) →
  frames L el (updateNode n f) (λ _, True).
Proof.
  intros Hn w Hw. split; [|done].
  destruct (nodes (document w) !! n) as [nd|] eqn:Hnd.
  2:{ unfold updateNode.
      rewrite (bind_Throw _ _ _ _ _ (getNode_None w n Hnd)).
      apply framedFrom_refl. }
  rewrite (updateNode_Some w n nd f Hnd). cbn.
  split; [by rewrite length_insert|]. split.
  - intros k Hk Hne. apply list_lookup_insert_ne. destruct Hn as [? | [-> _]]; lia.
  - intros k nd0 Hk Hnd0. destruct (decide (k = n)) as [->|Hne].
    + destruct Hn as [? | [-> Hclass]]; [lia|].
      rewrite list_lookup_insert_eq by (by eapply lookup_lt_Some).
      eexists. split; [done|]. rewrite Hclass. congruence.
    + exists nd0. by rewrite list_lookup_insert_ne.
Qed.

Lemma frames_getNode L el n : frames L el (getNode n) (λ _, True).
Proof. apply frames_pure, getNode_world. Qed.

Lemma frames_setAttribute L el n name v :
  L ≤ n → frames L el (setAttribute n name v) (λ _, True).
Proof.
  intros Hn. unfold setAttribute. eapply frames_bind.
  - apply frames_pure, getElement_world.
  - intros _ _. apply frames_updateNode. by left.
Qed.

Lemma frames_appendChild L el parent child :
  L ≤ parent ∨ parent = el →
  frames L el (appendChild parent child) (λ _, True).
Proof.
  intros Hp. apply frames_updateNode.
  destruct Hp as [? | ->]; [by left | by right].
Qed.

Lemma frames_insertBefore L el new ref :
  frames L el (insertBefore el new ref) (λ _, True).
Proof.
  unfold insertBefore. destruct ref as [r|].
  - eapply frames_bind; [apply frames_getNode|]. intros nd _.
    destruct (insertBeforeIn new r (childNodes nd)).
    + apply frames_updateNode. by right.
    + by apply frames_pure.
  - apply frames_appendChild. by right.
Qed.


(** ** Frames of the scan *)

Lemma framed_other (el n : NodeId) (ns ns' : list Node) :
  framed el ns ns' → n ≠ el → n < length ns → ns' !! n = ns !! n.
Proof. intros (_ & Hother & _) Hne Hn. by apply Hother. Qed.

Lemma framed_class (el n : NodeId) (ns ns' : list Node) (nd : Node) :
  framed el ns ns' → ns !! n = Some nd →
  ∃ nd', ns' !! n = Some nd' ∧ classOf nd' = classOf nd.
Proof.
  intros (_ & _ & Hclass) Hn. apply Hclass; [by eapply lookup_lt_Some | done].
Qed.

Lemma framed_refl (el : NodeId) (ns : list Node) : framed el ns ns.
Proof. apply framedFrom_refl. Qed.

Lemma framed_trans (el : NodeId) (ns1 ns2 ns3 : list Node) :
  framed el ns1 ns2 → framed el ns2 ns3 → framed el ns1 ns3.
Proof.
  intros H12 H23. eapply framedFrom_trans; [exact H12|].
  eapply framedFrom_mono; [|exact H23]. by destruct H12.
Qed.

Lemma framed_identified (el : NodeId) (ns : list Node) (nd : Node)
    (id : jsstring) :
  ns !! el = Some nd →
  framed el ns (<[el := withAttribute "id" id nd]> ns).
Proof.
  intros Hel. split; [by rewrite length_insert|]. split.
  - intros n Hn Hne. by rewrite list_lookup_insert_ne.
  - intros n nd0 _ Hn. destruct (decide (n = el)) as [->|Hne].
    + rewrite list_lookup_insert_eq by (by eapply lookup_lt_Some).
      eexists. split; [done|]. simplify_eq. unfold classOf. cbn.
      by rewrite attrGet_attrSet, decide_False by done.
    + exists nd0. by rewrite list_lookup_insert_ne.
Qed.

Lemma anchoredIn_intro (ns : list Node) (el fc lc : NodeId) (nd fnd lnd : Node) :
  ns !! el = Some nd →
  List.head (childNodes nd) = Some fc → last (childNodes nd) = Some lc →
  ns !! fc = Some fnd → ns !! lc = Some lnd →
  anchoredIn ns el = Return (hasMark (classOf fnd) || hasMark (classOf lnd)).
Proof.
  intros Hel Hfc Hlc Hfnd Hlnd. unfold anchoredIn.
  by rewrite Hel, Hfc, Hlc, Hfnd, Hlnd, orb_false_r.
Qed.

(** An anchored element stays anchored, and as it is, under the frame of a
    turn on another element. *)
Lemma anchoredIn_framed (el e : NodeId) (ns ns' : list Node) (b : bool) :
  framed el ns ns' → e ≠ el → anchoredIn ns e = Return b →
  anchoredIn ns' e = Return b ∧ ns' !! e = ns !! e.
Proof.
  intros Hframe Hne
    (nd & fc & lc & fnd & lnd & He & Hfc & Hlc & Hfnd & Hlnd & ->)%anchoredIn_Return.
  assert (ns' !! e = ns !! e) as He'.
  { eapply framed_other; [done | done | by eapply lookup_lt_Some]. }
  split; [|done].
  destruct (framed_class _ _ _ _ _ Hframe Hfnd) as (fnd' & Hfnd' & <-).
  destruct (framed_class _ _ _ _ _ Hframe Hlnd) as (lnd' & Hlnd' & <-).
  eapply anchoredIn_intro; [by rewrite He' | done..].
Qed.

Section frames.
Context `{Browser}.

Lemma hasAttribute_text (w : World) (el : NodeId) (nd : Node) (name : string) :
  nodes (document w) !! el = Some nd → isElement nd = false →
  ∃ e, hasAttribute el name w = (Throw e, w).
Proof.
  intros Hel He. eexists. unfold hasAttribute, getElement.
  apply bind_Throw. erewrite bind_Return by (by apply getNode_Some).
  by rewrite He.
Qed.

(** After the anchor is placed, the element is anchored. *)
Lemma anchoredWorld_anchored (w : World) (el : NodeId) (nd : Node)
    (elementID : option jsstring) (b : bool) :
  nodes (document w) !! el = Some nd →
  anchoredIn (nodes (document w)) el = Return b →
  anchoredIn (nodes (document (anchoredWorld w el nd elementID))) el
  = Return true.
Proof.
  intros Hel (nd0 & fc & lc & fnd & lnd & He & Hfc & Hlc & Hfnd & Hlnd & _)
    %anchoredIn_Return.
  assert (nd0 = nd) as -> by congruence.
  pose proof (anchoredWorld_framed w el nd elementID Hel) as Hframe.
  destruct (framed_class _ _ _ _ _ Hframe Hfnd) as (fnd' & Hfnd' & _).
  destruct (framed_class _ _ _ _ _ Hframe Hlnd) as (lnd' & Hlnd' & _).
  destruct (anchoredWorld_anchor w el nd elementID Hel)
    as (a & Ha & _ & Hca & _).
  pose proof (anchoredWorld_element w el nd elementID Hel) as Hel'.
  unfold placedChildren in Hel'.
  destruct (bool_decide (placement (opts (this w)) = Some Placement.left)).
  - erewrite (anchoredIn_intro _ el (length (nodes (document w))) lc);
      [| exact Hel' | done | | exact Ha | exact Hlnd'].
    + by rewrite Hca, hasMark_anchor.
    + cbn. destruct (childNodes nd); [done|]. done.
  - erewrite (anchoredIn_intro _ el fc (length (nodes (document w))));
      [| exact Hel' | | | exact Hfnd' | exact Ha].
    + by rewrite Hca, hasMark_anchor, orb_true_r.
    + cbn. destruct (childNodes nd); [done|]. done.
    + cbn. apply last_snoc.
Qed.

(** Whatever its outcome, a turn of the scan on [el] stays within its
    frame, and changes nothing unless [el] is live and unanchored. *)
Lemma addElement_framed (w : World) (el : NodeId) (i : nat)
    (st : list jsstring * list nat) :
  let w' := snd (addElement el i st w) in
  framed el (nodes (document w)) (nodes (document w'))
  ∧ (anchoredIn (nodes (document w)) el ≠ Return false →
     document w' = document w).
Proof.
  cbn zeta. destruct st as [idList indexesToDrop].
  destruct (anchoredIn (nodes (document w)) el) as [[]|e] eqn:Ha.
  - rewrite addElement_anchored by done. split; [apply framed_refl | done].
  - split; [|done].
    destruct (anchoredIn_Return _ _ _ Ha) as (nd & _ & _ & _ & _ & Hel & _).
    destruct (isElement nd) eqn:He.
    2:{ destruct (hasAttribute_text w el nd "id" Hel He) as (e & Hthrow).
        unfold addElement, determineId.
        rewrite bind_run, hasAnchorJSLink_eq, Ha.
        erewrite bind_Throw by (by apply bind_Throw). apply framed_refl. }
    destruct (attrGet "id" (attributes nd)) as [v|] eqn:Hid.
    { erewrite addElement_reused by eauto. by apply anchoredWorld_framed. }
    destruct (attrGet "data-anchor-id" (attributes nd)) as [v|] eqn:Hdata.
    { erewrite addElement_reused by eauto. by apply anchoredWorld_framed. }
    destruct (addElement_generated w el nd i idList indexesToDrop
                Hel He Ha Hid Hdata) as (id & _ & ->).
    eapply framed_trans; [by apply (framed_identified el _ nd id)|].
    apply (anchoredWorld_framed (identifiedWorld w el nd id)).
    cbn. apply list_lookup_insert_eq. by eapply lookup_lt_Some.
  - rewrite (addElement_throws w el i _ e Ha).
    split; [apply framed_refl | done].
Qed.

(** A turn of the scan that returns leaves its element anchored. *)
Lemma addElement_Return_anchored (w w' : World) (el : NodeId) (i : nat)
    (st st' : list jsstring * list nat) :
  addElement el i st w = (Return st', w') →
  anchoredIn (nodes (document w')) el = Return true.
Proof.
  destruct st as [idList indexesToDrop].
  destruct (anchoredIn (nodes (document w)) el) as [[]|e] eqn:Ha.
  - rewrite addElement_anchored by done. by intros [= _ <-].
  - destruct (anchoredIn_Return _ _ _ Ha) as (nd & _ & _ & _ & _ & Hel & _).
    destruct (isElement nd) eqn:He.
    2:{ destruct (hasAttribute_text w el nd "id" Hel He) as (e & Hthrow).
        unfold addElement, determineId.
        rewrite bind_run, hasAnchorJSLink_eq, Ha.
        by erewrite bind_Throw by (by apply bind_Throw). }
    destruct (attrGet "id" (attributes nd)) as [v|] eqn:Hid.
    { erewrite addElement_reused by eauto. intros [= _ <-].
      by eapply anchoredWorld_anchored. }
    destruct (attrGet "data-anchor-id" (attributes nd)) as [v|] eqn:Hdata.
    { erewrite addElement_reused by eauto. intros [= _ <-].
      by eapply anchoredWorld_anchored. }
    destruct (addElement_generated w el nd i idList indexesToDrop
                Hel He Ha Hid Hdata) as (id & _ & ->).
    intros [= _ <-].
    assert (nodes (document (identifiedWorld w el nd id)) !! el
            = Some (withAttribute "id" id nd)) as Hel'.
    { cbn. apply list_lookup_insert_eq. by eapply lookup_lt_Some. }
    destruct (anchoredIn_Return _ _ _ Ha)
      as (nd0 & fc & lc & fnd & lnd & Hel0 & Hfc & Hlc & Hfnd & Hlnd & _).
    assert (nd0 = nd) as -> by congruence.
    pose proof (framed_identified el _ nd id Hel) as Hframe.
    destruct (framed_class _ _ _ _ _ Hframe Hfnd) as (fnd' & Hfnd' & _).
    destruct (framed_class _ _ _ _ _ Hframe Hlnd) as (lnd' & Hlnd' & _).
    eapply anchoredWorld_anchored; [done|].
    exact (anchoredIn_intro _ el fc lc _ fnd' lnd' Hel' Hfc Hlc Hfnd' Hlnd').
  - by rewrite (addElement_throws w el i _ e Ha).
Qed.

(** An anchored element stays anchored, and as it is, through the rest of
    a scan, whatever its outcome. *)
Lemma addLoop_keeps_anchored (elements : list NodeId) (i : nat)
    (st : list jsstring * list nat) (w : World) (e : NodeId) :
  anchoredIn (nodes (document w)) e = Return true →
  let w' := snd (addLoop elements i st w) in
  anchoredIn (nodes (document w')) e = Return true
  ∧ nodes (document w') !! e = nodes (document w) !! e.
Proof.
  revert i st w. induction elements as [|el rest IH]; intros i st w Ha;
    [done|].
  cbn [addLoop]. rewrite bind_run.
  destruct (addElement_framed w el i st) as [Hframe Hskip].
  assert (anchoredIn (nodes (document (snd (addElement el i st w)))) e
          = Return true
          ∧ nodes (document (snd (addElement el i st w))) !! e
            = nodes (document w) !! e) as [Ha1 He1].
  { destruct (decide (e = el)) as [->|Hne].
    - rewrite Hskip by (by rewrite Ha). done.
    - by eapply anchoredIn_framed. }
  destruct (addElement el i st w) as [[st1|err] w1]; [|done].
  cbn [snd] in Ha1, He1. destruct (IH (S i) st1 w1 Ha1) as [Ha2 He2].
  split; [done | congruence].
Qed.

(** A scan loop that returns leaves all of its elements anchored. *)
Lemma addLoop_anchors_all (elements : list NodeId) (i : nat)
    (st st' : list jsstring * list nat) (w w' : World) :
  addLoop elements i st w = (Return st', w') →
  ∀ e, e ∈ elements → anchoredIn (nodes (document w')) e = Return true.
Proof.
  revert i st w. induction elements as [|el rest IH]; intros i st w Hloop e He.
  { by apply elem_of_nil in He. }
  cbn [addLoop] in Hloop.
  apply bind_Return_inv in Hloop as (st1 & w1 & Hstep & Hrest).
  apply elem_of_cons in He as [->|He]; [|by eapply IH].
  apply addElement_Return_anchored in Hstep.
  pose proof (addLoop_keeps_anchored rest (S i) st1 w1 el Hstep) as [Ha _].
  by rewrite Hrest in Ha.
Qed.
End frames.

(** ** Whole scans *)

Section scans.
Context `{Browser}.

(** [add] after its first two steps: the options are defaulted and the
    elements resolved, neither of which touches the document. *)
Lemma add_eq (selector : option Selector) (w : World) :
  add selector w =
  let w0 := withOpts (_applyRemainingDefaultOptions (opts (this w))) w in
  match fst (_getElements (selectorOrDefault selector) w) with
  | Throw e => (Throw e, w0)
  | Return elements =>
      if bool_decide (length elements = 0) then (Return tt, w0)
      else (_addBaselineStyles;;
            d ← getDocument;
            st ← addLoop elements 0 (existingIds d, []);
            a ← getThis;
            setEls (els a ++ spliceLoop (snd st) 0 elements)) w0
  end.
Proof.
  unfold add. rewrite bind_run. cbn [getThis]. rewrite bind_run.
  cbn [setOpts]. rewrite bind_run, !_getElements_eq. cbn [fst document].
  destruct (selectorOrDefault selector) as [s| | |]; try done;
    [destruct (validSelector s); [|done] | |]; by case_bool_decide.
Qed.

Lemma querySelector_scoped (n : NodeId) (sel : jsstring) (w : World) :
  querySelector (Some n) sel w
  = match nodes (document w) !! n with
    | Some _ =>
        (Return (List.head (querySelectorAll (document w) (Some n) sel)), w)
    | None => (Throw NULL_ERROR, w)
    end.
Proof.
  unfold querySelector. destruct (nodes (document w) !! n) as [nd|] eqn:Hn.
  - rewrite bind_run, bind_run, (getNode_Some w n nd Hn). done.
  - apply bind_Throw, bind_Throw. by apply getNode_None.
Qed.

(** The baseline styles are not injected twice. *)
Lemma addBaselineStyles_found (w : World) :
  is_Some (List.head (querySelectorAll (document w)
                        (Some (head (document w))) (str "style.anchorjs"))) →
  snd (_addBaselineStyles w) = w.
Proof.
  intros Hfound. unfold _addBaselineStyles. rewrite bind_run.
  cbn [getDocument]. rewrite bind_run, querySelector_scoped.
  destruct (nodes (document w) !! head (document w)); [|done].
  by rewrite bool_decide_true.
Qed.

Lemma frames_querySelector L el scope sel :
  frames L el (querySelector scope sel) (λ _, True).
Proof.
  apply frames_pure. intros w. destruct scope as [n|].
  - rewrite querySelector_scoped. by destruct (nodes (document w) !! n).
  - by rewrite querySelector_document.
Qed.

Lemma frames_insertRule L el n rule :
  L ≤ n → frames L el (insertRule n rule) (λ _, True).
Proof.
  intros Hn. unfold insertRule.
  eapply frames_bind; [by apply frames_pure|]. intros d _.
  destruct (hasSheet d n); [|by apply frames_pure].
  apply frames_updateNode. by left.
Qed.

(** Whatever its outcome, [_addBaselineStyles] writes to the head and to
    the nodes it creates only, and changes no class. *)
Lemma addBaselineStyles_framed (w : World) :
  framed (head (document w)) (nodes (document w))
         (nodes (document (snd (_addBaselineStyles w)))).
Proof.
  unfold framed.
  set (L := length (nodes (document w))). set (h := head (document w)).
  unfold _addBaselineStyles. rewrite bind_run. cbn [getDocument]. fold h.
  match goal with
  | |- framedFrom _ _ _ (nodes (document (snd (?m w)))) =>
      cut (frames L h m (λ _, True))
  end.
  { intros Hframes. by apply Hframes. }
  eapply frames_bind; [apply frames_querySelector|]. intros existing _.
  case_bool_decide; [by apply frames_pure|].
  eapply frames_bind; [apply frames_createNode|]. intros style Hstyle.
  eapply frames_bind; [by apply frames_setAttribute|]. intros _ _.
  eapply frames_bind; [apply frames_createNode|]. intros text _.
  eapply frames_bind; [apply frames_appendChild; by left|]. intros _ _.
  eapply frames_bind; [apply frames_querySelector|]. intros firstStyleEl _.
  eapply frames_bind; [apply frames_insertBefore|]. intros _ _.
  do 3 (eapply frames_bind; [by apply frames_insertRule | intros _ _]).
  by apply frames_insertRule.
Qed.

(** A scan leaves an anchored element anchored and as it is, whatever the
    outcome of the scan, when the element is not the head of the document
    or the scan finds the baseline styles. *)
Lemma add_keeps_anchored (selector : option Selector) (w : World) (e : NodeId) :
  e ≠ head (document w)
  ∨ is_Some (List.head (querySelectorAll (document w)
                          (Some (head (document w))) (str "style.anchorjs"))) →
  anchoredIn (nodes (document w)) e = Return true →
  nodes (document (snd (add selector w))) !! e = nodes (document w) !! e
  ∧ anchoredIn (nodes (document (snd (add selector w)))) e = Return true.
Proof.
  intros Hhead Ha. rewrite add_eq. cbn zeta.
  set (w0 := withOpts _ w).
  destruct (fst (_getElements (selectorOrDefault selector) w))
    as [elements|err]; [|done].
  case_bool_decide; [done|]. rewrite bind_run.
  assert (anchoredIn (nodes (document (snd (_addBaselineStyles w0)))) e
          = Return true
          ∧ nodes (document (snd (_addBaselineStyles w0))) !! e
            = nodes (document w) !! e) as [Ha1 He1].
  { destruct Hhead as [Hne|Hfound].
    - by apply (anchoredIn_framed (head (document w0)) e _ _ true
                  (addBaselineStyles_framed w0)).
    - by rewrite (addBaselineStyles_found w0 Hfound). }
  destruct (_addBaselineStyles w0) as [[[]|err] wb]; cbn [snd] in Ha1, He1;
    [|done].
  rewrite bind_run. cbn [getDocument]. rewrite bind_run.
  pose proof (addLoop_keeps_anchored elements 0
                (existingIds (document wb), []) wb e Ha1) as [Ha2 He2].
  destruct (addLoop elements 0 _ wb) as [[st|err] wl]; cbn [snd] in Ha2, He2.
  - change (document (snd ((getThis ≫= _) wl))) with (document wl).
    split; [congruence | done].
  - cbn [snd]. split; [congruence | done].
Qed.

(** A scan that returns leaves every element of its batch anchored. *)
Lemma add_anchors_all (selector : option Selector) (w w1 : World)
    (elements : list NodeId) :
  fst (_getElements (selectorOrDefault selector) w) = Return elements →
  add selector w = (Return tt, w1) →
  ∀ e, e ∈ elements → anchoredIn (nodes (document w1)) e = Return true.
Proof.
  intros Hsel Hadd e He. rewrite add_eq, Hsel in Hadd. cbn zeta in Hadd.
  case_bool_decide as Hlen.
  { destruct elements; [by apply elem_of_nil in He | done]. }
  apply bind_Return_inv in Hadd as ([] & wb & _ & Hadd).
  rewrite bind_run in Hadd. cbn [getDocument] in Hadd.
  apply bind_Return_inv in Hadd as (st & wl & Hloop & Hadd).
  injection Hadd as <-. cbn [document].
  exact (addLoop_anchors_all _ _ _ _ _ _ Hloop e He).
Qed.

(** C3: after a scan that returned, a second scan of the same selector,
    whatever its outcome, leaves every element of the first batch, and so
    every element that the first scan anchored, as it is in the store
    (attributes, identifier and children: no second anchor), and still
    anchored.  For the head of the document this needs the second scan to
    find the style block of the first. *)
Theorem second_scan_leaves_anchored_untouched (selector : option Selector)
    (w w1 : World) (elements : list NodeId) (e : NodeId) :
  fst (_getElements (selectorOrDefault selector) w) = Return elements →
  add selector w = (Return tt, w1) →
  e ∈ elements →
  e ≠ head (document w1)
  ∨ is_Some (List.head (querySelectorAll (document w1)
                          (Some (head (document w1))) (str "style.anchorjs"))) →
  nodes (document (snd (add selector w1))) !! e = nodes (document w1) !! e
  ∧ hasAnchorJSLink e (snd (add selector w1))
    = (Return true, snd (add selector w1)).
Proof.
  intros Hsel Hadd He Hhead.
  pose proof (add_anchors_all selector w w1 elements Hsel Hadd e He) as Ha.
  destruct (add_keeps_anchored selector w1 e Hhead Ha) as [He2 Ha2].
  split; [done|]. by rewrite hasAnchorJSLink_eq, Ha2.
Qed.

(** C2: when the identifiers of the document are exactly [intro] and
    [intro-0], the scan of one unanchored heading without [id] and
    without [data-anchor-id], whose slug is [intro], returns and the
    heading has the identifier [intro-1].  (The registry is read after
    the baseline styles are injected, in the world [w1].) *)
Theorem scan_assigns_intro_1 (selector : option Selector) (w w1 : World)
    (el : NodeId) :
  fst (_getElements (selectorOrDefault selector) w) = Return [el] →
  _addBaselineStyles
    (withOpts (_applyRemainingDefaultOptions (opts (this w))) w)
  = (Return tt, w1) →
  (∀ x, x ∈ existingIds (document w1)
        ↔ x = str "intro" ∨ x = str "intro-0") →
  hasAnchorJSLink el w1 = (Return false, w1) →
  hasAttribute el "id" w1 = (Return false, w1) →
  hasAttribute el "data-anchor-id" w1 = (Return false, w1) →
  fst ((text ← textContent el; urlify text) w1) = Return (str "intro") →
  ∃ w', add selector w = (Return tt, w')
        ∧ getAttribute el "id" w' = (Return (Some (str "intro-1")), w').
Proof.
  intros Hsel Hstyles Hids Ha%hasAnchorJSLink_Return
    (nd & Hel & He & Hid)%hasAttribute_Return
    (nd' & Hel' & _ & Hdata)%hasAttribute_Return Hslug.
  simplify_eq. apply not_is_Some_None in Hid, Hdata.
  rewrite (urlify_textContent w1 el nd Hel) in Hslug.
  injection Hslug as Hslug.
  assert (slugOf w1 el ∈ existingIds (document w1)) as Hin.
  { rewrite Hslug. apply Hids. by left. }
  destruct (addElement_suffixed w1 el nd 0 (existingIds (document w1)) []
              Hel He Ha Hid Hdata Hin) as (n & Hn & Hbelow & Hfree & Hadd).
  assert (n = 1) as ->.
  { destruct (decide (n = 1)) as [|Hne]; [done|].
    assert (candidate (slugOf w1 el) 1 ∈ existingIds (document w1)) as H1
      by (apply Hbelow; lia).
    rewrite Hslug in H1. apply Hids in H1. by destruct H1. }
  rewrite Hslug in Hadd.
  change (candidate (str "intro") 1) with (str "intro-1") in Hadd.
  rewrite add_eq, Hsel. cbn zeta. rewrite bool_decide_false by done.
  rewrite (bind_Return _ _ _ _ _ Hstyles).
  rewrite bind_run. cbn [getDocument]. rewrite bind_run.
  cbn [addLoop]. rewrite bind_run, Hadd.
  eexists. split; [reflexivity|].
  by apply (identified_id w1 _ el nd _ Hel He).
Qed.
End scans.

(** ** The theorems at concrete pages *)

Lemma default_visibility_witness :
  visible (truncateOpts (Finite 10)) = None
  ∧ visible (opts (new_Anchor (Some (truncateOpts (Finite 10))))) = Some hover.
Proof.
  split; [reflexivity|].
  apply (proj1 (proj2 default_visibility_by_construction)). reflexivity.
Defined.


Lemma hasAnchorJSLink_without_children_witness :
  nodes (document emptyHeadingWorld) !! 3 = Some (element "h2" [] [])
  ∧ hasAnchorJSLink 3 emptyHeadingWorld = (Throw NULL_ERROR, emptyHeadingWorld).
Proof.
  split; [reflexivity|].
  apply (hasAnchorJSLink_without_children emptyHeadingWorld 3
           (element "h2" [] [])); reflexivity.
Defined.

Lemma add_without_elements_witness :
  fst (_getElements (H := asciiBrowser) (selectorOrDefault None) noHeadingWorld)
  = Return []
  ∧ document (snd (add (H := asciiBrowser) None noHeadingWorld)) = noHeadingPage.
Proof.
  split; [by vm_compute|].
  apply (add_without_elements asciiBrowser None noHeadingWorld). by vm_compute.
Defined.

Lemma urlify_truncates_witness :
  fst (urlify (H := asciiBrowser) (str "hello") halfTruncateWorld) = Return []
  ∧ fst (urlify (H := asciiBrowser) (str "hello")
           (withOpts (_applyRemainingDefaultOptions
                        (opts (this halfTruncateWorld))) halfTruncateWorld))
    = Return (str "hello")
  ∧ fst (urlify (H := asciiBrowser) (str "hello")
           (world (new_Anchor (Some (truncateOpts (Finite (1 # 2)))))
                  noHeadingPage))
    = Return (str "hello").
Proof.
  destruct (urlify_truncates asciiBrowser (str "hello") halfTruncateWorld)
    as (Hdirect & _ & Hdefaulted & _ & _ & Hnew).
  split; [by rewrite Hdirect|]. split; [by rewrite Hdefaulted|].
  by rewrite Hnew.
Defined.

Lemma generated_id_witness :
  ∃ n w', 1 ≤ n
    ∧ (∀ k, 1 ≤ k < n → candidate (str "intro") k ∈ [str "intro"])
    ∧ (candidate (str "intro") n ∉ [str "intro"])
    ∧ addElement (H := asciiBrowser) 4 0 ([str "intro"], []) introWorld
      = (Return ([str "intro"] ++ [candidate (str "intro") n], []), w')
    ∧ getAttribute 4 "id" w' = (Return (Some (candidate (str "intro") n)), w').
Proof.
  apply (generated_id_takes_first_free_suffix (H := asciiBrowser) introWorld);
    [by vm_compute | by vm_compute | by vm_compute | by vm_compute |].
  apply elem_of_cons. by left.
Defined.

Lemma explicit_id_witness :
  (addElement (H := asciiBrowser) 3 0 ([str "foo"], []) emptyIdHeadingWorld
   = (Throw NULL_ERROR, emptyIdHeadingWorld)
   ∧ fst (add (H := asciiBrowser) None emptyIdHeadingWorld) = Throw NULL_ERROR
   ∧ asciiQuerySelectorAll
       (document (snd (add (H := asciiBrowser) None emptyIdHeadingWorld)))
       None (str ".anchorjs-link") = [])
  ∧ ∃ w' anchor hasBase,
      addElement (H := asciiBrowser) 3 0 ([str "foo"; str "foo"], [])
                 explicitIdWorld
      = (Return ([str "foo"; str "foo"], []), w')
      ∧ this w' = this explicitIdWorld
      ∧ fst (getAttribute 3 "id" w') = fst (getAttribute 3 "id" explicitIdWorld)
      ∧ (firstChild 3 w' = (Return (Some anchor), w')
         ∨ lastChild 3 w' = (Return (Some anchor), w'))
      ∧ getAttribute anchor "href" w'
        = (Return (Some (hrefBaseOf (opts (this explicitIdWorld)) hasBase
                           (window (document explicitIdWorld))
                         ++ str "#" ++ str "foo")), w').
Proof.
  split.
  - split; [|split; by vm_compute].
    apply (proj1 (explicit_id_is_reused (H := asciiBrowser)
                    emptyIdHeadingWorld 3 0 [str "foo"] [] (str "foo")
                    (or_introl eq_refl))).
    reflexivity.
  - apply (proj2 (explicit_id_is_reused (H := asciiBrowser) explicitIdWorld
                    3 0 [str "foo"; str "foo"] [] (str "foo")
                    (or_introl eq_refl))).
    by vm_compute.
Defined.

Lemma scan_assigns_intro_1_witness :
  ∃ w', add (H := asciiBrowser) None introWorld0 = (Return tt, w')
        ∧ getAttribute 4 "id" w' = (Return (Some (str "intro-1")), w').
Proof.
  apply (scan_assigns_intro_1 (H := asciiBrowser) None introWorld0
           (snd (_addBaselineStyles (H := asciiBrowser)
                   (withOpts (_applyRemainingDefaultOptions
                                (opts (this introWorld0))) introWorld0)))
           4).
  - by vm_compute.
  - by vm_compute.
  - intros x.
    change (existingIds _) with [str "intro"; str "intro-0"].
    rewrite !elem_of_cons, elem_of_nil. tauto.
  - by vm_compute.
  - by vm_compute.
  - by vm_compute.
  - by vm_compute.
Defined.

Lemma second_scan_witness :
  nodes (document (snd (add (H := asciiBrowser) None
                          (snd (add (H := asciiBrowser) None introWorld)))))
    !! 4
  = nodes (document (snd (add (H := asciiBrowser) None introWorld))) !! 4
  ∧ hasAnchorJSLink 4 (snd (add (H := asciiBrowser) None
                              (snd (add (H := asciiBrowser) None introWorld))))
    = (Return true,
       snd (add (H := asciiBrowser) None
              (snd (add (H := asciiBrowser) None introWorld)))).
Proof.
  apply (second_scan_leaves_anchored_untouched (H := asciiBrowser) None
           introWorld _ [4] 4).
  - by vm_compute.
  - by vm_compute.
  - apply elem_of_cons. by left.
  - left. by vm_compute.
Defined.

(** ** Where the code departs from the specification *)

(** C1, as stated, fails: on a page whose only identifier is [intro], the
    specification's count from 0 gives the heading [intro-0], which is
    free, and the scan gives it [intro-1]. *)
Lemma suffix_counts_from_1 :
  existingIds (H := asciiBrowser) introPage = [str "intro"]
  ∧ slugOf (H := asciiBrowser) introWorld 4 = str "intro"
  ∧ specAssignedId [str "intro"] (str "intro") = Some (str "intro-0")
  ∧ fst (add (H := asciiBrowser) None introWorld) = Return tt
  ∧ fst (getAttribute 4 "id" (snd (add (H := asciiBrowser) None introWorld)))
    = Return (Some (str "intro-1"))
  ∧ fst (getAttribute 4 "id" (snd (add (H := asciiBrowser) None introWorld)))
    ≠ Return (specAssignedId [str "intro"] (str "intro")).
Proof. by vm_compute. Qed.

(** * Further properties *)

(** ** The slug *)

Lemma Forall_collapseHyphens (P : N → Prop) (s : jsstring) :
  Forall P s → Forall P (collapseHyphens s).
Proof.
  induction 1 as [|c s Hc Hs IH]; cbn; [done|].
  destruct (_ && _); [done | by constructor].
Qed.

Lemma Forall_stripHyphensFrom (P : N → Prop) (b : bool) (s : jsstring) :
  Forall P s → Forall P (stripHyphensFrom b s).
Proof.
  intros Hs. revert b. induction Hs as [|c s Hc Hs IH]; intros b; cbn; [done|].
  case_bool_decide; [destruct (b || runEndsLine s)|]; auto.
Qed.

Lemma Forall_substring (P : N → Prop) (s : jsstring) start end_ :
  Forall P s → Forall P (substring s start end_).
Proof. intros Hs. unfold substring. by apply Forall_take, Forall_drop. Qed.

Lemma replaceNonsafe_safe (s : jsstring) :
  Forall (λ c, c ∉ nonsafeChars) (replaceNonsafe s).
Proof.
  unfold replaceNonsafe. apply Forall_fmap, Forall_forall. intros c _. cbn.
  case_bool_decide as Hc; [|done].
  apply (bool_decide_eq_true_1 (HYPHEN ∉ nonsafeChars)). by vm_compute.
Qed.

Lemma tidy_safe (text : jsstring) (t : option number) :
  Forall (λ c, c ∉ nonsafeChars) (tidy text t).
Proof.
  unfold tidy, stripHyphens.
  apply Forall_stripHyphensFrom, Forall_substring, Forall_collapseHyphens,
    replaceNonsafe_safe.
Qed.

Lemma stripHyphensFrom_head (s : jsstring) :
  List.head (stripHyphensFrom true s) ≠ Some HYPHEN.
Proof.
  induction s as [|c s IH]; cbn; [done|].
  case_bool_decide as Hc; [done|]. cbn. by intros [= ->].
Qed.

(** A character that is no hyphen survives the stripping. *)
Lemma stripHyphensFrom_keeps (b : bool) (s : jsstring) (c : N) :
  c ∈ s → c ≠ HYPHEN → c ∈ stripHyphensFrom b s.
Proof.
  intros Hin Hc. revert b. induction s as [|d s IH]; intros b.
  { by apply elem_of_nil in Hin. }
  cbn. apply elem_of_cons in Hin as [->|Hin].
  - rewrite bool_decide_false by done. by left.
  - case_bool_decide; [destruct (b || runEndsLine s)|].
    + by apply IH.
    + right. by apply IH.
    + right. by apply IH.
Qed.

Lemma runEndsLine_false (s : jsstring) :
  runEndsLine s = false → ∃ c, c ∈ s ∧ c ≠ HYPHEN.
Proof.
  unfold runEndsLine. induction s as [|c s IH]; cbn; [done|].
  case_bool_decide as Hc.
  - intros (d & Hd & Hne)%IH. exists d. split; [by right | done].
  - intros _. exists c. split; [by left | done].
Qed.

Lemma stripHyphensFrom_last (b : bool) (s : jsstring) :
  last (stripHyphensFrom b s) ≠ Some HYPHEN.
Proof.
  revert b. induction s as [|c s IH]; intros b; cbn; [done|].
  case_bool_decide as Hc.
  - destruct (b || runEndsLine s) eqn:Hend; [done|].
    apply orb_false_iff in Hend as [_ Hend].
    destruct (runEndsLine_false s Hend) as (d & Hd & Hne).
    pose proof (stripHyphensFrom_keeps false s d Hd Hne) as Hkept.
    destruct (stripHyphensFrom false s) as [|e r] eqn:Hr.
    + by apply elem_of_nil in Hkept.
    + rewrite last_cons_cons. specialize (IH false). by rewrite Hr in IH.
  - destruct (stripHyphensFrom (isLineTerminator c) s) as [|e r] eqn:Hr.
    + cbn. by intros [= ->].
    + rewrite last_cons_cons. specialize (IH (isLineTerminator c)).
      by rewrite Hr in IH.
Qed.

Lemma collapseHyphens_head (s : jsstring) :
  List.head (collapseHyphens s) = Some HYPHEN → List.head s = Some HYPHEN.
Proof.
  destruct s as [|c s]; cbn; [done|].
  do 2 case_bool_decide; cbn; try done; by intros; subst.
Qed.

Lemma collapseHyphens_noDouble (s : jsstring) :
  noDoubleHyphen (collapseHyphens s).
Proof.
  induction s as [|c s IH]; cbn; [done|].
  destruct (_ && _) eqn:Hb; [done|].
  cbn. split; [|done]. intros -> Hh%collapseHyphens_head.
  rewrite Hh in Hb. by rewrite !bool_decide_true in Hb.
Qed.

Lemma noDoubleHyphen_take (n : nat) (s : jsstring) :
  noDoubleHyphen s → noDoubleHyphen (take n s).
Proof.
  revert n. induction s as [|c s IH]; intros [|n]; cbn; try done.
  intros [Hc Hs]. split; [|by apply IH].
  intros ->. specialize (Hc eq_refl).
  destruct s, n; cbn in *; try done.
Qed.

Lemma noDoubleHyphen_drop (n : nat) (s : jsstring) :
  noDoubleHyphen s → noDoubleHyphen (drop n s).
Proof.
  revert s. induction n as [|n IH]; intros [|c s]; cbn; try done.
  intros [_ Hs]. by apply IH.
Qed.

Lemma stripHyphensFrom_noDouble (b : bool) (s : jsstring) :
  noDoubleHyphen s →
  noDoubleHyphen (stripHyphensFrom b s)
  ∧ (List.head (stripHyphensFrom b s) = Some HYPHEN →
     List.head s = Some HYPHEN).
Proof.
  revert b. induction s as [|c s IH]; intros b; cbn; [done|].
  intros [Hc Hs]. case_bool_decide as Hhyphen.
  - specialize (Hc Hhyphen). destruct (b || runEndsLine s).
    + destruct (IH b Hs) as [Hnd Hhead]. split; [done|]. by subst.
    + destruct (IH false Hs) as [Hnd Hhead]. cbn. split; [|by subst].
      split; [|done]. intros _ Hh. by apply Hc, Hhead.
  - destruct (IH (isLineTerminator c) Hs) as [Hnd Hhead]. cbn.
    split; [|by intros [= ->]]. split; [done|done].
Qed.

Lemma tidy_hyphens (text : jsstring) (t : option number) :
  List.head (tidy text t) ≠ Some HYPHEN
  ∧ last (tidy text t) ≠ Some HYPHEN
  ∧ noDoubleHyphen (tidy text t).
Proof.
  unfold tidy, stripHyphens.
  split; [apply stripHyphensFrom_head|]. split; [apply stripHyphensFrom_last|].
  apply stripHyphensFrom_noDouble. unfold substring.
  apply noDoubleHyphen_take, noDoubleHyphen_drop, collapseHyphens_noDouble.
Qed.

Section slug_theorems.
Context `{Browser}.

(** X1: whatever the text and the options, the slug that [urlify] returns
    is the lower-casing of a string without any of the unsafe characters
    (so without spaces, apostrophes, quotes, slashes, ...). *)
Theorem urlify_slug_is_safe (text : jsstring) (w : World) :
  ∃ s, fst (urlify text w) = Return (toLowerCase s)
       ∧ Forall (λ c, c ∉ nonsafeChars) s.
Proof.
  rewrite urlify_eq. eexists. split; [reflexivity|]. apply tidy_safe.
Qed.

(** X2: whatever the text and the options, also after truncation, the slug
    before its lower-casing neither begins nor ends with a hyphen and has no
    two hyphens in a row. *)
Theorem urlify_slug_hyphens (text : jsstring) (w : World) :
  ∃ s, fst (urlify text w) = Return (toLowerCase s)
       ∧ List.head s ≠ Some HYPHEN ∧ last s ≠ Some HYPHEN
       ∧ noDoubleHyphen s.
Proof.
  rewrite urlify_eq. eexists. split; [reflexivity|]. apply tidy_hyphens.
Qed.
End slug_theorems.

(** Text that the pipeline has nothing to do on. *)
Lemma dropWhile_none {A} (p : A → bool) (l : list A) :
  Forall (λ x, p x = false) l → dropWhile p l = l.
Proof. intros [|x l' Hx _]; cbn; [done|]. by rewrite Hx. Qed.

Lemma trim_none (s : jsstring) :
  Forall (λ c, isWhiteSpace c = false) s → trim s = s.
Proof.
  intros Hs. unfold trim. rewrite (dropWhile_none _ s Hs).
  rewrite dropWhile_none by (by apply Forall_reverse).
  apply reverse_involutive.
Qed.

Lemma removeApostrophes_none (s : jsstring) :
  Forall (λ c, c ≠ APOSTROPHE) s → removeApostrophes s = s.
Proof.
  unfold removeApostrophes. induction 1 as [|c s Hc _ IH]; [done|].
  by rewrite filter_cons_True, IH.
Qed.

Lemma replaceNonsafe_none (s : jsstring) :
  Forall (λ c, c ∉ nonsafeChars) s → replaceNonsafe s = s.
Proof.
  unfold replaceNonsafe. induction 1 as [|c s Hc _ IH]; [done|].
  cbn [fmap list_fmap]. rewrite bool_decide_false by done. f_equal. exact IH.
Qed.

Lemma collapseHyphens_none (s : jsstring) :
  Forall (λ c, c ≠ HYPHEN) s → collapseHyphens s = s.
Proof.
  induction 1 as [|c s Hc _ IH]; [done|].
  cbn [collapseHyphens]. rewrite (bool_decide_false (c = HYPHEN)) by done.
  cbn [andb]. by rewrite IH.
Qed.

Lemma stripHyphensFrom_none (b : bool) (s : jsstring) :
  Forall (λ c, c ≠ HYPHEN) s → stripHyphensFrom b s = s.
Proof.
  intros Hs. revert b. induction Hs as [|c s Hc _ IH]; intros b; [done|].
  cbn [stripHyphensFrom]. rewrite (bool_decide_false (c = HYPHEN)) by done.
  by rewrite IH.
Qed.

(** X3: safe text comes back as it is, lower-cased: when the decoded text
    has no unsafe character, no hyphen and no white space and is not
    longer than the cut of the manager, [urlify] returns its
    lower-casing. *)
Theorem urlify_keeps_safe_text (B : Browser) (o : option AnchorOpts)
    (d : Document) (text : jsstring) :
  Forall (λ c, (c ∉ nonsafeChars) ∧ c ≠ HYPHEN ∧ isWhiteSpace c = false)
         (decodeEntities text) →
  match effectiveMaxLength (truncate (default constructorDefault o)) with
  | Some n => length (decodeEntities text) ≤ n
  | None => True
  end →
  fst (urlify text (world (new_Anchor o) d))
  = Return (toLowerCase (decodeEntities text)).
Proof.
  intros Hsafe Hlen. rewrite urlify_constructed. do 2 f_equal.
  assert (APOSTROPHE ∈ nonsafeChars) as Hap.
  { apply (bool_decide_eq_true_1 (APOSTROPHE ∈ nonsafeChars)). by vm_compute. }
  assert (hyphenated text = decodeEntities text) as ->.
  { unfold hyphenated.
    rewrite trim_none by (eapply Forall_impl; [exact Hsafe | by intros c (_ & _ & ?)]).
    rewrite removeApostrophes_none.
    2:{ eapply Forall_impl; [exact Hsafe|]. intros c (Hc & _) ->. done. }
    rewrite replaceNonsafe_none
      by (eapply Forall_impl; [exact Hsafe | by intros c (? & _)]).
    apply collapseHyphens_none.
    eapply Forall_impl; [exact Hsafe | by intros c (_ & ? & _)]. }
  assert (cut (effectiveMaxLength (truncate (default constructorDefault o)))
              (decodeEntities text) = decodeEntities text) as ->.
  { destruct (effectiveMaxLength _) as [n|]; [|done]. by apply take_ge. }
  apply stripHyphensFrom_none.
  eapply Forall_impl; [exact Hsafe | by intros c (_ & ? & _)].
Qed.

(** ** The defaults *)

Lemma orStr_orStr (v : option jsstring) (d : jsstring) :
  orStr (Some (orStr v d)) d = orStr v d.
Proof. destruct v as [[|c s]|]; cbn; by destruct d. Qed.

Lemma truncateDefault_integer (z : Z) :
  truncateDefault (Some (Finite (inject_Z z)))
  = if decide (z = 0%Z) then Finite 64 else Finite (inject_Z z).
Proof.
  unfold truncateDefault. rewrite truthyNum_integer.
  case_bool_decide; destruct (decide (z = 0%Z)); try done.
  unfold negb, Math_floor. by rewrite Qfloor_Z.
Qed.

(** What [truncateDefault] stores is an infinity or an integer. *)
Lemma truncateDefault_shape (t : option number) :
  truncateDefault t = PosInfinity ∨ truncateDefault t = NegInfinity
  ∨ ∃ z, truncateDefault t = Finite (inject_Z z)
         ∧ (z = 0%Z ↔ ∃ q, t = Some (Finite q) ∧ (0 < q)%Q ∧ (q < 1)%Q).
Proof.
  destruct t as [[q| | |]|]; cbn; auto.
  - right; right. destruct (negb (Qeq_bool q 0)) eqn:Hq.
    + exists (Qfloor q). split; [done|].
      apply negb_true_iff in Hq.
      assert (¬ (q == 0)%Q) as Hne.
      { intros Heq%Qeq_bool_iff. congruence. }
      split.
      * intros Hz. exists q. split; [done|].
        destruct (Qlt_le_dec q 0) as [Hneg|Hpos].
        { apply Qfloor_neg in Hneg. lia. }
        split.
        { apply Qle_lteq in Hpos as [?|Heq]; [done|]. by destruct Hne. }
        apply Qnot_le_lt. intros Hge%Qfloor_pos_iff. lia.
      * intros (q' & [= <-] & Hpos & Hlt).
        apply Qfloor_unit; [by apply Qlt_le_weak | by apply Qlt_not_le].
    + exists 64%Z. split; [done|]. split; [done|].
      intros (q' & [= <-] & Hpos & _).
      apply negb_false_iff, Qeq_bool_iff in Hq.
      rewrite Hq in Hpos. by apply Qlt_irrefl in Hpos.
  - right; right. exists 64%Z. split; [done|]. split; [done|].
    by intros (q' & [=] & _).
  - right; right. exists 64%Z. split; [done|]. split; [done|].
    by intros (q' & [=] & _).
Qed.

Lemma defaults_twice (o : AnchorOpts) :
  _applyRemainingDefaultOptions (_applyRemainingDefaultOptions o)
  = _applyRemainingDefaultOptions o
  ↔ truncateDefault (Some (truncateDefault (truncate o)))
    = truncateDefault (truncate o).
Proof.
  split.
  - intros Heq%(f_equal truncate). by injection Heq.
  - intros Heq. unfold _applyRemainingDefaultOptions.
    cbn [icon visible placement ariaLabel class base truncate titleText].
    rewrite !orStr_orStr. f_equal. f_equal. exact Heq.
Qed.

(** X4: the options reach a fixed point with the second defaulting at the
    latest: a third call of [_applyRemainingDefaultOptions] (the code calls
    it in the constructor, in every [add] and in [urlify]) changes nothing. *)
Theorem defaults_stabilise (o : AnchorOpts) :
  _applyRemainingDefaultOptions
    (_applyRemainingDefaultOptions (_applyRemainingDefaultOptions o))
  = _applyRemainingDefaultOptions (_applyRemainingDefaultOptions o).
Proof.
  apply defaults_twice.
  change (truncate (_applyRemainingDefaultOptions o))
    with (Some (truncateDefault (truncate o))).
  destruct (truncateDefault_shape (truncate o)) as [->| [->| (z & -> & _)]];
    [done..|].
  rewrite truncateDefault_integer.
  destruct (decide (z = 0%Z)); [done|].
  rewrite truncateDefault_integer. by destruct (decide (z = 0%Z)).
Qed.

(** X5: one defaulting is a fixed point exactly when [truncate] is not a
    fraction strictly between 0 and 1: such a value is floored to 0 by the
    first call and replaced by 64 by the second. *)
Theorem defaults_idempotent_iff (o : AnchorOpts) :
  _applyRemainingDefaultOptions (_applyRemainingDefaultOptions o)
  = _applyRemainingDefaultOptions o
  ↔ ¬ ∃ q, truncate o = Some (Finite q) ∧ (0 < q)%Q ∧ (q < 1)%Q.
Proof.
  rewrite defaults_twice.
  destruct (truncateDefault_shape (truncate o)) as [Ht| [Ht| (z & Ht & Hz)]].
  - rewrite Ht. split; [|done].
    intros _ (q & Hq & _). rewrite Hq in Ht. unfold truncateDefault in Ht.
    by destruct (truthyNum _).
  - rewrite Ht. split; [|done].
    intros _ (q & Hq & _). rewrite Hq in Ht. unfold truncateDefault in Ht.
    by destruct (truthyNum _).
  - rewrite <- Hz, Ht, truncateDefault_integer.
    destruct (decide (z = 0%Z)) as [->|]; [|done].
    split; [|done]. intros [=].
Qed.

(** ** What a scan never takes away *)

Lemma grows_refl (ns : list Node) : grows ns ns.
Proof. intros n nd Hn. by exists nd. Qed.

Lemma grows_trans (ns1 ns2 ns3 : list Node) :
  grows ns1 ns2 → grows ns2 ns3 → grows ns1 ns3.
Proof.
  intros H12 H23 n nd Hn.
  destruct (H12 n nd Hn) as (nd2 & Hn2 & Hk2 & Ha2 & Hs2 & Hr2 & Hc2).
  destruct (H23 n nd2 Hn2) as (nd3 & Hn3 & Hk3 & Ha3 & Hs3 & Hr3 & Hc3).
  exists nd3. repeat split; [done | congruence | auto | congruence | congruence|].
  by etrans.
Qed.

Lemma grows_app (ns l : list Node) : grows ns (ns ++ l).
Proof.
  intros n nd Hn. exists nd. split; [|done].
  by apply lookup_app_l_Some.
Qed.

(** A write to one node that keeps what [grows] asks for. *)
Lemma grows_insert (ns : list Node) (el : NodeId) (nd nd' : Node) :
  ns !! el = Some nd →
  kind nd' = kind nd →
  (∀ name v, attrGet name (attributes nd) = Some v →
             attrGet name (attributes nd') = Some v) →
  style nd' = style nd → cssRules nd' = cssRules nd →
  childNodes nd `sublist_of` childNodes nd' →
  grows ns (<[el := nd']> ns).
Proof.
  intros Hel Hk Ha Hs Hr Hc n nd0 Hn. destruct (decide (n = el)) as [->|Hne].
  - assert (nd0 = nd) as -> by congruence. exists nd'. split; [|done].
    apply list_lookup_insert_eq. by eapply lookup_lt_Some.
  - exists nd0. split; [|done]. by rewrite list_lookup_insert_ne.
Qed.

Lemma grows_identified (ns : list Node) (el : NodeId) (nd : Node)
    (id : jsstring) :
  ns !! el = Some nd → attrGet "id" (attributes nd) = None →
  grows ns (<[el := withAttribute "id" id nd]> ns).
Proof.
  intros Hel Hid. apply (grows_insert ns el nd); try done.
  intros name v Hv. cbn. rewrite attrGet_attrSet.
  destruct (decide ("id"%string = name)) as [<-|]; [congruence | done].
Qed.

Lemma sublist_placedChildren (o : AnchorOpts) (anchor : NodeId)
    (children : list NodeId) :
  children `sublist_of` placedChildren o anchor children.
Proof.
  unfold placedChildren. case_bool_decide.
  - by apply sublist_cons.
  - by apply sublist_inserts_r.
Qed.

Section growth.
Context `{Browser}.

Lemma grows_anchoredWorld (w : World) (el : NodeId) (nd : Node)
    (elementID : option jsstring) :
  nodes (document w) !! el = Some nd →
  grows (nodes (document w))
        (nodes (document (anchoredWorld w el nd elementID))).
Proof.
  intros Hel. cbn. eapply grows_trans; [apply grows_app|].
  apply (grows_insert _ el nd); try done.
  - by apply lookup_app_l_Some.
  - apply sublist_placedChildren.
Qed.

(** The outcomes of a turn of the scan that returns. *)
Lemma addElement_Return (w w' : World) (el : NodeId) (i : nat)
    (idList : list jsstring) (indexesToDrop : list nat)
    (st' : list jsstring * list nat) :
  addElement el i (idList, indexesToDrop) w = (Return st', w') →
  (anchoredIn (nodes (document w)) el = Return true
   ∧ st' = (idList, indexesToDrop ++ [i]) ∧ w' = w)
  ∨ ∃ nd, nodes (document w) !! el = Some nd ∧ isElement nd = true
      ∧ anchoredIn (nodes (document w)) el = Return false
      ∧ ((∃ v, (attrGet "id" (attributes nd) = Some v
                ∨ (attrGet "id" (attributes nd) = None
                   ∧ attrGet "data-anchor-id" (attributes nd) = Some v))
               ∧ st' = (idList, indexesToDrop)
               ∧ w' = anchoredWorld w el nd (Some v))
         ∨ (attrGet "id" (attributes nd) = None
            ∧ attrGet "data-anchor-id" (attributes nd) = None
            ∧ ∃ id, (id ∉ idList)
                ∧ st' = (idList ++ [id], indexesToDrop)
                ∧ w' = anchoredWorld (identifiedWorld w el nd id) el
                         (withAttribute "id" id nd) (Some id))).
Proof.
  destruct (anchoredIn (nodes (document w)) el) as [[]|e] eqn:Ha.
  - rewrite addElement_anchored by done. intros [= <- <-]. by left.
  - destruct (anchoredIn_Return _ _ _ Ha) as (nd & _ & _ & _ & _ & Hel & _).
    destruct (isElement nd) eqn:He.
    2:{ destruct (hasAttribute_text w el nd "id" Hel He) as (e & Hthrow).
        unfold addElement, determineId.
        rewrite bind_run, hasAnchorJSLink_eq, Ha.
        by erewrite bind_Throw by (by apply bind_Throw). }
    intros Hstep. right. exists nd. do 3 (split; [done|]).
    destruct (attrGet "id" (attributes nd)) as [v|] eqn:Hid.
    { erewrite addElement_reused in Hstep by eauto.
      injection Hstep as <- <-. left. exists v. auto. }
    destruct (attrGet "data-anchor-id" (attributes nd)) as [v|] eqn:Hdata.
    { erewrite addElement_reused in Hstep by eauto.
      injection Hstep as <- <-. left. exists v. auto. }
    destruct (addElement_generated w el nd i idList indexesToDrop
                Hel He Ha Hid Hdata) as (id & Hloop & Heq).
    rewrite Heq in Hstep. injection Hstep as <- <-.
    right. do 2 (split; [done|]). exists id. split; [|done].
    destruct (collisionLoop_result idList (slugOf w el)) as (r & Hr & Hfree & _).
    congruence.
  - by rewrite (addElement_throws w el i _ e Ha).
Qed.

(** Whatever its outcome, a turn of the scan takes nothing away. *)
Lemma addElement_grows (w : World) (el : NodeId) (i : nat)
    (st : list jsstring * list nat) :
  grows (nodes (document w)) (nodes (document (snd (addElement el i st w)))).
Proof.
  destruct st as [idList indexesToDrop].
  destruct (anchoredIn (nodes (document w)) el) as [[]|e] eqn:Ha.
  - rewrite addElement_anchored by done. apply grows_refl.
  - destruct (anchoredIn_Return _ _ _ Ha) as (nd & _ & _ & _ & _ & Hel & _).
    destruct (isElement nd) eqn:He.
    2:{ destruct (hasAttribute_text w el nd "id" Hel He) as (e & Hthrow).
        unfold addElement, determineId.
        rewrite bind_run, hasAnchorJSLink_eq, Ha.
        erewrite bind_Throw by (by apply bind_Throw). apply grows_refl. }
    destruct (attrGet "id" (attributes nd)) as [v|] eqn:Hid.
    { erewrite addElement_reused by eauto. by apply grows_anchoredWorld. }
    destruct (attrGet "data-anchor-id" (attributes nd)) as [v|] eqn:Hdata.
    { erewrite addElement_reused by eauto. by apply grows_anchoredWorld. }
    destruct (addElement_generated w el nd i idList indexesToDrop
                Hel He Ha Hid Hdata) as (id & _ & ->).
    eapply grows_trans; [by apply (grows_identified _ el nd id)|].
    apply (grows_anchoredWorld (identifiedWorld w el nd id)).
    cbn. apply list_lookup_insert_eq. by eapply lookup_lt_Some.
  - rewrite (addElement_throws w el i _ e Ha). apply grows_refl.
Qed.

Lemma addLoop_grows (elements : list NodeId) (i : nat)
    (st : list jsstring * list nat) (w : World) :
  grows (nodes (document w)) (nodes (document (snd (addLoop elements i st w)))).
Proof.
  revert i st w. induction elements as [|el rest IH]; intros i st w.
  { apply grows_refl. }
  cbn [addLoop]. rewrite bind_run.
  pose proof (addElement_grows w el i st) as Hstep.
  destruct (addElement el i st w) as [[st1|err] w1]; [|done].
  eapply grows_trans; [exact Hstep | apply IH].
Qed.
End growth.

(** ** The baseline styles *)

Lemma insertBeforeIn_Some (new ref : NodeId) (l l' : list NodeId) :
  insertBeforeIn new ref l = Some l'
  ↔ ∃ pre post, l = pre ++ ref :: post ∧ (ref ∉ pre)
                ∧ l' = pre ++ new :: ref :: post.
Proof.
  revert l'. induction l as [|c l IH]; intros l'; cbn.
  { split; [done|]. intros (pre & post & Hl & _). by destruct pre. }
  destruct (decide (c = ref)) as [->|Hne].
  - split.
    + intros [= <-]. exists [], l. split; [done|]. split; [|done].
      apply not_elem_of_nil.
    + intros ([|c pre] & post & Hl & Hpre & ->).
      * by injection Hl as ->.
      * injection Hl as -> _. destruct Hpre. apply elem_of_cons. by left.
  - destruct (insertBeforeIn new ref l) as [l0|] eqn:Hl0; cbn.
    + destruct (proj1 (IH l0) eq_refl) as (pre & post & -> & Hpre & ->).
      split.
      * intros [= <-]. exists (c :: pre), post. split; [done|].
        split; [|done]. rewrite elem_of_cons. by intros [?|?].
      * intros ([|c' pre'] & post' & Hl & Hpre' & ->).
        { by injection Hl as ->. }
        injection Hl as <- Hl. f_equal. f_equal.
        assert (Some (pre ++ new :: ref :: post)
                = Some (pre' ++ new :: ref :: post')) as [= ->]; [|done].
        apply IH. exists pre', post'. split; [done|]. split; [|done].
        intros Hin. apply Hpre'. apply elem_of_cons. by right.
    + split; [done|]. intros ([|c' pre'] & post' & Hl & Hpre' & ->).
      { by injection Hl as ->. }
      injection Hl as <- Hl.
      assert (is_Some (None : option (list NodeId))) as [? [=]].
      exists (pre' ++ new :: ref :: post'). apply IH.
      exists pre', post'. split; [done|]. split; [|done].
      intros Hin. apply Hpre'. apply elem_of_cons. by right.
Qed.

Lemma insertBeforeIn_None (new ref : NodeId) (l : list NodeId) :
  insertBeforeIn new ref l = None ↔ ref ∉ l.
Proof.
  induction l as [|c l IH]; cbn.
  { split; [intros _; apply not_elem_of_nil | done]. }
  rewrite not_elem_of_cons. destruct (decide (c = ref)) as [->|Hne].
  - split; [done | by intros [? _]].
  - rewrite fmap_None, IH. split; [by split | by intros [_ ?]].
Qed.

Section baseline.
Context `{Browser}.

Lemma baselineWorld_head (w : World) (hd : Node) :
  nodes (document w) !! head (document w) = Some hd →
  nodes (document (baselineWorld w)) !! head (document w) = Some hd.
Proof. intros Hhd. cbn. by apply lookup_app_l_Some. Qed.

(** [insertRule] on the node [nd] at [n]. *)
Lemma insertRule_sheet (w : World) (ns : list Node) (n : NodeId) (nd : Node)
    (rule : jsstring) :
  n < length ns →
  insertRule n rule (withNodes (<[n := nd]> ns) w)
  = (Return tt,
     withNodes
       (<[n := applyIf (hasSheet (document (withNodes (<[n := nd]> ns) w)) n)
                       (withRule rule) nd]> ns) w).
Proof.
  intros Hn. unfold insertRule. rewrite bind_run. cbn [getDocument].
  destruct (hasSheet _ n); [|done].
  rewrite (updateNode_Some _ n nd)
    by (cbn [withNodes nodes document]; by apply list_lookup_insert_eq).
  cbn [applyIf withNodes nodes document this head window].
  by rewrite list_insert_insert_eq.
Qed.

(** [insertRule] writes to the rules of the node only. *)
Lemma sheetRules_fields (w : World) (ns : list Node) (n : NodeId) (nd : Node)
    (rules : list jsstring) :
  withCssRules [] (sheetRules w ns n nd rules) = withCssRules [] nd.
Proof.
  revert nd. induction rules as [|rule rest IH]; intros nd; [done|].
  cbn [sheetRules]. rewrite IH. by destruct (hasSheet _ n).
Qed.

Lemma sheetRules_sublist (w : World) (ns : list Node) (n : NodeId) (nd : Node)
    (rules : list jsstring) :
  ∃ R, R `sublist_of` rules
       ∧ cssRules (sheetRules w ns n nd rules) = cssRules nd ++ R.
Proof.
  revert nd. induction rules as [|rule rest IH]; intros nd.
  { exists []. by rewrite app_nil_r. }
  cbn [sheetRules].
  destruct (IH (applyIf (hasSheet (document (withNodes (<[n := nd]> ns) w)) n)
                        (withRule rule) nd)) as (R & HR & ->).
  destruct (hasSheet _ n); cbn [applyIf withRule cssRules].
  - exists (rule :: R). split; [by apply sublist_skip|].
    by rewrite <- app_assoc.
  - exists R. split; [by apply sublist_cons | done].
Qed.

(** The rules that are added when the node has a sheet, or has none,
    whatever rules it holds. *)
Lemma sheetRules_const (w : World) (ns : list Node) (n : NodeId) (nd : Node)
    (rules : list jsstring) (b : bool) :
  (∀ R, hasSheet (document (withNodes (<[n := withCssRules R nd]> ns) w)) n
        = b) →
  cssRules (sheetRules w ns n nd rules)
  = cssRules nd ++ (if b then rules else []).
Proof.
  revert nd. induction rules as [|rule rest IH]; intros nd Hb.
  { destruct b; by rewrite app_nil_r. }
  cbn [sheetRules].
  assert (withCssRules (cssRules nd) nd = nd) as Hnd by (by destruct nd).
  pose proof (Hb (cssRules nd)) as Hb0. rewrite Hnd in Hb0. rewrite Hb0.
  rewrite IH.
  - destruct b; cbn [applyIf withRule cssRules]; [|done].
    by rewrite <- app_assoc.
  - intros R. destruct b; exact (Hb R).
Qed.

Lemma alter_insert {A} (f : A → A) (l : list A) (i : nat) (x : A) :
  alter f i (<[i := x]> l) = <[i := f x]> l.
Proof.
  revert i. induction l as [|y l IH]; intros [|i]; cbn; try done.
  f_equal. apply IH.
Qed.

(** The outcome of [_addBaselineStyles] when the head has no
    [style.anchorjs] yet. *)
Lemma addBaselineStyles_eq (w : World) (hd : Node) :
  let L := length (nodes (document w)) in
  let h := head (document w) in
  nodes (document w) !! h = Some hd →
  List.head (querySelectorAll (document w) (Some h) (str "style.anchorjs"))
  = None →
  _addBaselineStyles w
  = match
      match List.head (querySelectorAll (document (baselineWorld w)) (Some h)
                         STYLESHEET_OR_STYLE) with
      | Some r => insertBeforeIn L r (childNodes hd)
      | None => Some (childNodes hd ++ [L])
      end
    with
    | Some l =>
        (Return tt,
         withNodes (<[L := baselineStyle w l hd]>
                      (<[h := withChildren l hd]>
                         (nodes (document (baselineWorld w))))) w)
    | None => (Throw (DOMException "NotFoundError"), baselineWorld w)
    end.
Proof.
  intros L h Hhd Hnone.
  assert (h < L) as Hlt by (by eapply lookup_lt_Some).
  unfold _addBaselineStyles. rewrite bind_run. cbn [getDocument]. fold h.
  rewrite bind_run, querySelector_scoped. fold h. rewrite Hhd, Hnone.
  rewrite bool_decide_false by apply is_Some_None.
  rewrite bind_run. unfold createElement. rewrite createNode_eq. fold L.
  rewrite bind_run, (setAttribute_fresh w _ "class") by done.
  rewrite bind_run. unfold createTextNode. rewrite createNode_eq.
  set (style0 := withAttribute "class" (str "anchorjs")
                   (newNode (ElementNode (str "style")))).
  set (text0 := newNode (TextNode [])).
  assert (withNodes
            (nodes (document (withNodes (nodes (document w) ++ [style0]) w))
             ++ [text0])
            (withNodes (nodes (document w) ++ [style0]) w)
          = withNodes (nodes (document w) ++ [style0; text0]) w) as ->.
  { unfold withNodes. cbn. by rewrite <- app_assoc. }
  rewrite bind_run.
  assert (appendChild L
            (length (nodes (document
               (withNodes (nodes (document w) ++ [style0]) w))))
            (withNodes (nodes (document w) ++ [style0; text0]) w)
          = (Return tt, baselineWorld w)) as ->.
  { unfold appendChild.
    rewrite (updateNode_Some _ L style0).
    2:{ cbn. by rewrite lookup_app_r, Nat.sub_diag by done. }
    f_equal. unfold baselineWorld, withNodes. cbn. fold L. f_equal. f_equal.
    rewrite insert_app_r_alt, Nat.sub_diag by done. cbn.
    rewrite length_app. cbn. by rewrite Nat.add_1_r. }
  rewrite bind_run, querySelector_scoped.
  change (head (document (baselineWorld w))) with h.
  pose proof (baselineWorld_head w hd Hhd) as Hhd1. fold h in Hhd1.
  rewrite Hhd1.
  assert (nodes (document (baselineWorld w)) !! L
          = Some (newBaselineStyle (S L))) as HL.
  { cbn. by rewrite lookup_app_r, Nat.sub_diag by done. }
  set (ns1 := nodes (document (baselineWorld w))) in *.
  assert (∀ l, (insertRule L linkRule;;
                insertRule L hoverRule;;
                insertRule L pseudoElContent;;
                insertRule L anchorjsLinkFontFace)
                 (withNodes (<[h := withChildren l hd]> ns1) (baselineWorld w))
               = (Return tt,
                  withNodes (<[L := baselineStyle w l hd]>
                               (<[h := withChildren l hd]> ns1)) w)) as Hrules.
  { intros l. set (N0 := <[h := withChildren l hd]> ns1).
    assert (L < length N0) as HL0.
    { unfold N0. rewrite length_insert. by eapply lookup_lt_Some. }
    assert (withNodes N0 (baselineWorld w)
            = withNodes (<[L := newBaselineStyle (S L)]> N0) w) as ->.
    { rewrite list_insert_id; [done|]. unfold N0.
      by rewrite list_lookup_insert_ne by lia. }
    rewrite bind_run, (insertRule_sheet w N0 L) by done.
    rewrite bind_run, (insertRule_sheet w N0 L) by done.
    rewrite bind_run, (insertRule_sheet w N0 L) by done.
    by rewrite (insertRule_sheet w N0 L) by done. }
  destruct (List.head (querySelectorAll (document (baselineWorld w)) (Some h)
                         STYLESHEET_OR_STYLE)) as [r|].
  - rewrite bind_run. cbn [insertBefore]. rewrite bind_run.
    rewrite (getNode_Some _ h hd) by (by apply baselineWorld_head).
    destruct (insertBeforeIn L r (childNodes hd)) as [l|]; [|done].
    rewrite (updateNode_Some _ h hd) by (by apply baselineWorld_head).
    apply Hrules.
  - rewrite bind_run. cbn [insertBefore]. unfold appendChild.
    rewrite (updateNode_Some _ h hd) by (by apply baselineWorld_head).
    apply Hrules.
Qed.

Lemma withCssRules_ext (R : list jsstring) (a b : Node) :
  withCssRules [] a = withCssRules [] b → withCssRules R a = withCssRules R b.
Proof. unfold withCssRules. intros [= -> -> -> ->]. done. Qed.

(** X6: when the head has no [style.anchorjs] yet and [_addBaselineStyles]
    returns, the store has two more nodes: a style element of class
    [anchorjs] and its empty text node.  The style element holds the link,
    hover, icon-content and font-face rules in this order when the browser
    has given it a sheet, and no rule when it has not ([style.sheet] is
    [null] and the optional calls do nothing); in any case it holds rules
    among these only, in this order.  The style element is a new child of
    the head, right before the first style sheet that the engine finds
    below the head and last when it finds none; nothing else changes. *)
Theorem addBaselineStyles_inserts (w w' : World) (hd : Node) :
  let L := length (nodes (document w)) in
  let h := head (document w) in
  nodes (document w) !! h = Some hd →
  List.head (querySelectorAll (document w) (Some h) (str "style.anchorjs"))
  = None →
  _addBaselineStyles w = (Return tt, w') →
  this w' = this w
  ∧ length (nodes (document w')) = S (S L)
  ∧ (∃ nd, nodes (document w') !! L = Some nd
       ∧ kind nd = ElementNode (str "style")
       ∧ attributes nd = [("class"%string, str "anchorjs")]
       ∧ childNodes nd = [S L]
       ∧ cssRules nd `sublist_of` BASELINE_RULES
       ∧ ((∀ rules, hasSheet (withSheetRules (document w') L rules) L = true) →
          cssRules nd = BASELINE_RULES)
       ∧ ((∀ rules, hasSheet (withSheetRules (document w') L rules) L = false) →
          cssRules nd = []))
  ∧ nodes (document w') !! S L = Some (newNode (TextNode []))
  ∧ (∀ n, n < L → n ≠ h → nodes (document w') !! n = nodes (document w) !! n)
  ∧ ∃ pre post,
      childNodes hd = pre ++ post
      ∧ nodes (document w') !! h = Some (withChildren (pre ++ L :: post) hd)
      ∧ match List.head (querySelectorAll (document (baselineWorld w))
                           (Some h) STYLESHEET_OR_STYLE) with
        | Some r => List.head post = Some r ∧ (r ∉ pre)
        | None => post = []
        end.
Proof.
  intros L h Hhd Hnone. rewrite (addBaselineStyles_eq w hd Hhd Hnone).
  fold L h.
  assert (h < L) as Hlt by (by eapply lookup_lt_Some).
  destruct (match List.head _ with Some r => _ | None => _ end)
    as [l|] eqn:Hl; [|done].
  intros [= <-]. cbn [withNodes this document nodes].
  split; [done|]. split.
  { rewrite !length_insert, length_app. cbn. fold L. lia. }
  split.
  { exists (baselineStyle w l hd). split.
    { apply list_lookup_insert_eq. rewrite length_insert, length_app. cbn.
      fold L. lia. }
    unfold baselineStyle. fold L h.
    set (N0 := <[h := withChildren l hd]> (nodes (document (baselineWorld w)))).
    pose proof (sheetRules_fields w N0 L (newBaselineStyle (S L))
                  BASELINE_RULES) as Hfields.
    split; [exact (f_equal kind Hfields)|].
    split; [exact (f_equal attributes Hfields)|].
    split; [exact (f_equal childNodes Hfields)|].
    split.
    { destruct (sheetRules_sublist w N0 L (newBaselineStyle (S L))
                  BASELINE_RULES) as (R & HR & ->). done. }
    assert (∀ b, (∀ rules,
                    hasSheet
                      (withSheetRules
                         {| nodes := <[L := sheetRules w N0 L
                                              (newBaselineStyle (S L))
                                              BASELINE_RULES]> N0;
                            head := head (document w);
                            window := window (document w) |} L rules) L = b) →
                 cssRules (sheetRules w N0 L (newBaselineStyle (S L))
                             BASELINE_RULES)
                 = if b then BASELINE_RULES else []) as Hconst.
    { intros b Hb.
      rewrite (sheetRules_const w N0 L (newBaselineStyle (S L))
                 BASELINE_RULES b); [done|].
      intros R. rewrite <- (Hb R). f_equal.
      unfold withSheetRules, withNodes. cbn [nodes head window document].
      rewrite alter_insert. f_equal. f_equal.
      symmetry. by apply withCssRules_ext. }
    split; [exact (Hconst true) | exact (Hconst false)]. }
  split.
  { rewrite !list_lookup_insert_ne by lia.
    rewrite lookup_app_r by (fold L; lia). fold L.
    by replace (S L - L) with 1 by lia. }
  split.
  { intros n Hn Hne. rewrite !list_lookup_insert_ne by lia.
    apply lookup_app_l. by fold L. }
  assert (∀ l0, <[L:=baselineStyle w l hd]>
                  (<[h:=withChildren l0 hd]>
                     (nodes (document w)
                      ++ [newBaselineStyle (S (length (nodes (document w))));
                          newNode (TextNode [])])) !! h
                = Some (withChildren l0 hd)) as Hh.
  { intros l0. rewrite list_lookup_insert_ne by lia.
    apply list_lookup_insert_eq. rewrite length_app. fold L. lia. }
  revert Hl.
  destruct (List.head (querySelectorAll (document (baselineWorld w)) _ _))
    as [r|]; intros Hl.
  - apply insertBeforeIn_Some in Hl as (pre & post & Hc & Hpre & ->).
    exists pre, (r :: post). by rewrite Hh.
  - injection Hl as <-. exists (childNodes hd), [].
    by rewrite Hh, app_nil_r.
Qed.

(** X7: when the first style sheet that the engine finds below the head is
    not a child of the head, [_addBaselineStyles] throws a NotFoundError
    from [insertBefore], leaving the style element it created out of the
    tree and without rules; and so does every scan of a batch that is not
    empty, before it reaches its first element. *)
Theorem nested_style_sheet_stops_scan (w : World) (hd : Node) (r : NodeId) :
  let h := head (document w) in
  nodes (document w) !! h = Some hd →
  List.head (querySelectorAll (document w) (Some h) (str "style.anchorjs"))
  = None →
  List.head (querySelectorAll (document (baselineWorld w)) (Some h)
               STYLESHEET_OR_STYLE) = Some r →
  r ∉ childNodes hd →
  _addBaselineStyles w
  = (Throw (DOMException "NotFoundError"), baselineWorld w)
  ∧ ∀ selector elements,
      fst (_getElements (selectorOrDefault selector) w) = Return elements →
      elements ≠ [] →
      add selector w
      = (Throw (DOMException "NotFoundError"),
         withOpts (_applyRemainingDefaultOptions (opts (this w)))
                  (baselineWorld w)).
Proof.
  intros h Hhd Hnone Hr Hnot.
  pose proof (proj2 (insertBeforeIn_None (length (nodes (document w))) r
                       (childNodes hd)) Hnot) as Hins.
  split.
  - rewrite (addBaselineStyles_eq w hd Hhd Hnone). fold h.
    by rewrite Hr, Hins.
  - intros selector elements Hsel Hne. rewrite add_eq, Hsel. cbn zeta.
    rewrite bool_decide_false by (by destruct elements).
    set (w0 := withOpts _ w).
    apply bind_Throw.
    rewrite (addBaselineStyles_eq w0 hd Hhd Hnone).
    change (document (baselineWorld w0)) with (document (baselineWorld w)).
    change (head (document w0)) with h.
    change (length (nodes (document w0))) with (length (nodes (document w))).
    by rewrite Hr, Hins.
Qed.
End baseline.

(** ** Whole scans, continued *)

Lemma keepsEls_bind {A B} (m : M A) (f : A → M B) :
  keepsEls m → (∀ a, keepsEls (f a)) → keepsEls (m ≫= f).
Proof.
  intros Hm Hf w. rewrite bind_run. specialize (Hm w).
  destruct (m w) as [[a|e] w1]; [|done].
  cbn [snd] in Hm. by rewrite Hf.
Qed.

Lemma keepsEls_keepsThis {A} (m : M A) : keepsThis m → keepsEls m.
Proof. intros Hm w. by rewrite Hm. Qed.

Section tracking.
Context `{Browser}.

Lemma keepsEls_urlify (text : jsstring) : keepsEls (urlify text).
Proof.
  intros w. rewrite urlify_eq. cbn zeta.
  by destruct (truthyOptNum (truncate (opts (this w)))).
Qed.

Lemma keepsEls_addElement (el : NodeId) (i : nat)
    (st : list jsstring * list nat) : keepsEls (addElement el i st).
Proof.
  destruct st as [idList indexesToDrop]. unfold addElement.
  apply keepsEls_bind; [apply keepsEls_keepsThis; keeps_this|].
  intros []; [by intros w|].
  apply keepsEls_bind.
  { unfold determineId.
    apply keepsEls_bind; [apply keepsEls_keepsThis; keeps_this|].
    intros []; [apply keepsEls_keepsThis; keeps_this|].
    apply keepsEls_bind; [apply keepsEls_keepsThis; keeps_this|].
    intros []; [apply keepsEls_keepsThis; keeps_this|].
    apply keepsEls_bind; [|by intros r w].
    unfold generateId.
    apply keepsEls_bind; [apply keepsEls_keepsThis; keeps_this|].
    intros text. apply keepsEls_bind; [apply keepsEls_urlify|].
    intros tidyText. destruct (collisionLoop _ _ _ _ _ _); [|by intros w].
    apply keepsEls_keepsThis. keeps_this. }
  intros r. apply keepsEls_bind.
  { apply keepsEls_keepsThis, keepsThis_buildAnchor. }
  intros anchor. apply keepsEls_bind; [|by intros _ w].
  apply keepsEls_keepsThis, keepsThis_placeAnchor.
Qed.

Lemma keepsEls_addLoop (elements : list NodeId) (i : nat)
    (st : list jsstring * list nat) : keepsEls (addLoop elements i st).
Proof.
  revert i st. induction elements as [|el rest IH]; intros i st; [by intros w|].
  cbn [addLoop]. apply keepsEls_bind; [apply keepsEls_addElement|].
  intros st1. apply IH.
Qed.


(** X9: a scan that throws tracks none of its elements, the ones that it
    anchored before the throw included: [els] is as before. *)
Theorem failed_scan_tracks_nothing (selector : option Selector) (w : World)
    (e : Error) :
  fst (add selector w) = Throw e →
  els (this (snd (add selector w))) = els (this w).
Proof.
  rewrite add_eq. cbn zeta. set (w0 := withOpts _ w).
  destruct (fst (_getElements (selectorOrDefault selector) w))
    as [elements|err]; [|done].
  case_bool_decide; [done|]. rewrite bind_run.
  pose proof (keepsThis_addBaselineStyles w0) as Hb.
  destruct (_addBaselineStyles w0) as [[[]|err] wb]; cbn [snd] in Hb;
    [|intros _; cbn [snd]; by rewrite Hb].
  rewrite bind_run. cbn [getDocument]. rewrite bind_run.
  pose proof (keepsEls_addLoop elements 0 (existingIds (document wb), []) wb)
    as Hl.
  destruct (addLoop elements 0 _ wb) as [[st|err] wl]; cbn [snd] in Hl;
    [done|].
  intros _. cbn [snd]. by rewrite Hl, Hb.
Qed.
End tracking.

(** ** The identifiers of one scan *)

Section identifiers.
Context `{Browser}.

(** After a turn that generated the identifier [id], the element carries
    it. *)
Lemma identified_attribute (w : World) (el : NodeId) (nd : Node)
    (id : jsstring) :
  nodes (document w) !! el = Some nd →
  ∃ nd', nodes (document (anchoredWorld (identifiedWorld w el nd id) el
                            (withAttribute "id" id nd) (Some id))) !! el
         = Some nd'
         ∧ attrGet "id" (attributes nd') = Some id.
Proof.
  intros Hel.
  assert (nodes (document (identifiedWorld w el nd id)) !! el
          = Some (withAttribute "id" id nd)) as Hel'.
  { cbn. apply list_lookup_insert_eq. by eapply lookup_lt_Some. }
  eexists. split; [by apply anchoredWorld_element|].
  cbn. rewrite attrGet_attrSet. by destruct (decide _).
Qed.

(** X10: the identifiers that a scan loop generates are new and distinct:
    the registry it returns is the registry it was given followed by
    identifiers that are not in that registry, without a repetition, and
    each of which is the [id] attribute of an element of the batch when the
    loop ends. *)
Theorem scan_identifiers_are_fresh (elements : list NodeId) (i : nat)
    (idList idList' : list jsstring) (indexesToDrop indexesToDrop' : list nat)
    (w w' : World) :
  addLoop elements i (idList, indexesToDrop) w
  = (Return (idList', indexesToDrop'), w') →
  ∃ new, idList' = idList ++ new ∧ NoDup new
         ∧ (∀ x, x ∈ new → x ∉ idList)
         ∧ ∀ x, x ∈ new →
             ∃ e nd, e ∈ elements ∧ nodes (document w') !! e = Some nd
                     ∧ attrGet "id" (attributes nd) = Some x.
Proof.
  revert i idList indexesToDrop w.
  induction elements as [|el rest IH]; intros i idList indexesToDrop w Hloop.
  { injection Hloop as <- <- <-. exists []. rewrite app_nil_r.
    split; [done|]. split; [constructor|].
    split; intros x Hx; by apply elem_of_nil in Hx. }
  cbn [addLoop] in Hloop.
  apply bind_Return_inv in Hloop as ([idList1 drop1] & w1 & Hstep & Hrest).
  destruct (IH _ _ _ _ Hrest) as (new & -> & Hnodup & Hfresh & Hattr).
  assert (∀ x, x ∈ new →
            ∃ e nd, e ∈ el :: rest ∧ nodes (document w') !! e = Some nd
                    ∧ attrGet "id" (attributes nd) = Some x) as Hattr'.
  { intros x Hx. destruct (Hattr x Hx) as (e & nd & He & Hnd).
    exists e, nd. split; [|done]. apply elem_of_cons. by right. }
  apply addElement_Return in Hstep
    as [(_ & [= -> _] & _) | (nd & Hel & He & _ & Hcase)].
  { by exists new. }
  destruct Hcase as [(v & _ & [= -> _] & _) | (_ & _ & id & Hid & [= -> _] & ->)].
  { by exists new. }
  exists (id :: new). split; [by rewrite <- app_assoc|].
  split.
  { constructor; [|done]. intros Hin%Hfresh. apply Hin, elem_of_app.
    right. apply elem_of_cons. by left. }
  split.
  { intros x [->|Hx]%elem_of_cons; [done|].
    intros Hin. apply (Hfresh x Hx), elem_of_app. by left. }
  intros x [->|Hx]%elem_of_cons; [|by apply Hattr'].
  destruct (identified_attribute w el nd id Hel) as (nd1 & Hnd1 & Hid1).
  pose proof (addLoop_grows rest (S i) (idList ++ [id], drop1)
                (anchoredWorld (identifiedWorld w el nd id) el
                   (withAttribute "id" id nd) (Some id))) as Hgrows.
  rewrite Hrest in Hgrows. cbn [snd] in Hgrows.
  destruct (Hgrows el nd1 Hnd1) as (nd2 & Hnd2 & _ & Hattr2 & _).
  exists el, nd2. split; [apply elem_of_cons; by left|]. split; [done|].
  by apply Hattr2.
Qed.
End identifiers.

(** ** The elements that a scan tracks *)

Lemma spliceLoop_app (d1 d2 : list nat) (i : nat) (l : list NodeId) :
  spliceLoop (d1 ++ d2) i l = spliceLoop d2 (i + length d1) (spliceLoop d1 i l).
Proof.
  revert i l. induction d1 as [|ix d1 IH]; intros i l; cbn.
  { by rewrite Nat.add_0_r. }
  rewrite IH. f_equal. lia.
Qed.

Lemma filter_ext_elem {A} (P Q : A → Prop) `{∀ x, Decision (P x)}
    `{∀ x, Decision (Q x)} (l : list A) :
  (∀ x, x ∈ l → P x ↔ Q x) → filter P l = filter Q l.
Proof.
  induction l as [|x l IH]; intros Hl; [done|].
  rewrite !filter_cons.
  rewrite IH by (intros y Hy; apply Hl, elem_of_cons; by right).
  assert (P x ↔ Q x) as Hx by (apply Hl, elem_of_cons; by left).
  destruct (decide (P x)), (decide (Q x)); tauto.
Qed.

Section kept.
Context `{Browser}.

(** The elements that [spliceLoop] leaves of a batch without repetition,
    each of whose elements [hasAnchorJSLink] can be asked about: those that
    were unanchored before the loop.  [pre] is the part of the batch that
    the loop has behind it, of which [kept] remains. *)
Lemma addLoop_kept (elements pre kept : list NodeId) (idList : list jsstring)
    (indexesToDrop : list nat) (w w' : World)
    (st' : list jsstring * list nat) :
  length indexesToDrop + length kept = length pre →
  (∀ rest, spliceLoop indexesToDrop 0 (pre ++ rest) = kept ++ rest) →
  NoDup elements →
  (∀ e, e ∈ elements → ∃ b, anchoredIn (nodes (document w)) e = Return b) →
  addLoop elements (length pre) (idList, indexesToDrop) w = (Return st', w') →
  spliceLoop (snd st') 0 (pre ++ elements)
  = kept ++ filter (λ e, unanchoredIn (nodes (document w)) e = true) elements.
Proof.
  revert pre kept idList indexesToDrop w.
  induction elements as [|el rest IH];
    intros pre kept idList indexesToDrop w Hlen Hsplice Hnodup Hret Hloop.
  { injection Hloop as <- _. cbn [snd]. by rewrite Hsplice. }
  cbn [addLoop] in Hloop.
  apply bind_Return_inv in Hloop as ([idList1 drop1] & w1 & Hstep & Hrest).
  apply NoDup_cons in Hnodup as [Hnot Hnodup].
  pose proof (addElement_framed w el (length pre) (idList, indexesToDrop))
    as [Hframe _].
  rewrite Hstep in Hframe. cbn [snd] in Hframe.
  assert (∀ e, e ∈ rest →
            anchoredIn (nodes (document w1)) e
            = anchoredIn (nodes (document w)) e) as Hsame.
  { intros e He. destruct (Hret e) as [b Hb]; [apply elem_of_cons; by right|].
    rewrite Hb.
    apply (anchoredIn_framed el e _ _ b Hframe); [|done]. by intros ->. }
  assert (∀ e, e ∈ rest → ∃ b, anchoredIn (nodes (document w1)) e = Return b)
    as Hret1.
  { intros e He. rewrite Hsame by done. apply Hret, elem_of_cons. by right. }
  replace (S (length pre)) with (length (pre ++ [el])) in Hrest
    by (rewrite length_app; cbn; lia).
  assert (filter (λ e, unanchoredIn (nodes (document w)) e = true) rest
          = filter (λ e, unanchoredIn (nodes (document w1)) e = true) rest)
    as Hfilter.
  { apply filter_ext_elem. intros e He. unfold unanchoredIn.
    by rewrite Hsame. }
  rewrite cons_middle, app_assoc.
  apply addElement_Return in Hstep
    as [(Ha & [= -> ->] & ->) | (nd & Hel & He & Ha & Hcase)].
  - rewrite filter_cons_False by (unfold unanchoredIn; by rewrite Ha).
    apply (IH _ kept _ _ _ ) in Hrest; try done.
    + rewrite !length_app. cbn. lia.
    + intros rest'. rewrite spliceLoop_app. cbn [spliceLoop].
      rewrite <- app_assoc, Hsplice. cbn.
      replace (length pre - length indexesToDrop) with (length kept) by lia.
      apply delete_middle.
  - assert (drop1 = indexesToDrop) as ->.
    { by destruct Hcase as [(v & _ & [= _ ->] & _)
                           | (_ & _ & id & _ & [= _ ->] & _)]. }
    rewrite filter_cons_True by (unfold unanchoredIn; by rewrite Ha).
    rewrite Hfilter.
    apply (IH _ (kept ++ [el]) _ _ _ ) in Hrest; try done.
    + by rewrite Hrest, <- app_assoc.
    + rewrite !length_app. cbn. lia.
    + intros rest'. by rewrite <- !app_assoc, Hsplice.
Qed.

(** X11: a scan that returns appends to [els] the elements of its batch
    that were unanchored, in their order, and no other; for a batch without
    repetition that does not hold the head of the document (or whose scan
    finds the baseline styles in place), each of whose elements
    [hasAnchorJSLink] can be asked about. *)
Theorem scan_tracks_the_unanchored (selector : option Selector) (w w1 : World)
    (elements : list NodeId) :
  fst (_getElements (selectorOrDefault selector) w) = Return elements →
  NoDup elements →
  (head (document w) ∉ elements)
  ∨ is_Some (List.head (querySelectorAll (document w)
                          (Some (head (document w))) (str "style.anchorjs"))) →
  (∀ e, e ∈ elements → ∃ b, anchoredIn (nodes (document w)) e = Return b) →
  add selector w = (Return tt, w1) →
  els (this w1)
  = els (this w)
    ++ filter (λ e, unanchoredIn (nodes (document w)) e = true) elements.
Proof.
  intros Hsel Hnodup Hhead Hret Hadd. rewrite add_eq, Hsel in Hadd.
  cbn zeta in Hadd. set (w0 := withOpts _ w) in Hadd.
  case_bool_decide as Hlen.
  { destruct elements; [|done]. injection Hadd as <-. cbn.
    by rewrite app_nil_r. }
  apply bind_Return_inv in Hadd as ([] & wb & Hb & Hadd).
  rewrite bind_run in Hadd. cbn [getDocument] in Hadd.
  apply bind_Return_inv in Hadd as (st & wl & Hloop & Hadd).
  injection Hadd as <-. cbn [this els].
  assert (∀ e, e ∈ elements →
            anchoredIn (nodes (document wb)) e
            = anchoredIn (nodes (document w)) e) as Hsame.
  { intros e He. destruct Hhead as [Hne|Hfound].
    - destruct (Hret e He) as [b Hb']. rewrite Hb'.
      pose proof (addBaselineStyles_framed w0) as Hframe.
      rewrite Hb in Hframe. cbn [snd] in Hframe.
      apply (anchoredIn_framed (head (document w0)) e _ _ b Hframe); [|done].
      intros ->. by apply Hne.
    - pose proof (addBaselineStyles_found w0 Hfound) as Hw.
      rewrite Hb in Hw. cbn [snd] in Hw. by rewrite Hw. }
  pose proof (keepsEls_addLoop elements 0 (existingIds (document wb), []) wb)
    as Hels.
  rewrite Hloop in Hels. cbn [snd] in Hels. rewrite Hels.
  pose proof (keepsThis_addBaselineStyles w0) as Hthis.
  rewrite Hb in Hthis. cbn [snd] in Hthis. rewrite Hthis. cbn [w0 withOpts this els].
  f_equal.
  rewrite (filter_ext_elem _
             (λ e, unanchoredIn (nodes (document wb)) e = true) elements).
  2:{ intros e He. unfold unanchoredIn. by rewrite Hsame. }
  apply (addLoop_kept elements [] [] (existingIds (document wb)) [] wb wl st);
    try done.
  intros e He. rewrite Hsame by done. by apply Hret.
Qed.
End kept.

(** ** The anchor of an element *)

Lemma style_anchorNode (o : AnchorOpts) (hasBase isTouch : bool) (win : Window)
    (elementID : option jsstring) :
  style (anchorNode o hasBase isTouch win elementID)
  = (if bool_decide (visible o = Some always) then [OPAQUE] else [])
    ++ (if bool_decide (visible o = Some touch) && isTouch
        then [OPAQUE] else [])
    ++ (if bool_decide (icon o = Some DEFAULT_ICON)
        then ("font"%string, str "1em/1 anchorjs-icons")
             :: (if bool_decide (placement o = Some Placement.left)
                 then [("lineHeight"%string, str "inherit")] else [])
        else []).
Proof.
  unfold anchorNode, labelledAnchor, applyIf.
  destruct (bool_decide (visible o = Some always)),
    (bool_decide (visible o = Some touch) && isTouch),
    (bool_decide (icon o = Some DEFAULT_ICON)),
    (bool_decide (placement o = Some Placement.left)),
    (truthyStr (titleText o)); reflexivity.
Qed.

Section anchor_theorems.
Context `{Browser}.

(** X12: the anchor that [add] builds is given the inline opacity 1 exactly
    when the option [visible] is [always], or is [touch] on a device that
    [isTouchDevice] takes for a touch device; the anchor is the node that
    the store gets. *)
Theorem anchor_is_opaque_iff (elementID : option jsstring) (w : World) :
  let win := window (document w) in
  ∃ nd,
    fst (buildAnchor elementID w) = Return (length (nodes (document w)))
    ∧ nodes (document (snd (buildAnchor elementID w)))
        !! length (nodes (document w)) = Some nd
    ∧ fst (isTouchDevice w) = Return (ontouchstart win || documentTouch win)
    ∧ (OPAQUE ∈ style nd
       ↔ visible (opts (this w)) = Some always
         ∨ (visible (opts (this w)) = Some touch
            ∧ (ontouchstart win || documentTouch win) = true)).
Proof.
  cbn zeta. rewrite buildAnchor_eq. cbn zeta. eexists.
  split; [done|]. split.
  { cbn. by rewrite lookup_app_r, Nat.sub_diag by done. }
  split; [done|].
  rewrite style_anchorNode, !elem_of_app.
  set (isTouch := ontouchstart _ || documentTouch _).
  assert (∀ l : list (string * jsstring),
            OPAQUE ∈ (if bool_decide (icon (opts (this w)) = Some DEFAULT_ICON)
                      then ("font"%string, str "1em/1 anchorjs-icons")
                           :: (if bool_decide (placement (opts (this w))
                                               = Some Placement.left)
                               then [("lineHeight"%string, str "inherit")]
                               else [])
                      else []) → False) as Hrest.
  { intros _. case_bool_decide; [|by intros ?%elem_of_nil].
    intros [[=]|Hin]%elem_of_cons.
    case_bool_decide; [|by apply elem_of_nil in Hin].
    by apply elem_of_cons in Hin as [[=]|?%elem_of_nil]. }
  split.
  - intros [Hin | [Hin | Hin]].
    + case_bool_decide; [by left | by apply elem_of_nil in Hin].
    + destruct (bool_decide (visible (opts (this w)) = Some touch)) eqn:Ht,
        isTouch; cbn in Hin; try by apply elem_of_nil in Hin.
      right. by apply bool_decide_eq_true in Ht.
    + by destruct (Hrest [] Hin).
  - intros [Ha | [Ht Htouch]].
    + left. rewrite bool_decide_true by done. apply elem_of_cons. by left.
    + right; left. rewrite bool_decide_true, Htouch by done.
      apply elem_of_cons. by left.
Qed.

Lemma anchoredWorld_new (w : World) (el : NodeId) (nd : Node)
    (elementID : option jsstring) :
  nodes (document w) !! el = Some nd →
  ∃ a, nodes (document (anchoredWorld w el nd elementID))
         !! length (nodes (document w)) = Some a
       ∧ kind a = ElementNode (str "a") ∧ childNodes a = [].
Proof.
  intros Hel. eexists. split.
  { cbn. rewrite list_lookup_insert_ne.
    - by apply list_lookup_middle.
    - apply lookup_lt_Some in Hel. lia. }
  split; [by rewrite kind_placedNode, kind_anchorNode|].
  unfold placedNode, anchorNode, labelledAnchor, applyIf.
  by repeat case_match.
Qed.

(** X13: a turn of the scan that returns, on an element that was
    unanchored, adds one node to the store, an [a] element without
    children, and makes it the first child of the element when the option
    [placement] is [left], and the last child otherwise; the children that
    the element had stay in their order. *)
Theorem anchor_is_placed (w w' : World) (el : NodeId) (nd : Node) (i : nat)
    (idList : list jsstring) (indexesToDrop : list nat)
    (st' : list jsstring * list nat) :
  nodes (document w) !! el = Some nd →
  anchoredIn (nodes (document w)) el = Return false →
  addElement el i (idList, indexesToDrop) w = (Return st', w') →
  let anchor := length (nodes (document w)) in
  length (nodes (document w')) = S anchor
  ∧ (∃ a, nodes (document w') !! anchor = Some a
          ∧ kind a = ElementNode (str "a") ∧ childNodes a = [])
  ∧ ∃ nd', nodes (document w') !! el = Some nd'
           ∧ childNodes nd'
             = if bool_decide (placement (opts (this w)) = Some Placement.left)
               then anchor :: childNodes nd
               else childNodes nd ++ [anchor].
Proof.
  intros Hel Ha Hstep.
  apply addElement_Return in Hstep
    as [(Ha' & _) | (nd0 & Hel0 & He & _ & Hcase)]; [congruence|].
  assert (nd0 = nd) as -> by congruence.
  destruct Hcase as [(v & _ & _ & ->) | (_ & _ & id & _ & _ & ->)]; cbn zeta.
  - split; [by apply anchoredWorld_length|].
    split.
    { by apply anchoredWorld_new. }
    eexists. split; [by apply anchoredWorld_element|]. done.
  - assert (nodes (document (identifiedWorld w el nd id)) !! el
            = Some (withAttribute "id" id nd)) as Hel'.
    { cbn. apply list_lookup_insert_eq. by eapply lookup_lt_Some. }
    assert (length (nodes (document (identifiedWorld w el nd id)))
            = length (nodes (document w))) as Hlen.
    { cbn. by rewrite length_insert. }
    assert (placement (opts (this (identifiedWorld w el nd id)))
            = Some Placement.left
            ↔ placement (opts (this w)) = Some Placement.left) as Hpl.
    { cbn. unfold afterUrlify. destruct (truthyOptNum _); [done|]. cbn.
      destruct (placement (opts (this w))) as [[]|]; cbn; split; congruence. }
    split; [by rewrite anchoredWorld_length, Hlen|].
    split.
    { rewrite <- Hlen. by apply anchoredWorld_new. }
    eexists. split; [by apply anchoredWorld_element|].
    cbn [withChildren childNodes]. unfold placedChildren. rewrite Hlen.
    cbn [withAttribute childNodes].
    by rewrite (bool_decide_ext _ _ Hpl).
Qed.
End anchor_theorems.

(** ** [remove] *)


Lemma removeFirst_snoc (x : NodeId) (l : list NodeId) :
  x ∉ l → removeFirst x (l ++ [x]) = l.
Proof.
  induction l as [|y l IH]; cbn; intros Hx.
  { by destruct (decide (x = x)). }
  apply not_elem_of_cons in Hx as [Hne Hx].
  destruct (decide (y = x)); [congruence|]. by rewrite IH.
Qed.

(** Dropping the element at the index that [indexOf] gives is dropping
    its first occurrence. *)
Lemma elsIndexOf_delete (l : list NodeId) (el : NodeId) :
  match elsIndexOf l el with
  | Some index => delete index l
  | None => l
  end = removeFirst el l.
Proof.
  unfold elsIndexOf. induction l as [|y l IH]; [done|].
  cbn. destruct (decide (y = el)) as [->|Hne]; [done|].
  rewrite <- IH. by destruct (list_find _ l) as [[ix z]|].
Qed.




Section removal.
Context `{Browser}.

(** The outcome of one turn of the loop of [remove] on a live element. *)
Lemma removeElement_eq (w : World) (el : NodeId) (nd : Node) :
  nodes (document w) !! el = Some nd → isElement nd = true →
  removeElement el w
  = match List.head (querySelectorAll (document w) (Some el)
                       (str ".anchorjs-link")) with
    | None => (Return tt, w)
    | Some a =>
        if bool_decide (a ∈ childNodes nd)
        then (Return tt,
              withNodes (<[el := withChildren (removeFirst a (childNodes nd))
                                   nd]> (nodes (document w)))
                        (withEls (removeFirst el (els (this w))) w))
        else (Throw (DOMException "NotFoundError"),
              withEls (removeFirst el (els (this w))) w)
    end.
Proof.
  intros Hel He. unfold removeElement, elementQuerySelector.
  rewrite bind_run, bind_run, (getElement_Some w el nd Hel He).
  rewrite bind_run. cbn [getDocument]. cbn [mret M_ret].
  destruct (List.head _) as [a|]; [|done].
  rewrite bind_run. cbn [getThis]. rewrite bind_run.
  assert ((match elsIndexOf (els (this w)) el with
           | Some index => setEls (delete index (els (this w)))
           | None => mret tt
           end) w
          = (Return tt, withEls (removeFirst el (els (this w))) w)) as ->.
  { rewrite <- elsIndexOf_delete.
    destruct (elsIndexOf (els (this w)) el); [done|].
    unfold withEls. by destruct w as [[] ?]. }
  unfold removeChild. rewrite bind_run.
  rewrite (getNode_Some _ el nd) by done.
  case_bool_decide; [|done].
  by rewrite (updateNode_Some _ el nd).
Qed.




Lemma remove_eq (selector : Selector) (w : World) :
  remove selector w
  = match fst (_getElements selector w) with
    | Return elements => removeLoop elements w
    | Throw e => (Throw e, w)
    end.
Proof.
  unfold remove. rewrite bind_run, _getElements_eq.
  by destruct selector.
Qed.


(** X15: [remove] takes back the anchor of a turn of the scan, but not its
    identifier.  After a turn of the scan that returned on an unanchored
    element whose children are in the store, a turn of [remove] on the
    element, for which the engine finds the new anchor, returns and leaves
    the element with the children it had before the scan, and with its
    attributes after the scan; every other node of the former store is as
    before the scan, and the element is dropped from [els] once. *)
Theorem remove_takes_back_the_anchor (w w1 : World) (el : NodeId) (nd : Node)
    (i : nat) (idList : list jsstring) (indexesToDrop : list nat)
    (st1 : list jsstring * list nat) :
  nodes (document w) !! el = Some nd →
  anchoredIn (nodes (document w)) el = Return false →
  (∀ c, c ∈ childNodes nd → c < length (nodes (document w))) →
  addElement el i (idList, indexesToDrop) w = (Return st1, w1) →
  List.head (querySelectorAll (document w1) (Some el) (str ".anchorjs-link"))
  = Some (length (nodes (document w))) →
  ∃ w2 nd1,
    removeElement el w1 = (Return tt, w2)
    ∧ nodes (document w1) !! el = Some nd1
    ∧ nodes (document w2) !! el = Some (withChildren (childNodes nd) nd1)
    ∧ (∀ n, n ≠ el → n < length (nodes (document w)) →
         nodes (document w2) !! n = nodes (document w) !! n)
    ∧ els (this w2) = removeFirst el (els (this w)).
Proof.
  intros Hel Ha Hlive Hstep Hfound.
  pose proof (keepsEls_addElement el i (idList, indexesToDrop) w) as Hels.
  rewrite Hstep in Hels. cbn [snd] in Hels.
  assert (length (nodes (document w)) ∉ childNodes nd) as Hfresh.
  { intros Hin%Hlive. lia. }
  assert (∀ o, removeFirst (length (nodes (document w)))
                 (placedChildren o (length (nodes (document w)))
                    (childNodes nd)) = childNodes nd) as Hback.
  { intros o. unfold placedChildren. case_bool_decide.
    - cbn. by destruct (decide _).
    - by apply removeFirst_snoc. }
  assert (∀ o, length (nodes (document w))
               ∈ placedChildren o (length (nodes (document w)))
                   (childNodes nd)) as Hin.
  { intros o. unfold placedChildren. case_bool_decide.
    - apply elem_of_cons. by left.
    - apply elem_of_app. right. apply elem_of_cons. by left. }
  apply addElement_Return in Hstep
    as [(Ha' & _) | (nd0 & Hel0 & He & _ & Hcase)]; [congruence|].
  assert (nd0 = nd) as -> by congruence.
  destruct Hcase as [(v & _ & _ & ->) | (_ & _ & id & _ & _ & ->)].
  - pose proof (anchoredWorld_element w el nd (Some v) Hel) as Hel1.
    eexists _, _.
    rewrite (removeElement_eq _ el _ Hel1 He), Hfound.
    cbn [withChildren childNodes]. rewrite bool_decide_true by apply Hin.
    split; [reflexivity|]. split; [exact Hel1|].
    split.
    { cbn [withNodes withEls document nodes].
      rewrite Hback. apply list_lookup_insert_eq. by eapply lookup_lt_Some. }
    split; [|by rewrite <- Hels].
    intros n Hne Hn. cbn [withNodes withEls document nodes].
    rewrite list_lookup_insert_ne by done.
    by apply anchoredWorld_other.
  - assert (nodes (document (identifiedWorld w el nd id)) !! el
            = Some (withAttribute "id" id nd)) as Hel'.
    { cbn. apply list_lookup_insert_eq. by eapply lookup_lt_Some. }
    assert (length (nodes (document (identifiedWorld w el nd id)))
            = length (nodes (document w))) as Hlen.
    { cbn. by rewrite length_insert. }
    pose proof (anchoredWorld_element (identifiedWorld w el nd id) el _
                  (Some id) Hel') as Hel1.
    rewrite Hlen in Hel1. cbn [withAttribute childNodes] in Hel1.
    eexists _, _.
    rewrite (removeElement_eq _ el _ Hel1 He), Hfound.
    cbn [withChildren childNodes]. rewrite bool_decide_true by apply Hin.
    split; [reflexivity|]. split; [exact Hel1|].
    split.
    { cbn [withNodes withEls document nodes].
      rewrite Hback. apply list_lookup_insert_eq. by eapply lookup_lt_Some. }
    split; [|by rewrite <- Hels].
    intros n Hne Hn. cbn [withNodes withEls document nodes].
    rewrite list_lookup_insert_ne by done.
    rewrite anchoredWorld_other by (by rewrite ?Hlen).
    cbn. by rewrite list_lookup_insert_ne.
Qed.

(** X16: [remove] looks for the anchor among all descendants of an element
    but removes it as a child: when the first [.anchorjs-link] that the
    engine finds below the first element of an array is not a child of it,
    [remove] throws a NotFoundError, after it has dropped the element from
    [els] and before it reaches the next element. *)
Theorem remove_of_nested_anchor_throws (w : World) (el a : NodeId) (nd : Node)
    (rest : list NodeId) :
  nodes (document w) !! el = Some nd → isElement nd = true →
  List.head (querySelectorAll (document w) (Some el) (str ".anchorjs-link"))
  = Some a →
  a ∉ childNodes nd →
  remove (SelArray (el :: rest)) w
  = (Throw (DOMException "NotFoundError"),
     withEls (removeFirst el (els (this w))) w).
Proof.
  intros Hel He Hfound Hnot. rewrite remove_eq. cbn [_getElements fst mret M_ret].
  cbn [removeLoop]. apply bind_Throw.
  rewrite (removeElement_eq w el nd Hel He), Hfound.
  by rewrite bool_decide_false.
Qed.

(** X17: [remove] returns without a change when the engine finds no
    [.anchorjs-link] below any of the elements, all of them live; and a
    selector that is neither a string, nor an array, nor a NodeList makes
    [remove] throw the TypeError of [_getElements] without a change, and
    [add] throw it after it has defaulted the options. *)
Theorem remove_without_anchors (w : World) :
  (∀ selector elements,
     fst (_getElements selector w) = Return elements →
     (∀ e, e ∈ elements →
        (∃ nd, nodes (document w) !! e = Some nd ∧ isElement nd = true)
        ∧ querySelectorAll (document w) (Some e) (str ".anchorjs-link") = []) →
     remove selector w = (Return tt, w))
  ∧ remove SelOther w
    = (Throw (TypeError "The selector provided to AnchorJS was invalid."), w)
  ∧ add (Some SelOther) w
    = (Throw (TypeError "The selector provided to AnchorJS was invalid."),
       withOpts (_applyRemainingDefaultOptions (opts (this w))) w).
Proof.
  split; [|split; [done | by rewrite add_eq]].
  intros selector elements Hsel Hnone. rewrite remove_eq, Hsel. clear Hsel.
  induction elements as [|el rest IH]; [done|].
  cbn [removeLoop]. rewrite bind_run.
  destruct (Hnone el) as [(nd & Hel & He) Hq]; [apply elem_of_cons; by left|].
  rewrite (removeElement_eq w el nd Hel He), Hq. cbn [List.head].
  apply IH. intros e He'. apply Hnone, elem_of_cons. by right.
Qed.
End removal.

(** ** The errors of a scan *)

Lemma throwsOnly_bind {A B} P (m : M A) (f : A → M B) :
  throwsOnly P m → (∀ a, throwsOnly P (f a)) → throwsOnly P (m ≫= f).
Proof.
  intros Hm Hf w e. rewrite bind_run. specialize (Hm w).
  destruct (m w) as [[a|e'] w1]; [apply Hf|].
  intros [= <-]. by apply Hm.
Qed.

Lemma throwsOnly_when P b (m : M unit) :
  throwsOnly P m → throwsOnly P (when b m).
Proof. destruct b; [done|]. by intros _ w e. Qed.

Ltac throws_leaf :=
  let H := fresh in
  intros ? ? H;
  cbv [mret M_ret throw getThis getDocument setOpts setEls setNodes fst] in H;
  first [ discriminate H
        | injection H as <-; first [exact I | reflexivity] ].

Ltac throws_only :=
  repeat first
    [ apply throwsOnly_bind; [|intros ?]
    | apply throwsOnly_when
    | match goal with
      | |- ∀ _, throwsOnly _ _ => intros ?
      | |- throwsOnly _ (if ?b then _ else _) => destruct b
      | |- throwsOnly _ (match ?x with _ => _ end) => destruct x
      end
    | throws_leaf ].

Lemma throwsOnly_getNode n : throwsOnly domError (getNode n).
Proof. unfold getNode. throws_only. Qed.

Lemma throwsOnly_getElement n : throwsOnly domError (getElement n).
Proof. unfold getElement, getNode. throws_only. Qed.

Lemma throwsOnly_updateNode n f : throwsOnly domError (updateNode n f).
Proof. unfold updateNode, getNode. throws_only. Qed.

Lemma throwsOnly_setAttribute el name v :
  throwsOnly domError (setAttribute el name v).
Proof.
  unfold setAttribute.
  apply throwsOnly_bind; [apply throwsOnly_getElement|].
  intros _. apply throwsOnly_updateNode.
Qed.

Lemma throwsOnly_hasAttribute el name :
  throwsOnly domError (hasAttribute el name).
Proof.
  unfold hasAttribute.
  apply throwsOnly_bind; [apply throwsOnly_getElement | throws_only].
Qed.

Lemma throwsOnly_getAttribute el name :
  throwsOnly domError (getAttribute el name).
Proof.
  unfold getAttribute.
  apply throwsOnly_bind; [apply throwsOnly_getElement | throws_only].
Qed.

Lemma throwsOnly_createNode k : throwsOnly domError (createNode k).
Proof. unfold createNode. throws_only. Qed.

Lemma throwsOnly_insertBefore parent new ref :
  throwsOnly domError (insertBefore parent new ref).
Proof.
  unfold insertBefore, appendChild. destruct ref as [r|].
  - apply throwsOnly_bind; [apply throwsOnly_getNode|]. intros nd.
    destruct (insertBeforeIn _ _ _); [apply throwsOnly_updateNode|].
    throws_only.
  - apply throwsOnly_updateNode.
Qed.

Lemma throwsOnly_hasAnchorJSLink el : throwsOnly domError (hasAnchorJSLink el).
Proof.
  intros w e. rewrite hasAnchorJSLink_eq. cbn [fst]. unfold anchoredIn.
  repeat case_match; by intros [= <-].
Qed.

Lemma throwsOnly_placeAnchor el anchor :
  throwsOnly domError (placeAnchor el anchor).
Proof.
  unfold placeAnchor, setStyle, firstChild, appendChild.
  apply throwsOnly_bind; [throws_only|]. intros a. case_bool_decide.
  - do 4 (apply throwsOnly_bind; [apply throwsOnly_updateNode | intros _]).
    apply throwsOnly_bind.
    { apply throwsOnly_bind; [apply throwsOnly_getNode | throws_only]. }
    intros fc. apply throwsOnly_insertBefore.
  - do 3 (apply throwsOnly_bind; [apply throwsOnly_updateNode | intros _]).
    apply throwsOnly_updateNode.
Qed.

Section errors.
Context `{Browser}.

Lemma throwsOnly_querySelector scope sel :
  throwsOnly domError (querySelector scope sel).
Proof.
  intros w e. destruct scope as [n|].
  - rewrite querySelector_scoped.
    destruct (nodes (document w) !! n); by intros [= <-].
  - by rewrite querySelector_document.
Qed.

Lemma throwsOnly_buildAnchor elementID :
  throwsOnly domError (buildAnchor elementID).
Proof. intros w e. by rewrite buildAnchor_eq. Qed.

Lemma throwsOnly_insertRule n rule : throwsOnly domError (insertRule n rule).
Proof.
  unfold insertRule. apply throwsOnly_bind; [throws_only|]. intros d.
  destruct (hasSheet d n); [apply throwsOnly_updateNode | throws_only].
Qed.

Lemma throwsOnly_addBaselineStyles : throwsOnly domError _addBaselineStyles.
Proof.
  unfold _addBaselineStyles, createElement, createTextNode, appendChild.
  apply throwsOnly_bind; [throws_only|]. intros d.
  apply throwsOnly_bind; [apply throwsOnly_querySelector|]. intros existing.
  case_bool_decide; [throws_only|].
  apply throwsOnly_bind; [apply throwsOnly_createNode|]. intros style.
  apply throwsOnly_bind; [apply throwsOnly_setAttribute|]. intros _.
  apply throwsOnly_bind; [apply throwsOnly_createNode|]. intros text.
  apply throwsOnly_bind; [apply throwsOnly_updateNode|]. intros _.
  apply throwsOnly_bind; [apply throwsOnly_querySelector|]. intros first.
  apply throwsOnly_bind; [apply throwsOnly_insertBefore|]. intros _.
  do 3 (apply throwsOnly_bind; [apply throwsOnly_insertRule | intros _]).
  apply throwsOnly_insertRule.
Qed.

(** The collision loop does not run out of fuel. *)
Lemma throwsOnly_generateId el idList :
  throwsOnly domError (generateId el idList).
Proof.
  unfold generateId, textContent.
  apply throwsOnly_bind.
  { apply throwsOnly_bind; [apply throwsOnly_getNode | throws_only]. }
  intros text. apply throwsOnly_bind.
  { intros w e. by rewrite urlify_eq. }
  intros tidyText.
  destruct (collisionLoop_result idList tidyText) as (r & -> & _).
  apply throwsOnly_bind; [apply throwsOnly_setAttribute | throws_only].
Qed.

Lemma throwsOnly_addElement el i st : throwsOnly domError (addElement el i st).
Proof.
  destruct st as [idList indexesToDrop]. unfold addElement, determineId.
  apply throwsOnly_bind; [apply throwsOnly_hasAnchorJSLink|].
  intros []; [throws_only|].
  apply throwsOnly_bind.
  { apply throwsOnly_bind; [apply throwsOnly_hasAttribute|]. intros [].
    { apply throwsOnly_bind; [apply throwsOnly_getAttribute | throws_only]. }
    apply throwsOnly_bind; [apply throwsOnly_hasAttribute|]. intros [].
    { apply throwsOnly_bind; [apply throwsOnly_getAttribute | throws_only]. }
    apply throwsOnly_bind; [apply throwsOnly_generateId | throws_only]. }
  intros r. apply throwsOnly_bind; [apply throwsOnly_buildAnchor|].
  intros anchor.
  apply throwsOnly_bind; [apply throwsOnly_placeAnchor | throws_only].
Qed.

Lemma throwsOnly_addLoop elements i st :
  throwsOnly domError (addLoop elements i st).
Proof.
  revert i st. induction elements as [|el rest IH]; intros i st.
  { throws_only. }
  cbn [addLoop]. apply throwsOnly_bind; [apply throwsOnly_addElement|].
  intros st1. apply IH.
Qed.

Lemma throwsOnly_removeLoop elements :
  throwsOnly domError (removeLoop elements).
Proof.
  induction elements as [|el rest IH]; [throws_only|].
  cbn [removeLoop]. apply throwsOnly_bind; [|by intros _].
  unfold removeElement, elementQuerySelector, removeChild.
  apply throwsOnly_bind.
  { apply throwsOnly_bind; [apply throwsOnly_getElement | throws_only]. }
  intros [a|]; [|throws_only].
  apply throwsOnly_bind; [throws_only|]. intros t.
  apply throwsOnly_bind; [throws_only|]. intros _.
  apply throwsOnly_bind; [apply throwsOnly_getNode|]. intros nd.
  case_bool_decide; [apply throwsOnly_updateNode | throws_only].
Qed.

(** The scan of a batch that is not empty. *)
Lemma throwsOnly_scan (elements : list NodeId) :
  throwsOnly domError
    (_addBaselineStyles;;
     d ← getDocument;
     st ← addLoop elements 0 (existingIds d, []);
     a ← getThis;
     setEls (els a ++ spliceLoop (snd st) 0 elements)).
Proof.
  apply throwsOnly_bind; [apply throwsOnly_addBaselineStyles|]. intros _.
  apply throwsOnly_bind; [throws_only|]. intros d.
  apply throwsOnly_bind; [apply throwsOnly_addLoop|]. intros st.
  throws_only.
Qed.

(** X18: [add], [remove] and [removeAll] throw nothing but a TypeError, the
    NotFoundError of [insertBefore] and [removeChild], or the SyntaxError of
    [document.querySelectorAll]; so the loop that looks for a free
    identifier never runs out of its fuel, whatever the registry.  The
    SyntaxError is thrown where the selector is a string that the parser of
    the engine refuses, and only there, so never by [removeAll]: [remove]
    throws it without a change, and [add], for which the empty string
    stands for the default selector, after it has defaulted the options. *)
Theorem scans_throw_dom_errors (w : World) (e : Error) :
  (∀ selector, fst (add selector w) = Throw e →
     domError e
     ∨ (e = SYNTAX_ERROR
        ∧ ∃ s, selectorOrDefault selector = SelString s
               ∧ validSelector s = false))
  ∧ (∀ selector, fst (remove selector w) = Throw e →
       domError e
       ∨ (e = SYNTAX_ERROR
          ∧ ∃ s, selector = SelString s ∧ validSelector s = false))
  ∧ (fst (removeAll w) = Throw e → domError e)
  ∧ (∀ s, validSelector s = false →
       remove (SelString s) w = (Throw SYNTAX_ERROR, w)
       ∧ (s ≠ [] →
          add (Some (SelString s)) w
          = (Throw SYNTAX_ERROR,
             withOpts (_applyRemainingDefaultOptions (opts (this w))) w))).
Proof.
  split; [|split; [|split]].
  - intros selector. rewrite add_eq, _getElements_eq. cbn zeta.
    assert (∀ elements,
              fst (if bool_decide (length elements = 0)
                   then (Return tt,
                         withOpts (_applyRemainingDefaultOptions
                                     (opts (this w))) w)
                   else (_addBaselineStyles;;
                         d ← getDocument;
                         st ← addLoop elements 0 (existingIds d, []);
                         a ← getThis;
                         setEls (els a ++ spliceLoop (snd st) 0 elements))
                          (withOpts (_applyRemainingDefaultOptions
                                       (opts (this w))) w))
              = Throw e → domError e) as Hscan.
    { intros elements. case_bool_decide; [done|]. apply throwsOnly_scan. }
    destruct (selectorOrDefault selector) as [s| | |] eqn:Hsel; cbn [fst].
    + destruct (validSelector s) eqn:Hs.
      * intros He. left. by eapply Hscan.
      * intros [= <-]. right. split; [done|]. by exists s.
    + intros He. left. by eapply Hscan.
    + intros He. left. by eapply Hscan.
    + intros [= <-]. by left.
  - intros selector. rewrite remove_eq, _getElements_eq. cbn [fst].
    destruct selector as [s| | |].
    + destruct (validSelector s) eqn:Hs.
      * intros He. left. by eapply throwsOnly_removeLoop.
      * intros [= <-]. right. split; [done|]. by exists s.
    + intros He. left. by eapply throwsOnly_removeLoop.
    + intros He. left. by eapply throwsOnly_removeLoop.
    + intros [= <-]. by left.
  - unfold removeAll. rewrite bind_run. cbn [getThis].
    rewrite remove_eq. cbn [_getElements fst mret M_ret].
    apply throwsOnly_removeLoop.
  - intros s Hs. split.
    + by rewrite remove_eq, _getElements_eq, Hs.
    + intros Hne. rewrite add_eq, _getElements_eq.
      destruct s as [|c s]; [done|]. cbn [selectorOrDefault]. by rewrite Hs.
Qed.
End errors.

(** ** The further properties at concrete pages *)

Lemma defaults_idempotent_witness :
  truncate (_applyRemainingDefaultOptions (truncateOpts (Finite (1 # 2))))
  = Some (Finite 0)
  ∧ _applyRemainingDefaultOptions
      (_applyRemainingDefaultOptions (truncateOpts (Finite (1 # 2))))
    ≠ _applyRemainingDefaultOptions (truncateOpts (Finite (1 # 2))).
Proof.
  split; [reflexivity|].
  intros Heq. apply (proj1 (defaults_idempotent_iff _)) in Heq.
  apply Heq. exists (1 # 2). by split.
Defined.

Lemma addBaselineStyles_inserts_witness :
  length (nodes (document (snd (_addBaselineStyles (H := asciiBrowser)
                                  introWorld)))) = 8
  ∧ nodes (document (snd (_addBaselineStyles (H := asciiBrowser) introWorld)))
      !! 7 = Some (newNode (TextNode []))
  ∧ ∃ nd, nodes (document (snd (_addBaselineStyles (H := asciiBrowser)
                                  introWorld))) !! 6 = Some nd
          ∧ cssRules nd = BASELINE_RULES.
Proof.
  destruct (addBaselineStyles_inserts (H := asciiBrowser) introWorld
              (snd (_addBaselineStyles (H := asciiBrowser) introWorld))
              (element "head" [] []))
    as (_ & Hlen & (nd & Hnd & _ & _ & _ & _ & Hsheet & _) & Htext & _);
    [by vm_compute..|].
  split; [done|]. split; [done|]. exists nd. split; [done|].
  apply Hsheet. intros rules. by vm_compute.
Defined.

Lemma nested_style_sheet_witness :
  fst (add (H := asciiBrowser) None nestedStyleWorld)
  = Throw (DOMException "NotFoundError").
Proof.
  destruct (nested_style_sheet_stops_scan (H := asciiBrowser) nestedStyleWorld
              (element "head" [] [3]) 4) as [_ Hadd].
  - by vm_compute.
  - by vm_compute.
  - by vm_compute.
  - by intros [[=]|[]%elem_of_nil]%elem_of_cons.
  - rewrite (Hadd None [5]); [done | by vm_compute | done].
Defined.

Lemma failed_scan_witness :
  fst (add (H := asciiBrowser) None halfScannedWorld) = Throw NULL_ERROR
  ∧ anchoredIn (nodes (document (snd (add (H := asciiBrowser) None
                                        halfScannedWorld)))) 3
    = Return true
  ∧ els (this (snd (add (H := asciiBrowser) None halfScannedWorld))) = [].
Proof.
  split; [by vm_compute|]. split; [by vm_compute|].
  apply (failed_scan_tracks_nothing (H := asciiBrowser) None halfScannedWorld
           NULL_ERROR).
  by vm_compute.
Defined.

Lemma scan_identifiers_witness :
  ∃ new, [str "intro"; str "intro-1"] = [str "intro"] ++ new ∧ NoDup new
         ∧ (∀ x, x ∈ new → x ∉ [str "intro"])
         ∧ ∀ x, x ∈ new →
             ∃ e nd, e ∈ [4]
               ∧ nodes (document (snd (addLoop (H := asciiBrowser) [4] 0
                                         ([str "intro"], []) introWorld)))
                   !! e = Some nd
               ∧ attrGet "id" (attributes nd) = Some x.
Proof.
  apply (scan_identifiers_are_fresh (H := asciiBrowser) [4] 0 [str "intro"]
           [str "intro"; str "intro-1"] [] [] introWorld).
  by vm_compute.
Defined.

Lemma scan_tracks_witness :
  els (this (snd (add (H := asciiBrowser) None introWorld))) = [4].
Proof.
  etrans.
  - apply (scan_tracks_the_unanchored (H := asciiBrowser) None introWorld _ [4]).
    + by vm_compute.
    + apply NoDup_singleton.
    + left. by intros [[=]|[]%elem_of_nil]%elem_of_cons.
    + intros e [->|[]%elem_of_nil]%elem_of_cons. by exists false.
    + by vm_compute.
  - by vm_compute.
Defined.

Lemma anchor_is_placed_witness :
  ∃ nd', nodes (document (snd (addElement (H := asciiBrowser) 4 0
                                 ([str "intro"], []) introWorld))) !! 4
         = Some nd'
         ∧ childNodes nd' = [5; 6].
Proof.
  destruct (anchor_is_placed (H := asciiBrowser) introWorld
              (snd (addElement (H := asciiBrowser) 4 0 ([str "intro"], [])
                      introWorld))
              4 (element "h2" [] [5]) 0 [str "intro"] []
              ([str "intro"; str "intro-1"], []))
    as (_ & _ & nd' & Hnd' & Hch); [by vm_compute..|].
  by exists nd'.
Defined.

Lemma remove_takes_back_witness :
  ∃ w2 nd1,
    removeElement (H := asciiBrowser) 4
      (snd (addElement (H := asciiBrowser) 4 0 ([str "intro"], []) introWorld))
    = (Return tt, w2)
    ∧ nodes (document (snd (addElement (H := asciiBrowser) 4 0
                              ([str "intro"], []) introWorld))) !! 4
      = Some nd1
    ∧ nodes (document w2) !! 4 = Some (withChildren [5] nd1)
    ∧ (∀ n, n ≠ 4 → n < 6 → nodes (document w2) !! n = nodes introPage !! n)
    ∧ els (this w2) = [].
Proof.
  apply (remove_takes_back_the_anchor (H := asciiBrowser) introWorld _ 4
           (element "h2" [] [5]) 0 [str "intro"] []
           ([str "intro"; str "intro-1"], [])).
  - by vm_compute.
  - by vm_compute.
  - intros c [->|[]%elem_of_nil]%elem_of_cons. cbn. lia.
  - by vm_compute.
  - by vm_compute.
Defined.

Lemma remove_of_nested_anchor_witness :
  remove (H := asciiBrowser) (SelArray [3]) nestedAnchorWorld
  = (Throw (DOMException "NotFoundError"), withEls [] nestedAnchorWorld).
Proof.
  apply (remove_of_nested_anchor_throws (H := asciiBrowser) nestedAnchorWorld
           3 5 (element "h2" [] [4; 6]) []).
  - by vm_compute.
  - by vm_compute.
  - by vm_compute.
  - by intros [[=]|[[=]|[]%elem_of_nil]%elem_of_cons]%elem_of_cons.
Defined.

Lemma remove_without_anchors_witness :
  remove (H := asciiBrowser) (SelString DEFAULT_SELECTOR) introWorld
  = (Return tt, introWorld).
Proof.
  apply (proj1 (remove_without_anchors (H := asciiBrowser) introWorld)
           (SelString DEFAULT_SELECTOR) [4]); [by vm_compute|].
  intros e [->|[]%elem_of_nil]%elem_of_cons.
  split; [by eexists | by vm_compute].
Defined.

Lemma urlify_keeps_safe_text_witness :
  fst (urlify (H := asciiBrowser) (str "Intro") introWorld)
  = Return (str "intro").
Proof.
  apply (urlify_keeps_safe_text asciiBrowser None introPage (str "Intro")).
  - apply (bool_decide_eq_true_1
             (Forall (λ c, (c ∉ nonsafeChars) ∧ c ≠ HYPHEN
                           ∧ isWhiteSpace c = false) (str "Intro"))).
    by vm_compute.
  - vm_compute. lia.
Defined.

Lemma scans_throw_witness :
  @validSelector asciiBrowser (str "h2[") = false
  ∧ add (H := asciiBrowser) (Some (SelString (str "h2["))) introWorld
    = (Throw SYNTAX_ERROR,
       withOpts (_applyRemainingDefaultOptions (opts (this introWorld)))
                introWorld)
  ∧ remove (H := asciiBrowser) (SelString (str "h2[")) introWorld
    = (Throw SYNTAX_ERROR, introWorld).
Proof.
  split; [reflexivity|].
  destruct (proj2 (proj2 (proj2 (scans_throw_dom_errors (H := asciiBrowser)
                                   introWorld SYNTAX_ERROR)))
              (str "h2[") eq_refl) as [Hremove Hadd].
  split; [by apply Hadd | exact Hremove].
Defined.
